(** * Sayuri: the search-tree node (mcts/node), its statistics and root operations

    A shallow embedding of the parts of [Node] (mcts/node.cc), [LcbEntries]
    (mcts/lcb.h) and [GameState] (game/game_state.cc) that the node's
    expansion, backup, statistics readers and root pruning rest on, followed
    by the selection of a child (by prior and by PUCT), the choice of the
    best move, the preparation of the root with its noise, the schedule of
    the Gumbel search, and the history, komi and text functions of the game
    state.

    Conventions of the embedding.
    - [int] is a 32-bit two's-complement integer: a [Z] with the wrap-around
      written out by [wrap_int].  Theorems about counters state the range in
      which the C++ arithmetic does not overflow.
    - [float] and [double] are idealised as exact rationals ([Q]); rounding
      is not modelled.  A division whose divisor is zero has no value here:
      [fdiv] answers [None], which stands for the non-finite result (an
      infinity or a NaN) of the IEEE division.
    - [assert] is compiled out (NDEBUG), as in a release build.
    - Atomics are read and written one thread at a time: every function below
      is the sequential meaning of one call. *)

From Stdlib Require Import ZArith QArith Qabs List Bool Lia Lqa Permutation.
From Stdlib Require Ascii String DecimalString DecimalPos.
Import ListNotations.

Local Open Scope Z_scope.

(** ** Machine integers and the error monad *)

Module Num.

Definition INT_MAX : Z := 2147483647.
Definition INT_MIN : Z := -2147483648.

(** Two's-complement wrap-around of a 32-bit [int]. *)
Definition wrap_int (z : Z) : Z := (z + 2 ^ 31) mod 2 ^ 32 - 2 ^ 31.

Definition int_add (a b : Z) : Z := wrap_int (a + b).
Definition int_sub (a b : Z) : Z := wrap_int (a - b).
Definition int_mul (a b : Z) : Z := wrap_int (a * b).

(** The cast [(std::uint16_t)v]. *)
Definition to_uint16 (v : Z) : Z := v mod 2 ^ 16.

(** Floating division; [None] when the divisor is zero. *)
Definition fdiv (x y : Q) : option Q :=
  if Qeq_bool y 0 then None else Some (x / y)%Q.

(** [a < b] on the idealised floats. *)
Definition Qltb (a b : Q) : bool := negb (Qle_bool b a).

Definition bind {A B : Type} (m : option A) (f : A -> option B) : option B :=
  match m with
  | Some a => f a
  | None => None
  end.

End Num.

Import Num.

Notation "x <- m ;; k" := (bind m (fun x => k))
  (at level 61, m at next level, right associativity).

(** A [for] loop over the indices [idxs] whose body may fail. *)
Fixpoint for_each {S : Type} (idxs : list nat) (body : nat -> S -> option S)
    (s : S) : option S :=
  match idxs with
  | [] => Some s
  | i :: rest => s' <- body i s ;; for_each rest body s'
  end.

(** Writing [a[i] = x] into a fixed-size array; the sizes are fixed at
    compile time, so an index past the end never occurs and leaves the list
    as it is. *)
Fixpoint array_set {A : Type} (a : list A) (i : nat) (x : A) : list A :=
  match a, i with
  | [], _ => []
  | _ :: t, O => x :: t
  | h :: t, S j => h :: array_set t j x
  end.

(** Equality of optional rationals up to [Qeq]. *)
Definition oQeq (a b : option Q) : Prop :=
  match a, b with
  | Some x, Some y => (x == y)%Q
  | None, None => True
  | _, _ => False
  end.

(** ** Colours, status and expansion state (game/types.h, mcts/node.h) *)

Inductive Color : Set := kBlack | kWhite | kEmpty | kInvalid.

Definition Color_eqb (a b : Color) : bool :=
  match a, b with
  | kBlack, kBlack | kWhite, kWhite | kEmpty, kEmpty | kInvalid, kInvalid => true
  | _, _ => false
  end.

Module StatusType.
Inductive t : Set := kActive | kPruned | kInvalid.
Definition eqb (a b : t) : bool :=
  match a, b with
  | kActive, kActive | kPruned, kPruned | kInvalid, kInvalid => true
  | _, _ => false
  end.
End StatusType.

Module ExpandState.
Inductive t : Set := kInitial | kExpanding | kExpanded.
Definition eqb (a b : t) : bool :=
  match a, b with
  | kInitial, kInitial | kExpanding, kExpanding | kExpanded, kExpanded => true
  | _, _ => false
  end.
End ExpandState.

(** ** Nodes and edges

    A [Node] owns its children through [Edge]s; an edge is a vertex, a prior
    and a pointer that is null until the edge is inflated. *)

Inductive Node : Type := mkNode {
  vertex_ : Z;
  policy_ : Q;
  color_ : Color;
  black_wl_ : Q;
  score_bouns_ : Q;
  visits_ : Z;
  running_threads_ : Z;
  squared_eval_diff_ : Q;
  accumulated_black_wl_ : Q;
  accumulated_draw_ : Q;
  accumulated_black_fs_ : Q;
  avg_black_ownership_ : list Q;
  status_ : StatusType.t;
  expand_state_ : ExpandState.t;
  children_ : list Edge }
with Edge : Type := mkEdge {
  edge_vertex : Z;
  edge_policy : Q;
  edge_node : option Node }.

(** The value record produced by expansion and consumed by backup. *)
Record NodeEvals : Type := mkNodeEvals {
  black_wl : Q;
  draw : Q;
  black_final_score : Q;
  black_ownership : list Q }.

Definition set_color (n : Node) (c : Color) : Node :=
  mkNode (vertex_ n) (policy_ n) c (black_wl_ n) (score_bouns_ n)
    (visits_ n) (running_threads_ n) (squared_eval_diff_ n)
    (accumulated_black_wl_ n) (accumulated_draw_ n) (accumulated_black_fs_ n)
    (avg_black_ownership_ n) (status_ n) (expand_state_ n) (children_ n).

Definition set_black_wl (n : Node) (v : Q) : Node :=
  mkNode (vertex_ n) (policy_ n) (color_ n) v (score_bouns_ n)
    (visits_ n) (running_threads_ n) (squared_eval_diff_ n)
    (accumulated_black_wl_ n) (accumulated_draw_ n) (accumulated_black_fs_ n)
    (avg_black_ownership_ n) (status_ n) (expand_state_ n) (children_ n).

Definition set_visits (n : Node) (v : Z) : Node :=
  mkNode (vertex_ n) (policy_ n) (color_ n) (black_wl_ n) (score_bouns_ n)
    v (running_threads_ n) (squared_eval_diff_ n)
    (accumulated_black_wl_ n) (accumulated_draw_ n) (accumulated_black_fs_ n)
    (avg_black_ownership_ n) (status_ n) (expand_state_ n) (children_ n).

Definition set_running_threads (n : Node) (v : Z) : Node :=
  mkNode (vertex_ n) (policy_ n) (color_ n) (black_wl_ n) (score_bouns_ n)
    (visits_ n) v (squared_eval_diff_ n)
    (accumulated_black_wl_ n) (accumulated_draw_ n) (accumulated_black_fs_ n)
    (avg_black_ownership_ n) (status_ n) (expand_state_ n) (children_ n).

Definition set_squared_eval_diff (n : Node) (v : Q) : Node :=
  mkNode (vertex_ n) (policy_ n) (color_ n) (black_wl_ n) (score_bouns_ n)
    (visits_ n) (running_threads_ n) v
    (accumulated_black_wl_ n) (accumulated_draw_ n) (accumulated_black_fs_ n)
    (avg_black_ownership_ n) (status_ n) (expand_state_ n) (children_ n).

Definition set_accumulated_black_wl (n : Node) (v : Q) : Node :=
  mkNode (vertex_ n) (policy_ n) (color_ n) (black_wl_ n) (score_bouns_ n)
    (visits_ n) (running_threads_ n) (squared_eval_diff_ n)
    v (accumulated_draw_ n) (accumulated_black_fs_ n)
    (avg_black_ownership_ n) (status_ n) (expand_state_ n) (children_ n).

Definition set_accumulated_draw (n : Node) (v : Q) : Node :=
  mkNode (vertex_ n) (policy_ n) (color_ n) (black_wl_ n) (score_bouns_ n)
    (visits_ n) (running_threads_ n) (squared_eval_diff_ n)
    (accumulated_black_wl_ n) v (accumulated_black_fs_ n)
    (avg_black_ownership_ n) (status_ n) (expand_state_ n) (children_ n).

Definition set_accumulated_black_fs (n : Node) (v : Q) : Node :=
  mkNode (vertex_ n) (policy_ n) (color_ n) (black_wl_ n) (score_bouns_ n)
    (visits_ n) (running_threads_ n) (squared_eval_diff_ n)
    (accumulated_black_wl_ n) (accumulated_draw_ n) v
    (avg_black_ownership_ n) (status_ n) (expand_state_ n) (children_ n).

Definition set_avg_black_ownership (n : Node) (v : list Q) : Node :=
  mkNode (vertex_ n) (policy_ n) (color_ n) (black_wl_ n) (score_bouns_ n)
    (visits_ n) (running_threads_ n) (squared_eval_diff_ n)
    (accumulated_black_wl_ n) (accumulated_draw_ n) (accumulated_black_fs_ n)
    v (status_ n) (expand_state_ n) (children_ n).

Definition set_status (n : Node) (v : StatusType.t) : Node :=
  mkNode (vertex_ n) (policy_ n) (color_ n) (black_wl_ n) (score_bouns_ n)
    (visits_ n) (running_threads_ n) (squared_eval_diff_ n)
    (accumulated_black_wl_ n) (accumulated_draw_ n) (accumulated_black_fs_ n)
    (avg_black_ownership_ n) v (expand_state_ n) (children_ n).

Definition set_expand_state (n : Node) (v : ExpandState.t) : Node :=
  mkNode (vertex_ n) (policy_ n) (color_ n) (black_wl_ n) (score_bouns_ n)
    (visits_ n) (running_threads_ n) (squared_eval_diff_ n)
    (accumulated_black_wl_ n) (accumulated_draw_ n) (accumulated_black_fs_ n)
    (avg_black_ownership_ n) (status_ n) v (children_ n).

Definition set_children (n : Node) (v : list Edge) : Node :=
  mkNode (vertex_ n) (policy_ n) (color_ n) (black_wl_ n) (score_bouns_ n)
    (visits_ n) (running_threads_ n) (squared_eval_diff_ n)
    (accumulated_black_wl_ n) (accumulated_draw_ n) (accumulated_black_fs_ n)
    (avg_black_ownership_ n) (status_ n) (expand_state_ n) v.

(** Modelled from the spec: the member initialisers of mcts/node.h, which is
    not among the sources.  The constructor [Node::Node(vertex, policy)] sets
    the vertex and the prior; the spec's data model gives the rest: no
    visits, zeroed accumulators, status Active, expand state Initial, the
    colour sentinel "invalid", no running thread and no children. *)
Definition new_Node (kNumIntersections : nat) (vertex : Z) (policy : Q) : Node :=
  mkNode vertex policy kInvalid 0%Q 0%Q 0 0 0%Q 0%Q 0%Q 0%Q
    (repeat 0%Q kNumIntersections)
    StatusType.kActive ExpandState.kInitial [].

(** ** Simple accessors (mcts/node.cc) *)

Definition VIRTUAL_LOSS_COUNT : Z := 3.

Definition GetVirtualLoss (n : Node) : Z :=
  int_mul VIRTUAL_LOSS_COUNT (running_threads_ n).

Definition GetVertex (n : Node) : Z := vertex_ n.
Definition GetPolicy (n : Node) : Q := policy_ n.
Definition GetVisits (n : Node) : Z := visits_ n.

Definition HaveChildren (n : Node) : bool :=
  negb (Color_eqb (color_ n) kInvalid).

Definition IncrementThreads (n : Node) : Node :=
  set_running_threads n (int_add (running_threads_ n) 1).

Definition DecrementThreads (n : Node) : Node :=
  set_running_threads n (int_sub (running_threads_ n) 1).

Definition IsPruned (n : Node) : bool :=
  StatusType.eqb (status_ n) StatusType.kPruned.

Definition IsActive (n : Node) : bool :=
  StatusType.eqb (status_ n) StatusType.kActive.

Definition IsValid (n : Node) : bool :=
  negb (StatusType.eqb (status_ n) StatusType.kInvalid).

Definition SetActive (n : Node) (active : bool) : Node :=
  if IsValid n
  then set_status n (if active then StatusType.kActive else StatusType.kPruned)
  else n.

Definition Invalidate (n : Node) : Node :=
  if IsValid n then set_status n StatusType.kInvalid else n.

(** ** The expansion state machine *)

(** [compare_exchange_strong(kInitial, kExpanding)]: the result and the node
    after the call. *)
Definition AcquireExpanding (n : Node) : bool * Node :=
  match expand_state_ n with
  | ExpandState.kInitial => (true, set_expand_state n ExpandState.kExpanding)
  | _ => (false, n)
  end.

Definition ExpandDone (n : Node) : Node :=
  set_expand_state n ExpandState.kExpanded.

Definition ExpandCancel (n : Node) : Node :=
  set_expand_state n ExpandState.kInitial.

Definition Expandable (n : Node) : bool :=
  ExpandState.eqb (expand_state_ n) ExpandState.kInitial.

(** ** Statistics readers *)

Definition GetFinalScore (n : Node) (color : Color) : option Q :=
  score <- fdiv (accumulated_black_fs_ n) (inject_Z (GetVisits n)) ;;
  if Color_eqb color kBlack then Some score else Some (0 - score)%Q.

Definition GetDraw (n : Node) : option Q :=
  fdiv (accumulated_draw_ n) (inject_Z (GetVisits n)).

Definition GetNetWL (n : Node) (color : Color) : Q :=
  if Color_eqb color kBlack then black_wl_ n else (1 - black_wl_ n)%Q.

Definition GetWL (n : Node) (color : Color) (use_virtual_loss : bool) : option Q :=
  let virtual_loss := if use_virtual_loss then GetVirtualLoss n else 0 in
  let visits := int_add (GetVisits n) virtual_loss in
  let accumulated_wl :=
    if Color_eqb color kWhite && use_virtual_loss
    then (accumulated_black_wl_ n + inject_Z virtual_loss)%Q
    else accumulated_black_wl_ n in
  eval <- fdiv accumulated_wl (inject_Z visits) ;;
  if Color_eqb color kBlack then Some eval else Some (1 - eval)%Q.

(** ** Backup: [Node::Update] *)

Definition WelfordDelta (eval old_acc_eval : Q) (old_visits : Z) : option Q :=
  old_delta <-
    (if 0 <? old_visits
     then (m <- fdiv old_acc_eval (inject_Z old_visits) ;; Some (eval - m)%Q)
     else Some 0%Q) ;;
  m' <- fdiv (old_acc_eval + eval)%Q (inject_Z (int_add old_visits 1)) ;;
  let new_delta := (eval - m')%Q in
  let delta := (old_delta * new_delta)%Q in
  Some delta.

Section Backup.

(** The compile-time number of intersections ([kNumIntersections],
    game/types.h). *)
Variable kNumIntersections : nat.

(** The body of the ownership loop at index [idx]. *)
Definition update_owner (evals : NodeEvals) (old_visits : Z) (idx : nat)
    (avg : list Q) : option (list Q) :=
  let eval_owner := nth idx (black_ownership evals) 0%Q in
  let avg_owner := nth idx avg 0%Q in
  diff_owner <- fdiv (eval_owner - avg_owner)%Q (inject_Z (int_add old_visits 1)) ;;
  Some (array_set avg idx (avg_owner + diff_owner)%Q).

Definition Update (evals : NodeEvals) (n : Node) : option Node :=
  let eval := black_wl evals in
  let draw := draw evals in
  let black_final_score := black_final_score evals in
  let old_acc_eval := accumulated_black_wl_ n in
  let old_visits := visits_ n in
  delta <- WelfordDelta eval old_acc_eval old_visits ;;
  let n := set_visits n (int_add (visits_ n) 1) in
  let n := set_squared_eval_diff n (squared_eval_diff_ n + delta)%Q in
  let n := set_accumulated_black_wl n (accumulated_black_wl_ n + eval)%Q in
  let n := set_accumulated_draw n (accumulated_draw_ n + draw)%Q in
  let n := set_accumulated_black_fs n (accumulated_black_fs_ n + black_final_score)%Q in
  avg <- for_each (seq 0 kNumIntersections) (update_owner evals old_visits)
           (avg_black_ownership_ n) ;;
  Some (set_avg_black_ownership n avg).

(** A backup path through one node: the [Update] calls it receives, in
    order. *)
Fixpoint UpdateAll (es : list NodeEvals) (n : Node) : option Node :=
  match es with
  | [] => Some n
  | e :: rest => n' <- Update e n ;; UpdateAll rest n'
  end.

End Backup.

(** ** The t-quantile table (mcts/lcb.h) and the lower confidence bound *)

Module Lcb.
Section Lcb.

(** [std::sqrt], [log] and [std::exp] of the C++ library. *)
Variables fsqrt flog fexp : Q -> Q.

Local Open Scope Q_scope.




Definition kEntrySize : nat := 1000.



Definition CachedTQuantile (z_lookup_table_ : list Q) (v : Z) : Q :=
  if (v <? 1)%Z then nth 0 z_lookup_table_ 0
  else if (v <? Z.of_nat kEntrySize)%Z
  then nth (Z.to_nat (v - 1)) z_lookup_table_ 0
  else nth (kEntrySize - 1) z_lookup_table_ 0.

Definition GetLcbVariance (n : Node) (default_var : Q) (visits : Z) : option Q :=
  if (1 <? visits)%Z
  then fdiv (squared_eval_diff_ n) (inject_Z (int_sub visits 1))
  else Some default_var.

(** [Node::GetLcb]; [z_lookup_table_] is the table of [LcbEntries::Get()]. *)
Definition GetLcb (z_lookup_table_ : list Q) (n : Node) (color : Color) : option Q :=
  let visits := GetVisits n in
  if (visits <=? 1)%Z
  then Some (GetPolicy n - 1000000)
  else
    mean <- GetWL n color false ;;
    variance <- GetLcbVariance n 1 visits ;;
    quot <- fdiv variance (inject_Z visits) ;;
    let stddev := fsqrt quot in
    let z := CachedTQuantile z_lookup_table_ (int_sub visits 1) in
    Some (mean - z * stddev).

End Lcb.
End Lcb.

(** ** [Node::ComputeKlDivergence] *)

Module Kl.
Section Kl.

(** [std::log]. *)
Variable flog : Q -> Q.

(** [Node::GetBestMove], the LCB arg-max over the children: the vertex it
    returns and the node after the call (its fallback inflates an edge);
    [None] when the call does not return.  The divergence depends on it only
    through these two, so it is a parameter here; [Best.GetBestMove] below
    is the function itself. *)
Variable GetBestMove : Node -> option (Z * Node).

(** The body of the loop over the children: the pair is
    [(parentvisits, best_visits)]. *)
Definition visit_child (vtx : Z) (acc : Z * Z) (child : Edge) : Z * Z :=
  let '(parentvisits, best_visits) := acc in
  match edge_node child with
  | Some node =>
      if IsActive node
      then
        let visits := GetVisits node in
        (int_add parentvisits visits,
         if GetVertex node =? vtx then visits else best_visits)
      else acc
  | None => acc
  end.

Definition gather_visits (vtx : Z) (children : list Edge) : Z * Z :=
  fold_left (visit_child vtx) children (0, 0).

Definition ComputeKlDivergence (n : Node) : option Q :=
  r <- GetBestMove n ;;
  let '(vtx, n) := r in
  let '(parentvisits, best_visits) := gather_visits vtx (children_ n) in
  if parentvisits =? best_visits then Some 0%Q
  else if (parentvisits =? 0) || (best_visits =? 0) then Some (- (1))%Q
  else
    q <- fdiv (inject_Z best_visits) (inject_Z parentvisits) ;;
    Some (- flog q)%Q.

End Kl.
End Kl.

(** ** The game state (game/game_state.cc) and its collaborators *)

Inductive Winner : Set := kUndecide | kBlackWon | kWhiteWon | kDraw.

Record GameState (Board : Type) : Type := mkGameState {
  board_ : Board;
  komi_integer_ : Z;
  komi_half_ : bool;
  komi_negative_ : bool;
  komi_hash_ : Z;
  ko_hash_history_ : list Z;
  game_history_ : list (option Board);
  winner_ : Winner }.

Arguments mkGameState {Board}.
Arguments board_ {Board}.
Arguments komi_integer_ {Board}.
Arguments komi_half_ {Board}.
Arguments komi_negative_ {Board}.
Arguments komi_hash_ {Board}.
Arguments ko_hash_history_ {Board}.
Arguments game_history_ {Board}.
Arguments winner_ {Board}.

(** What the node and the game state ask of code outside the sources: the
    vertex constants of game/types.h, the rules board (game/board.h), the
    [GameState] queries that game_state.cc does not define, and the symmetry
    table (game/symmetry.h). *)
Class Collaborators (Board : Type) : Type := {
  kPass : Z;
  kResign : Z;
  Board_GetToMove : Board -> Color;
  Board_GetBoardSize : Board -> Z;
  Board_GetNumIntersections : Board -> Z;
  Board_GetMoveNumber : Board -> Z;
  Board_GetPasses : Board -> Z;
  Board_GetVertex : Board -> Z -> Z -> Z;
  Board_GetKoHash : Board -> Z;
  Board_GetHash : Board -> Z;
  Board_IsLegalMove : Board -> Z -> Color -> bool;
  Board_IsLegalMoveAvoid : Board -> Z -> Color -> (Z -> Color -> bool) -> bool;
  Board_PlayMoveAssumeLegal : Board -> Z -> Color -> Board;
  GetStrictSafeArea : GameState Board -> list bool;
  ComputeSymmetryHash : GameState Board -> Z -> Z;
  GetMoveHash : GameState Board -> Z -> Color -> Z;
  GetGammasPolicy : GameState Board -> Color -> list Q;
  kIdentitySymmetry : nat;
  kNumSymmetris : nat;
  TransformVertex : Z -> nat -> Z -> Z }.

(** [std::vector::resize]: cut, or pad with value-initialised elements. *)
Definition resize {A : Type} (d : A) (n : nat) (l : list A) : list A :=
  firstn n l ++ repeat d (n - length l).

Module Game.
Section Game.

Context {Board : Type} `{Collaborators Board}.

Definition GetVertex (s : GameState Board) (x y : Z) : Z :=
  Board_GetVertex (board_ s) x y.

Definition GetKomi (s : GameState Board) : Q :=
  let komi := (inject_Z (komi_integer_ s)
               + (if komi_half_ s then 1 else 0) * (1 # 2))%Q in
  if komi_negative_ s then (- komi)%Q else komi.

Definition GetMoveNumber (s : GameState Board) : Z := Board_GetMoveNumber (board_ s).
Definition GetBoardSize (s : GameState Board) : Z := Board_GetBoardSize (board_ s).
Definition GetNumIntersections (s : GameState Board) : Z :=
  Board_GetNumIntersections (board_ s).
Definition GetToMove (s : GameState Board) : Color := Board_GetToMove (board_ s).
Definition GetPasses (s : GameState Board) : Z := Board_GetPasses (board_ s).

(** The hashes are returned as [int]. *)
Definition GetKoHash (s : GameState Board) : Z := wrap_int (Board_GetKoHash (board_ s)).
Definition GetHash (s : GameState Board) : Z :=
  wrap_int (Z.lxor (Board_GetHash (board_ s)) (komi_hash_ s)).

Definition IsLegalMove (s : GameState Board) (vertex : Z) (color : Color) : bool :=
  Board_IsLegalMove (board_ s) vertex color.

Definition IsLegalMoveAvoid (s : GameState Board) (vertex : Z) (color : Color)
    (AvoidToMove : Z -> Color -> bool) : bool :=
  Board_IsLegalMoveAvoid (board_ s) vertex color AvoidToMove.

(** [GameState::PlayMove(vtx, color)]: the result and the state after. *)
Definition PlayMoveColor (s : GameState Board) (vtx : Z) (color : Color)
    : bool * GameState Board :=
  if vtx =? kResign
  then
    (true,
     mkGameState (board_ s) (komi_integer_ s) (komi_half_ s) (komi_negative_ s)
       (komi_hash_ s) (ko_hash_history_ s) (game_history_ s)
       (if Color_eqb color kBlack then kWhiteWon else kBlackWon))
  else if IsLegalMove s vtx color
  then
    let b := Board_PlayMoveAssumeLegal (board_ s) vtx color in
    let move_number := Z.to_nat (Board_GetMoveNumber b) in
    (true,
     mkGameState b (komi_integer_ s) (komi_half_ s) (komi_negative_ s)
       (komi_hash_ s)
       (resize 0 move_number (ko_hash_history_ s) ++ [wrap_int (Board_GetKoHash b)])
       (resize None move_number (game_history_ s) ++ [Some b])
       (winner_ s))
  else (false, s).

Definition PlayMove (s : GameState Board) (vtx : Z) : bool * GameState Board :=
  PlayMoveColor s vtx (GetToMove s).

(** [std::find] from the second-newest entry backwards. *)
Definition IsSuperko (s : GameState Board) : bool :=
  existsb (Z.eqb (GetKoHash s)) (tl (rev (ko_hash_history_ s))).

End Game.
End Game.

(** ** Edge inflation and the root's superko pruning *)

Section Root.

Context {Board : Type} `{Collaborators Board}.
Variable kNumIntersections : nat.

(** Modelled from the spec: [Edge::Inflate] of mcts/node.h, which is not
    among the sources: "allocates the Node if absent"; the new node is built
    from the edge's vertex and prior. *)
Definition Inflate (child : Edge) : Edge :=
  match edge_node child with
  | Some _ => child
  | None =>
      mkEdge (edge_vertex child) (edge_policy child)
        (Some (new_Node kNumIntersections (edge_vertex child) (edge_policy child)))
  end.

Definition InflateAllChildren (n : Node) : Node :=
  set_children n (map Inflate (children_ n)).

(** The body of the first loop of [KillRootSuperkos]; [None] is the
    dereference of a null [child.Get()]. *)
Definition mark_superko (state : GameState Board) (child : Edge) : option Edge :=
  let vtx := edge_vertex child in
  let fork_state := snd (Game.PlayMove state vtx) in
  if negb (vtx =? kPass) && Game.IsSuperko fork_state
  then
    node <- edge_node child ;;
    Some (mkEdge (edge_vertex child) (edge_policy child) (Some (Invalidate node)))
  else Some child.

Fixpoint mark_superkos (state : GameState Board) (children : list Edge)
    : option (list Edge) :=
  match children with
  | [] => Some []
  | child :: rest =>
      child' <- mark_superko state child ;;
      rest' <- mark_superkos state rest ;;
      Some (child' :: rest')
  end.

(** [std::remove_if] with the predicate [!ele.Get()->IsValid()], followed by
    [erase]. *)
Fixpoint erase_invalid (children : list Edge) : option (list Edge) :=
  match children with
  | [] => Some []
  | ele :: rest =>
      node <- edge_node ele ;;
      rest' <- erase_invalid rest ;;
      Some (if negb (IsValid node) then rest' else ele :: rest')
  end.

Definition KillRootSuperkos (state : GameState Board) (n : Node) : option Node :=
  marked <- mark_superkos state (children_ n) ;;
  kept <- erase_invalid marked ;;
  Some (set_children n kept).

(** Whether the move of [child] repeats a position: what the loop tests. *)
Definition is_superko_move (state : GameState Board) (child : Edge) : bool :=
  negb (edge_vertex child =? kPass)
  && Game.IsSuperko (snd (Game.PlayMove state (edge_vertex child))).

End Root.

(** ** Expansion: [Node::ExpandChildren] *)

(** [Network::Result] (neural/network_basic.h). *)
Record NetworkResult : Type := mkNetworkResult {
  probabilities : list Q;
  pass_probability : Q;
  wdl : Q * Q * Q;
  wdl_winrate : Q;
  stm_winrate : Q;
  ownership : list Q;
  final_score : Q;
  board_size : Z;
  komi : Q }.

(** The options of [Parameters] that expansion reads. *)
Record Parameters : Type := mkParameters {
  root_policy_temp : Q;
  policy_temp : Q;
  no_dcnn : bool;
  root_dcnn : bool;
  symm_pruning : bool;
  use_stm_winrate : bool;
  use_rollout : bool }.

(** A [for] loop over the indices [idxs] whose body cannot fail. *)
Definition for_loop {S : Type} (idxs : list nat) (body : nat -> S -> S) (s : S) : S :=
  fold_left (fun s i => body i s) idxs s.

(** [operator<] of [std::pair<float, int>]. *)
Definition pair_lt (a b : Q * Z) : bool :=
  Qltb (fst a) (fst b) || (negb (Qltb (fst b) (fst a)) && (snd a <? snd b)).

Fixpoint insert_sorted (x : Q * Z) (l : list (Q * Z)) : list (Q * Z) :=
  match l with
  | [] => [x]
  | y :: rest => if pair_lt y x then y :: insert_sorted x rest else x :: y :: rest
  end.

(** A stable ascending sort. *)
Fixpoint stable_sort (l : list (Q * Z)) : list (Q * Z) :=
  match l with
  | [] => []
  | x :: rest => insert_sorted x (stable_sort rest)
  end.

(** [std::stable_sort(std::rbegin(l), std::rend(l))]. *)
Definition stable_sort_reversed (l : list (Q * Z)) : list (Q * Z) :=
  rev (stable_sort (rev l)).

Definition LinkNodeList (nodelist : list (Q * Z)) (n : Node) : Node :=
  let nodelist := stable_sort_reversed nodelist in
  set_children n
    (children_ n
     ++ map (fun node => mkEdge (to_uint16 (snd node)) (fst node) None) nodelist).

Definition sum_policy (children : list Edge) : Q :=
  fold_right (fun e acc => (edge_policy e + acc)%Q) 0%Q children.

Definition has_pass_child {Board : Type} `{Collaborators Board} (n : Node) : bool :=
  existsb (fun e => edge_vertex e =? kPass) (children_ n).

Section Expansion.

Context {Board : Type} `{Collaborators Board}.
Variable kNumIntersections : nat.

Variable param_ : Parameters.

(** [network.GetOutput(state, Network::kRandom, temp)]. *)
Variable network_GetOutput : GameState Board -> Q -> NetworkResult.

(** [config.IsLegal(vtx, color, movenum)]. *)
Variable config_IsLegal : Z -> Color -> Z -> bool.

(** [GetBlackRolloutResult(state, black_ownership, score)] (mcts/rollout.h):
    the result, the score and the ownership array it writes. *)
Variable GetBlackRolloutResult : GameState Board -> list Q -> Q * Q * list Q.

(** Modelled from the spec: the value-initialised [Network::Result{}]; the
    struct is declared outside the sources, the spec lists its fields. *)
Definition empty_result : NetworkResult :=
  mkNetworkResult (repeat 0%Q kNumIntersections) 0%Q (0%Q, 0%Q, 0%Q) 0%Q 0%Q
    (repeat 0%Q kNumIntersections) 0%Q 0 0%Q.

Definition ApplyNoDcnnPolicy (state : GameState Board) (color : Color)
    (raw_netlist : NetworkResult) : option NetworkResult :=
  let num_intersections := Game.GetNumIntersections state in
  let policy := GetGammasPolicy state color in
  let '(probs, owner) :=
    for_loop (seq 0 (Z.to_nat num_intersections))
      (fun idx '(probs, owner) =>
         (array_set probs idx (nth idx policy 0%Q), array_set owner idx 0%Q))
      (probabilities raw_netlist, ownership raw_netlist) in
  pass <- fdiv (1 # 10) (inject_Z num_intersections) ;;
  Some (mkNetworkResult probs pass ((1 # 2)%Q, 0%Q, (1 # 2)%Q) (1 # 2) (1 # 2)
          owner 0%Q (Game.GetBoardSize state) (Game.GetKomi state)).

Definition ApplyNetOutput (state : GameState Board) (raw_netlist : NetworkResult)
    (node_evals : NodeEvals) (color : Color) (n : Node) : Node * NodeEvals :=
  let evals_ownership := black_ownership node_evals in
  let '(wdl0, wdl1, wdl2) := wdl raw_netlist in
  let draw := wdl1 in
  let wl :=
    if use_stm_winrate param_ then stm_winrate raw_netlist
    else ((wdl0 - wdl2 + 1) / 2)%Q in
  let final_score := final_score raw_netlist in
  let wl := if Color_eqb color kWhite then (1 - wl)%Q else wl in
  let final_score := if Color_eqb color kWhite then (0 - final_score)%Q else final_score in
  let n := set_black_wl n wl in
  let black_fs := final_score in
  let '(black_ownership, avg) :=
    for_loop (seq 0 kNumIntersections)
      (fun idx '(black_ownership, avg) =>
         let owner := nth idx (ownership raw_netlist) 0%Q in
         let owner := if Color_eqb color kWhite then (0 - owner)%Q else owner in
         (array_set black_ownership idx owner, array_set avg idx 0%Q))
      (repeat 0%Q kNumIntersections, avg_black_ownership_ n) in
  let n := set_avg_black_ownership n avg in
  let '(n, black_fs, black_ownership) :=
    if use_rollout param_ || no_dcnn param_
    then
      let '(mc_black_rollout_res, mc_black_rollout_score, black_ownership) :=
        GetBlackRolloutResult state black_ownership in
      if no_dcnn param_
      then (set_black_wl n mc_black_rollout_res, mc_black_rollout_score, black_ownership)
      else (n, black_fs, black_ownership)
    else (n, black_fs, black_ownership) in
  let evals_ownership :=
    for_loop (seq 0 kNumIntersections)
      (fun idx own => array_set own idx (nth idx black_ownership 0%Q))
      evals_ownership in
  (n, mkNodeEvals (black_wl_ n) draw black_fs evals_ownership).

(** The state of the candidate loop: the node list, the accumulated legal
    policy and the hashes of the moves kept so far. *)
Definition Candidates : Type := list (Q * Z) * Q * list Z.

(** The body of the candidate loop at index [idx].  The board size divides
    [idx]; a board of size zero has no intersection to visit. *)
Definition visit_intersection (state : GameState Board) (color : Color)
    (raw_netlist : NetworkResult) (apply_symm_pruning : bool)
    (symm_base_hash : list Z) (idx : nat) (st : Candidates) : Candidates :=
  let '(nodelist, legal_accumulate, moves_hash) := st in
  let board_size := Game.GetBoardSize state in
  let x := Z.rem (Z.of_nat idx) board_size in
  let y := Z.quot (Z.of_nat idx) board_size in
  let vtx := Game.GetVertex state x y in
  let policy := nth idx (probabilities raw_netlist) 0%Q in
  let movenum := Game.GetMoveNumber state in
  if negb (Game.IsLegalMoveAvoid state vtx color
             (fun vtx color => negb (config_IsLegal vtx color movenum)))
     || nth idx (GetStrictSafeArea state) false
  then st
  else if apply_symm_pruning
  then
    let hash_found :=
      existsb
        (fun symm =>
           let symm_vtx := TransformVertex board_size symm vtx in
           let symm_hash :=
             Z.lxor (nth symm symm_base_hash 0) (GetMoveHash state symm_vtx color) in
           existsb (Z.eqb symm_hash) moves_hash)
        (seq (kIdentitySymmetry + 1) (kNumSymmetris - (kIdentitySymmetry + 1))) in
    if negb hash_found
    then
      (nodelist ++ [(policy, vtx)], (legal_accumulate + policy)%Q,
       moves_hash ++ [Z.lxor (Game.GetHash state) (GetMoveHash state vtx color)])
    else (nodelist, (legal_accumulate + policy)%Q, moves_hash)
  else (nodelist ++ [(policy, vtx)], (legal_accumulate + policy)%Q, moves_hash).

(** The candidates after the loop over the intersections. *)
Definition gather_candidates (state : GameState Board) (color : Color)
    (raw_netlist : NetworkResult) : Candidates :=
  let board_size := Game.GetBoardSize state in
  let num_intersections := Game.GetNumIntersections state in
  let apply_symm_pruning :=
    symm_pruning param_ && (Game.GetMoveNumber state <=? board_size) in
  let symm_base_hash :=
    for_loop (seq kIdentitySymmetry (kNumSymmetris - kIdentitySymmetry))
      (fun symm base =>
         if apply_symm_pruning
         then array_set base symm (ComputeSymmetryHash state (Z.of_nat symm))
         else base)
      (repeat 0 kNumSymmetris) in
  for_loop (seq 0 (Z.to_nat num_intersections))
    (visit_intersection state color raw_netlist apply_symm_pruning symm_base_hash)
    ([], 0%Q, []).

(** The pass rule: the node list and the accumulated policy after it. *)
Definition add_pass (num_intersections : Z) (raw_netlist : NetworkResult)
    (nodelist : list (Q * Z)) (legal_accumulate : Q) : list (Q * Z) * Q :=
  let allow_pass :=
    negb (wrap_int (Z.of_nat (length nodelist)) >? Z.quot (int_mul 3 num_intersections) 4) in
  if allow_pass || (length nodelist =? 0)%nat
  then (nodelist ++ [(pass_probability raw_netlist, kPass)],
        (legal_accumulate + pass_probability raw_netlist)%Q)
  else (nodelist, legal_accumulate).

Fixpoint map_policy (f : Q -> option Q) (nodelist : list (Q * Z))
    : option (list (Q * Z)) :=
  match nodelist with
  | [] => Some []
  | node :: rest =>
      p <- f (fst node) ;;
      rest' <- map_policy f rest ;;
      Some ((p, snd node) :: rest')
  end.

(** The renormalisation of the priors. *)
Definition normalize (nodelist : list (Q * Z)) (legal_accumulate : Q)
    : option (list (Q * Z)) :=
  if Qltb legal_accumulate (1 # 100000000)
  then map_policy (fun _ => fdiv 1 (inject_Z (Z.of_nat (length nodelist)))) nodelist
  else map_policy (fun p => fdiv p legal_accumulate) nodelist.

Definition ExpandChildren (state : GameState Board) (node_evals : NodeEvals)
    (is_root : bool) (n : Node) : option (bool * Node * NodeEvals) :=
  if HaveChildren n then Some (false, n, node_evals)
  else
    let '(acquired, n) := AcquireExpanding n in
    if negb acquired then Some (false, n, node_evals)
    else
      let temp := if is_root then root_policy_temp param_ else policy_temp param_ in
      let raw_netlist := empty_result in
      let n := set_color n (Game.GetToMove state) in
      raw_netlist <-
        (if no_dcnn param_ && negb (root_dcnn param_ && is_root)
         then ApplyNoDcnnPolicy state (color_ n) raw_netlist
         else Some (network_GetOutput state temp)) ;;
      let '(n, node_evals) := ApplyNetOutput state raw_netlist node_evals (color_ n) n in
      let '(nodelist, legal_accumulate, _) :=
        gather_candidates state (color_ n) raw_netlist in
      let '(nodelist, legal_accumulate) :=
        add_pass (Game.GetNumIntersections state) raw_netlist nodelist legal_accumulate in
      nodelist <- normalize nodelist legal_accumulate ;;
      let n := LinkNodeList nodelist n in
      let n := ExpandDone n in
      Some (true, n, node_evals).

End Expansion.

(** ** The best move: [Node::GetBestMove] and what it calls *)

Module Best.
Section Best.

(** [std::sqrt] and [std::tanh]. *)
Variables fsqrt ftanh : Q -> Q.

(** The table of [LcbEntries::Get()]. *)
Variable z_lookup_table_ : list Q.

(** The options [lcb_utility_factor], [lcb_reduction] and
    [score_utility_div] of [param_]. *)
Variables param_lcb_utility_factor param_lcb_reduction param_score_utility_div : Q.

Variable kNumIntersections : nat.

(** [kNullVertex] (game/types.h). *)
Variable kNullVertex : Z.

(** [std::numeric_limits<float>::lowest()]. *)
Definition FLT_LOWEST : Q := - (340282346638528859811704183484516925440).

(** [std::max] and [std::min]. *)
Definition fmax (a b : Q) : Q := if Qltb a b then b else a.
Definition fmin (a b : Q) : Q := if Qltb b a then b else a.

(** A node that is not Expanded keeps the caller spinning: the call has no
    result. *)
Definition WaitExpanded (n : Node) : option unit :=
  if ExpandState.eqb (expand_state_ n) ExpandState.kExpanded then Some tt else None.

Definition IsExpanding (n : Node) : bool :=
  ExpandState.eqb (expand_state_ n) ExpandState.kExpanding.

Definition GetScoreUtility (n : Node) (color : Color) (div parent_score : Q)
    : option Q :=
  final <- GetFinalScore n color ;;
  let score := (final + score_bouns_ n)%Q in
  q <- fdiv (score - parent_score)%Q div ;;
  Some (ftanh q).

(** The body of the second loop of [GetLcbUtilityList]; the parent's score
    is a quotient by the parent's visits and is looked at only here. *)
Definition add_lcb_entry (color : Color) (lcb_utility_factor lcb_reduction : Q)
    (parentvisits : Z) (score : option Q) (lcblist : list (Q * Z)) (child : Edge)
    : option (list (Q * Z)) :=
  match edge_node child with
  | None => Some lcblist
  | Some node =>
      if negb (IsActive node) then Some lcblist
      else
        let visits := GetVisits node in
        if 0 <? visits
        then
          lcb <- Lcb.GetLcb fsqrt z_lookup_table_ node color ;;
          score <- score ;;
          score_utility <- GetScoreUtility node color param_score_utility_div score ;;
          let utility := (lcb_utility_factor * score_utility)%Q in
          ratio <- fdiv (inject_Z visits) (inject_Z parentvisits) ;;
          let ulcb := ((lcb + utility) * (1 - lcb_reduction) + lcb_reduction * ratio)%Q in
          Some (lcblist ++ [(ulcb, GetVertex node)])
        else Some lcblist
  end.

Fixpoint add_lcb_entries (color : Color) (lcb_utility_factor lcb_reduction : Q)
    (parentvisits : Z) (score : option Q) (children : list Edge)
    (lcblist : list (Q * Z)) : option (list (Q * Z)) :=
  match children with
  | [] => Some lcblist
  | child :: rest =>
      lcblist <- add_lcb_entry color lcb_utility_factor lcb_reduction parentvisits
                   score lcblist child ;;
      add_lcb_entries color lcb_utility_factor lcb_reduction parentvisits score
        rest lcblist
  end.

Definition GetLcbUtilityList (n : Node) (color : Color) : option (list (Q * Z)) :=
  _ <- WaitExpanded n ;;
  let lcb_utility_factor := fmax 0 param_lcb_utility_factor in
  let lcb_reduction := fmin (fmax 0 param_lcb_reduction) 1 in
  let parentvisits :=
    fold_left
      (fun parentvisits child =>
         match edge_node child with
         | Some node =>
             if IsActive node then int_add parentvisits (GetVisits node)
             else parentvisits
         | None => parentvisits
         end)
      (children_ n) 0 in
  let score := GetFinalScore n color in
  lcblist <- add_lcb_entries color lcb_utility_factor lcb_reduction parentvisits
               score (children_ n) [] ;;
  Some (stable_sort_reversed lcblist).

(** The loop of [ProbSelectChild]: the index of the best edge so far (none
    for the null pointer) and its probability. *)
Fixpoint prob_select (children : list Edge) (idx : nat) (best : option nat * Q)
    : option nat * Q :=
  match children with
  | [] => best
  | child :: rest =>
      let skip :=
        match edge_node child with
        | Some node => negb (IsActive node)
        | None => false
        end in
      if skip then prob_select rest (S idx) best
      else
        let prob := edge_policy child in
        let prob :=
          match edge_node child with
          | Some node => if IsExpanding node then (- (1) + prob)%Q else prob
          | None => prob
          end in
        if Qltb (snd best) prob
        then prob_select rest (S idx) (Some idx, prob)
        else prob_select rest (S idx) best
  end.

(** [ProbSelectChild]: the selected node and the parent after the edge was
    inflated; no result on a null [best_node]. *)
Definition ProbSelectChild (n : Node) : option (Node * Node) :=
  _ <- WaitExpanded n ;;
  best <- fst (prob_select (children_ n) 0 (None, FLT_LOWEST)) ;;
  child <- nth_error (children_ n) best ;;
  let child := Inflate kNumIntersections child in
  node <- edge_node child ;;
  Some (node, set_children n (array_set (children_ n) best child)).

(** [GetBestMove]: the vertex and the node after the call. *)
Definition GetBestMove (n : Node) : option (Z * Node) :=
  _ <- WaitExpanded n ;;
  lcblist <- GetLcbUtilityList n (color_ n) ;;
  let '(best_value, best_move) :=
    fold_left
      (fun '(best_value, best_move) entry =>
         let lcb := fst entry in
         let vtx := snd entry in
         if Qltb best_value lcb then (lcb, vtx) else (best_value, best_move))
      lcblist (FLT_LOWEST, kNullVertex) in
  if (length lcblist =? 0)%nat && HaveChildren n
  then
    r <- ProbSelectChild n ;;
    Some (GetVertex (fst r), snd r)
  else Some (best_move, n).

End Best.
End Best.

(** The compare-and-swap is atomic, so the calls of several threads on one
    node take effect one after the other: the results of [k] calls in the
    order they take effect, and the node after them. *)
Fixpoint AcquireExpanding_by (k : nat) (n : Node) : list bool * Node :=
  match k with
  | O => ([], n)
  | S k' =>
      let '(won, n) := AcquireExpanding n in
      let '(rest, n) := AcquireExpanding_by k' n in
      (won :: rest, n)
  end.

(** ** Vocabulary of the statements *)

(** The per-call values of a backup lie in [0, 1]. *)
Definition evals_in_unit_range (e : NodeEvals) : Prop :=
  (0 <= black_wl e <= 1 /\ 0 <= draw e <= 1)%Q.

(** The per-call final score is at most [B] in absolute value. *)
Definition score_within (B : Q) (e : NodeEvals) : Prop :=
  (Qabs (black_final_score e) <= B)%Q.

(** The visits of the inflated, active children, in order. *)
Definition active_visits (children : list Edge) : list Z :=
  flat_map
    (fun child =>
       match edge_node child with
       | Some node => if IsActive node then [visits_ node] else []
       | None => []
       end)
    children.

Definition sum_active_visits (children : list Edge) : Z :=
  fold_right Z.add 0 (active_visits children).

(** The visits of the last inflated, active child whose node sits on [vtx];
    zero when there is none. *)
Definition best_visits_of (vtx : Z) (children : list Edge) : Z :=
  fold_left
    (fun best child =>
       match edge_node child with
       | Some node =>
           if IsActive node && (vertex_ node =? vtx) then visits_ node else best
       | None => best
       end)
    children 0.

(** Every child is inflated and not yet invalid: the state of the children
    when [PrepareRootNode] reaches the pruning. *)
Definition children_ready (children : list Edge) : Prop :=
  Forall (fun child => exists node, edge_node child = Some node /\ IsValid node = true)
    children.

(** The marking loop invalidates the repeating moves and leaves the others. *)
Definition marked_as {Board : Type} `{Collaborators Board}
    (state : GameState Board) (child marked : Edge) : Prop :=
  edge_vertex marked = edge_vertex child
  /\ edge_policy marked = edge_policy child
  /\ if is_superko_move state child
     then exists node,
            edge_node child = Some node
            /\ edge_node marked = Some (set_status node StatusType.kInvalid)
     else marked = child.

(** The sum of the priors of a node list. *)
Definition sum_prior (nodelist : list (Q * Z)) : Q :=
  fold_right (fun node acc => (fst node + acc)%Q) 0%Q nodelist.

(** The network result that an expansion works from. *)
Definition expansion_result {Board : Type} `{Collaborators Board}
    (kNumIntersections : nat) (param_ : Parameters)
    (network_GetOutput : GameState Board -> Q -> NetworkResult)
    (state : GameState Board) (is_root : bool) : option NetworkResult :=
  if no_dcnn param_ && negb (root_dcnn param_ && is_root)
  then ApplyNoDcnnPolicy state (Game.GetToMove state) (empty_result kNumIntersections)
  else Some (network_GetOutput state
               (if is_root then root_policy_temp param_ else policy_temp param_)).

(** The vertex of every intersection is a [uint16] other than the pass
    vertex, and so is the pass vertex. *)
Definition vertices_in_range {Board : Type} `{Collaborators Board}
    (state : GameState Board) : Prop :=
  0 <= kPass < 2 ^ 16
  /\ forall idx : nat,
       Z.of_nat idx < Game.GetNumIntersections state ->
       let vtx :=
         Game.GetVertex state
           (Z.rem (Z.of_nat idx) (Game.GetBoardSize state))
           (Z.quot (Z.of_nat idx) (Game.GetBoardSize state)) in
       0 <= vtx < 2 ^ 16 /\ vtx <> kPass.

(** ** A small board for the examples

    A stand-in for the rules board on which every point is legal: the vertex
    of (x, y) is [(y + 1) * (size + 2) + (x + 1)] as on a bordered board, the
    eight symmetries act on the coordinates, the hash of a move is its
    vertex plus 64, and the ko hash of the position after a move is read
    from a table. *)

Module Fixture.

Record ToyBoard : Type := mkToyBoard {
  tb_size : Z;
  tb_to_move : Color;
  tb_move_number : Z;
  tb_ko_hash : Z;
  tb_ko_after : list (Z * Z) }.

Definition toy_vertex (size x y : Z) : Z := (y + 1) * (size + 2) + (x + 1).

Definition toy_transform (size : Z) (symm : nat) (vtx : Z) : Z :=
  let x := vtx mod (size + 2) - 1 in
  let y := vtx / (size + 2) - 1 in
  let '(x, y) := if Nat.testbit symm 2 then (y, x) else (x, y) in
  let x := if Nat.testbit symm 1 then size - 1 - x else x in
  let y := if Nat.testbit symm 0 then size - 1 - y else y in
  toy_vertex size x y.

Fixpoint ko_after (table : list (Z * Z)) (vtx default : Z) : Z :=
  match table with
  | [] => default
  | (v, h) :: rest => if v =? vtx then h else ko_after rest vtx default
  end.

Definition opponent (c : Color) : Color :=
  match c with
  | kBlack => kWhite
  | _ => kBlack
  end.

Definition toy : Collaborators ToyBoard := {|
  kPass := 26;
  kResign := 27;
  Board_GetToMove := tb_to_move;
  Board_GetBoardSize := tb_size;
  Board_GetNumIntersections := fun b => tb_size b * tb_size b;
  Board_GetMoveNumber := tb_move_number;
  Board_GetPasses := fun _ => 0;
  Board_GetVertex := fun b x y => toy_vertex (tb_size b) x y;
  Board_GetKoHash := tb_ko_hash;
  Board_GetHash := tb_ko_hash;
  Board_IsLegalMove := fun _ _ _ => true;
  Board_IsLegalMoveAvoid := fun _ vtx color avoid => negb (avoid vtx color);
  Board_PlayMoveAssumeLegal := fun b vtx color =>
    mkToyBoard (tb_size b) (opponent color) (tb_move_number b + 1)
      (ko_after (tb_ko_after b) vtx (tb_ko_hash b + vtx + 1)) (tb_ko_after b);
  GetStrictSafeArea := fun s =>
    repeat false (Z.to_nat (tb_size (board_ s) * tb_size (board_ s)));
  ComputeSymmetryHash := fun s _ => Z.lxor (tb_ko_hash (board_ s)) (komi_hash_ s);
  GetMoveHash := fun _ vtx _ => 64 + vtx;
  GetGammasPolicy := fun s _ =>
    repeat (1 # 4)%Q (Z.to_nat (tb_size (board_ s) * tb_size (board_ s)));
  kIdentitySymmetry := 0%nat;
  kNumSymmetris := 8%nat;
  TransformVertex := toy_transform |}.

(** The empty 2x2 board, Black to move. *)
Definition empty_board : ToyBoard := mkToyBoard 2 kBlack 0 0 [].

Definition empty_state : GameState ToyBoard :=
  mkGameState empty_board 7 false false 0 [0] [Some empty_board] kUndecide.

(** A network that spreads the prior evenly over the four points and pass. *)
Definition uniform_result : NetworkResult :=
  mkNetworkResult [1 # 5; 1 # 5; 1 # 5; 1 # 5]%Q (1 # 5) (1 # 2, 0, 1 # 2)%Q
    (1 # 2) (1 # 2) [0; 0; 0; 0]%Q 0 2 7.

Definition network (_ : GameState ToyBoard) (_ : Q) : NetworkResult := uniform_result.

Definition config_IsLegal (_ : Z) (_ : Color) (_ : Z) : bool := true.

Definition rollout (_ : GameState ToyBoard) (own : list Q) : Q * Q * list Q :=
  ((1 # 2)%Q, 0%Q, own).

Definition params (symm : bool) : Parameters :=
  mkParameters 1 1 false false symm false false.

Definition evals0 : NodeEvals := mkNodeEvals 0 0 0 [0; 0; 0; 0]%Q.

(** Expansion of a fresh node on the empty board. *)
Definition expand (symm : bool) : option (bool * Node * NodeEvals) :=
  @ExpandChildren ToyBoard toy 4 (params symm) network config_IsLegal rollout
    empty_state evals0 true (new_Node 4 (-1) 1).

(** A position after two moves whose ko-hash history is 100, 101, 102; the
    move at vertex 5 leads back to the position hashed 101, the move at
    vertex 6 to a new one. *)
Definition ko_board : ToyBoard := mkToyBoard 2 kBlack 2 102 [(5, 101); (6, 200)].

Definition ko_state : GameState ToyBoard :=
  mkGameState ko_board 7 false false 0 [100; 101; 102] [None; None; Some ko_board]
    kUndecide.

(** [GetBestMove] with stand-ins for the square root and the hyperbolic
    tangent, a three-entry quantile table and the default options. *)
Definition best_move : Node -> option (Z * Node) :=
  Best.GetBestMove Qabs (fun q => q) [5; 4; 3]%Q (1 # 10) (1 # 50) 20 4 0.

(** A root that was expanded and visited once, with one child that was
    inflated and never visited. *)
Definition unvisited_root : Node :=
  set_children (set_visits (ExpandDone (set_color (new_Node 4 (-1) 1) kBlack)) 1)
    [mkEdge 5 1 (Some (new_Node 4 5 1))].

(** A root with five visits and two visited children, three visits and two
    wins at vertex 5, one visit at vertex 6. *)
Definition visited_root : Node :=
  set_children (set_visits (ExpandDone (set_color (new_Node 4 (-1) 1) kBlack)) 5)
    [mkEdge 5 (1 # 2)
       (Some (set_accumulated_black_wl (set_visits (new_Node 4 5 (1 # 2)) 3) 2));
     mkEdge 6 (1 # 2) (Some (set_visits (new_Node 4 6 (1 # 2)) 1))].

Definition ko_root : Node :=
  InflateAllChildren 4
    (set_children (ExpandDone (set_color (new_Node 4 (-1) 1) kBlack))
       [mkEdge 5 (1 # 2) None; mkEdge 6 (1 # 4) None; mkEdge 26 (1 # 4) None]).

End Fixture.

(** ** Vocabulary of the further statements *)

(** The sum of the win-loss values of a backup sequence, and of their
    squares. *)
Definition sum_wl (es : list NodeEvals) : Q :=
  fold_right (fun e acc => (black_wl e + acc)%Q) 0%Q es.

Definition sum_sq_wl (es : list NodeEvals) : Q :=
  fold_right (fun e acc => (black_wl e * black_wl e + acc)%Q) 0%Q es.

(** The sum of the squared deviations of the win-loss values from [m]. *)
Definition sq_dev (m : Q) (es : list NodeEvals) : Q :=
  fold_right (fun e acc => ((black_wl e - m) * (black_wl e - m) + acc)%Q) 0%Q es.

(** The sum of the ownership values at one intersection. *)
Definition sum_owner (idx : nat) (es : list NodeEvals) : Q :=
  fold_right (fun e acc => (nth idx (black_ownership e) 0 + acc)%Q) 0%Q es.

(** ** More of the node (mcts/node.cc) *)

Definition SetVisits (n : Node) (v : Z) : Node := set_visits n v.

Definition SetPolicy (n : Node) (p : Q) : Node :=
  mkNode (vertex_ n) p (color_ n) (black_wl_ n) (score_bouns_ n)
    (visits_ n) (running_threads_ n) (squared_eval_diff_ n)
    (accumulated_black_wl_ n) (accumulated_draw_ n) (accumulated_black_fs_ n)
    (avg_black_ownership_ n) (status_ n) (expand_state_ n) (children_ n).

Definition IsExpanded (n : Node) : bool :=
  ExpandState.eqb (expand_state_ n) ExpandState.kExpanded.

(** [Node::SetTerminal]: the result and the node after the call. *)
Definition SetTerminal (n : Node) : bool * Node :=
  let '(acquired, n) := AcquireExpanding n in
  if negb acquired then (false, n)
  else
    let n := set_color n kInvalid in
    let n := ExpandDone n in
    (true, n).

(** The calls that change the status of a node. *)
Inductive StatusCall : Set :=
| CallSetActive (active : bool)
| CallInvalidate.

Definition run_status_call (n : Node) (c : StatusCall) : Node :=
  match c with
  | CallSetActive active => SetActive n active
  | CallInvalidate => Invalidate n
  end.

(** [Node::GetOwnership]. *)
Definition GetOwnership (kNumIntersections : nat) (n : Node) (color : Color) : list Q :=
  for_loop (seq 0 kNumIntersections)
    (fun idx out =>
       let owner := nth idx (avg_black_ownership_ n) 0%Q in
       let owner := if Color_eqb color kWhite then (0 - owner)%Q else owner in
       array_set out idx owner)
    (repeat 0%Q kNumIntersections).

(** Every two neighbours of a list are related by [R]. *)
Fixpoint adjacent {A : Type} (R : A -> A -> Prop) (l : list A) : Prop :=
  match l with
  | [] => True
  | a :: rest =>
      match rest with
      | [] => True
      | b :: _ => R a b
      end /\ adjacent R rest
  end.

(** The priors of the children never increase along the list. *)
Definition policy_descending (children : list Edge) : Prop :=
  adjacent (fun a b => (edge_policy b <= edge_policy a)%Q) children.

(** The win rate of the side to move that the network result carries. *)
Definition side_to_move_winrate (param_ : Parameters) (raw : NetworkResult) : Q :=
  if use_stm_winrate param_ then stm_winrate raw
  else let '(wdl0, _, wdl2) := wdl raw in ((wdl0 - wdl2 + 1) / 2)%Q.

(** No intersection passes the legality test of the candidate loop. *)
Definition no_candidate {Board : Type} `{Collaborators Board}
    (config_IsLegal : Z -> Color -> Z -> bool) (state : GameState Board) : Prop :=
  forall idx : nat,
    Z.of_nat idx < Game.GetNumIntersections state ->
    let vtx :=
      Game.GetVertex state
        (Z.rem (Z.of_nat idx) (Game.GetBoardSize state))
        (Z.quot (Z.of_nat idx) (Game.GetBoardSize state)) in
    negb (Game.IsLegalMoveAvoid state vtx (Game.GetToMove state)
            (fun vtx color =>
               negb (config_IsLegal vtx color (Game.GetMoveNumber state))))
    || nth idx (GetStrictSafeArea state) false = true.

(** ** Children by vertex: [Node::GetChild] and [Node::PopChild] *)

Section Children.

Variable kNumIntersections : nat.

(** The loop of [GetChild] from index [idx] on: the index of the edge found
    and the edges after its inflation; no index when no edge has the
    vertex. *)
Fixpoint find_child (vertex : Z) (children : list Edge) (idx : nat)
    : option nat * list Edge :=
  match children with
  | [] => (None, [])
  | child :: rest =>
      if vertex =? edge_vertex child
      then (Some idx, Inflate kNumIntersections child :: rest)
      else
        let '(found, rest) := find_child vertex rest (S idx) in
        (found, child :: rest)
  end.

(** [GetChild]: the node found (none for the null pointer), the index of the
    edge that owns it, and the parent after the call. *)
Definition GetChild (n : Node) (vertex : Z) : option (nat * Node) * Node :=
  let '(found, children) := find_child vertex (children_ n) 0 in
  let n := set_children n children in
  match found with
  | Some idx =>
      match nth_error children idx with
      | Some child =>
          match edge_node child with
          | Some node => (Some (idx, node), n)
          | None => (None, n)
          end
      | None => (None, n)
      end
  | None => (None, n)
  end.

(** Erasing the edge at index [idx]. *)
Fixpoint erase_at {A : Type} (l : list A) (idx : nat) : list A :=
  match l, idx with
  | [], _ => []
  | _ :: rest, O => rest
  | x :: rest, S i => x :: erase_at rest i
  end.

(** [PopChild]: the node handed over and the parent after the call.  Every
    node has one owner, so the comparison [ele.Get() == node] singles out
    the edge that [GetChild] found. *)
Definition PopChild (n : Node) (vertex : Z) : option Node * Node :=
  let '(found, n) := GetChild n vertex in
  match found with
  | Some (idx, node) => (Some node, set_children n (erase_at (children_ n) idx))
  | None => (None, n)
  end.

End Children.

(** ** Vocabulary of the selection by prior *)

(** What the loop of [ProbSelectChild] looks at: a child that is no pointer
    yet, or one whose node is active. *)
Definition selectable (child : Edge) : bool :=
  match edge_node child with
  | Some node => IsActive node
  | None => true
  end.

(** The prior the loop compares: lowered by one while the node is being
    expanded. *)
Definition select_prob (child : Edge) : Q :=
  match edge_node child with
  | Some node =>
      if Best.IsExpanding node then (- (1) + edge_policy child)%Q
      else edge_policy child
  | None => edge_policy child
  end.

(** ** Preparing the root: [Node::PrepareRootNode] and the Dirichlet noise *)

(** [std::numeric_limits<float>::min()], the smallest normal float. *)
Definition FLT_MIN : Q := 1 # (2 ^ 126).

Definition SetScoreBouns (n : Node) (val : Q) : Node :=
  mkNode (vertex_ n) (policy_ n) (color_ n) (black_wl_ n) val
    (visits_ n) (running_threads_ n) (squared_eval_diff_ n)
    (accumulated_black_wl_ n) (accumulated_draw_ n) (accumulated_black_fs_ n)
    (avg_black_ownership_ n) (status_ n) (expand_state_ n) (children_ n).

(** The last loop of [ApplyDirichletNoise]: [dirichlet[vertex] = buffer[i]]
    for every child; a vertex outside the array has no result. *)
Fixpoint write_noise (children : list Edge) (buffer : list Q) (dirichlet : list Q)
    : option (list Q) :=
  match children, buffer with
  | child :: children, v :: buffer =>
      let vertex := edge_vertex child in
      if (0 <=? vertex) && (vertex <? Z.of_nat (length dirichlet))
      then write_noise children buffer (array_set dirichlet (Z.to_nat vertex) v)
      else None
  | _, _ => Some dirichlet
  end.

Section Noise.

(** The draws of [std::gamma_distribution<float>(alpha, 1)]: the [i]-th
    value drawn for [alpha]. *)
Variable gamma : Q -> nat -> Q.

(** The option [dirichlet_epsilon] of [param_]. *)
Variable param_dirichlet_epsilon : Q.

(** [ApplyDirichletNoise]: the array [param_->dirichlet_buffer] after the
    call.  The quotient by [sample_sum] is taken only when the sum is at
    least [FLT_MIN]. *)
Definition ApplyDirichletNoise (alpha : Q) (n : Node) (dirichlet : list Q)
    : option (list Q) :=
  let child_cnt := length (children_ n) in
  let buffer := map (gamma alpha) (seq 0 child_cnt) in
  let sample_sum := fold_left Qplus buffer 0%Q in
  let dirichlet := map (fun _ => 0%Q) dirichlet in
  if Qltb sample_sum FLT_MIN then Some dirichlet
  else
    let buffer := map (fun v => (v / sample_sum)%Q) buffer in
    write_noise (children_ n) buffer dirichlet.

(** [GetSearchPolicy]; reading the array outside its bounds has no result. *)
Definition GetSearchPolicy (dirichlet : list Q) (child : Edge) (noise : bool)
    : option Q :=
  let policy := edge_policy child in
  if noise
  then
    let vertex := edge_vertex child in
    if 0 <=? vertex
    then
      eta_a <- nth_error dirichlet (Z.to_nat vertex) ;;
      Some (policy * (1 - param_dirichlet_epsilon)
            + param_dirichlet_epsilon * eta_a)%Q
    else None
  else Some policy.

End Noise.

(** The search policies of all the children, in their order. *)
Fixpoint search_policies (epsilon : Q) (dirichlet : list Q) (children : list Edge)
    : option (list Q) :=
  match children with
  | [] => Some []
  | child :: rest =>
      p <- GetSearchPolicy epsilon dirichlet child true ;;
      ps <- search_policies epsilon dirichlet rest ;;
      Some (p :: ps)
  end.

Definition Qsum (l : list Q) : Q := fold_right Qplus 0%Q l.

Section RootPreparation.

Context {Board : Type} `{Collaborators Board}.
Variable kNumIntersections : nat.
Variable param_ : Parameters.
Variable network_GetOutput : GameState Board -> Q -> NetworkResult.
Variable config_IsLegal : Z -> Color -> Z -> bool.
Variable GetBlackRolloutResult : GameState Board -> list Q -> Q * Q * list Q.
Variable gamma : Q -> nat -> Q.

(** The options [dirichlet_noise], [dirichlet_factor], [dirichlet_init] and
    [first_pass_bonus] of [param_]. *)
Variable param_dirichlet_noise : bool.
Variables param_dirichlet_factor param_dirichlet_init : Q.
Variable param_first_pass_bonus : bool.

(** The body of the last loop of [PrepareRootNode]; [None] is the
    dereference of a null [child.Get()]. *)
Definition reset_bonus (child : Edge) : option Edge :=
  node <- edge_node child ;;
  let node :=
    if param_first_pass_bonus && (edge_vertex child =? kPass)
    then SetScoreBouns node (1 # 2)
    else SetScoreBouns node 0 in
  Some (mkEdge (edge_vertex child) (edge_policy child) (Some node)).

Fixpoint reset_bonuses (children : list Edge) : option (list Edge) :=
  match children with
  | [] => Some []
  | child :: rest =>
      child' <- reset_bonus child ;;
      rest' <- reset_bonuses rest ;;
      Some (child' :: rest')
  end.

(** [PrepareRootNode]: the result, the root, the evaluation handed back and
    the noise array of [param_]. *)
Definition PrepareRootNode (state : GameState Board) (node_evals : NodeEvals)
    (n : Node) (dirichlet : list Q)
    : option (bool * Node * NodeEvals * list Q) :=
  let is_root := true in
  r <- ExpandChildren kNumIntersections param_ network_GetOutput config_IsLegal
         GetBlackRolloutResult state node_evals is_root n ;;
  let '(success, n, node_evals) := r in
  let n := InflateAllChildren kNumIntersections n in
  dirichlet <-
    (if param_dirichlet_noise
     then
       let legal_move := length (children_ n) in
       let factor := param_dirichlet_factor in
       let init := param_dirichlet_init in
       alpha <- fdiv (init * factor)%Q (inject_Z (Z.of_nat legal_move)) ;;
       ApplyDirichletNoise gamma alpha n dirichlet
     else Some dirichlet) ;;
  n <- KillRootSuperkos state n ;;
  let n := SetScoreBouns n 0 in
  children <- reset_bonuses (children_ n) ;;
  Some (success, set_children n children, node_evals, dirichlet).

End RootPreparation.

(** Every vertex a child can carry lies inside an array of [size] entries. *)
Definition array_covers_vertices {Board : Type} `{Collaborators Board}
    (state : GameState Board) (size : nat) : Prop :=
  to_uint16 kPass < Z.of_nat size
  /\ forall idx : nat,
       Z.of_nat idx < Game.GetNumIntersections state ->
       to_uint16
         (Game.GetVertex state
            (Z.rem (Z.of_nat idx) (Game.GetBoardSize state))
            (Z.quot (Z.of_nat idx) (Game.GetBoardSize state)))
       < Z.of_nat size.

(** The score bonus that [PrepareRootNode] leaves on a child. *)
Definition root_bonus {Board : Type} `{Collaborators Board}
    (first_pass_bonus : bool) (child : Edge) : Q :=
  if first_pass_bonus && (edge_vertex child =? kPass) then 1 # 2 else 0.

(** ** More of the game state (game/game_state.cc) *)

Module GameOps.
Section GameOps.

Context {Board : Type} `{Collaborators Board}.

(** [Board::Reset] (game/board.h). *)
Variable Board_Reset : Board -> Z -> Board.

(** [IsSameKomi] (utils/komi.h). *)
Variable IsSameKomi : Q -> Q -> bool.

(** The table [Zobrist::kKomi] and the keys [Zobrist::kNegativeKomi] and
    [Zobrist::kHalfKomi] (game/zobrist.h). *)
Variable Zobrist_kKomi : list Z.
Variables Zobrist_kNegativeKomi Zobrist_kHalfKomi : Z.

Definition set_board (s : GameState Board) (b : Board) : GameState Board :=
  mkGameState b (komi_integer_ s) (komi_half_ s) (komi_negative_ s)
    (komi_hash_ s) (ko_hash_history_ s) (game_history_ s) (winner_ s).

(** [static_cast<int>] of a float: the fraction is cut off; a value outside
    [int] has no result. *)
Definition float_to_int (x : Q) : option Z :=
  let z := Z.quot (Qnum x) (Z.pos (Qden x)) in
  if (INT_MIN <=? z) && (z <=? INT_MAX) then Some z else None.

(** The tail of [SetKomi] once the fraction was recognised; an index outside
    the table has no result. *)
Definition store_komi (s : GameState Board) (negative half : bool) (integer_part : Z)
    : option (GameState Board) :=
  if integer_part <? 0 then None
  else
    komi_hash <- nth_error Zobrist_kKomi (Z.to_nat integer_part) ;;
    let komi_hash :=
      if negative then Z.lxor komi_hash Zobrist_kNegativeKomi else komi_hash in
    let komi_hash :=
      if half then Z.lxor komi_hash Zobrist_kHalfKomi else komi_hash in
    Some (mkGameState (board_ s) integer_part half negative komi_hash
            (ko_hash_history_ s) (game_history_ s) (winner_ s)).

Definition SetKomi (s : GameState Board) (komi : Q) : option (GameState Board) :=
  let negative := Qltb komi 0 in
  let komi := if negative then (- komi)%Q else komi in
  integer_part <- float_to_int komi ;;
  let float_part := (komi - inject_Z integer_part)%Q in
  if IsSameKomi float_part 0 then store_komi s negative false integer_part
  else if IsSameKomi float_part (1 # 2) then store_komi s negative true integer_part
  else Some s.

Definition Reset (s : GameState Board) (boardsize : Z) (komi : Q)
    : option (GameState Board) :=
  let s := set_board s (Board_Reset (board_ s) boardsize) in
  s <- SetKomi s komi ;;
  Some (mkGameState (board_ s) (komi_integer_ s) (komi_half_ s) (komi_negative_ s)
          (komi_hash_ s) [Game.GetKoHash s] [Some (board_ s)] kUndecide).

Definition ClearBoard (s : GameState Board) : option (GameState Board) :=
  Reset s (Game.GetBoardSize s) (Game.GetKomi s).

Definition PlayMoveFast (s : GameState Board) (vtx : Z) (color : Color)
    : GameState Board :=
  if negb (vtx =? kResign)
  then set_board s (Board_PlayMoveAssumeLegal (board_ s) vtx color)
  else s.

(** [UndoMove]; [None] is the dereference of an entry of the history that
    holds no board. *)
Definition UndoMove (s : GameState Board) : option (bool * GameState Board) :=
  let move_number := Game.GetMoveNumber s in
  if 1 <=? move_number
  then
    let ko_hash_history := resize 0 (Z.to_nat move_number) (ko_hash_history_ s) in
    let game_history := resize None (Z.to_nat move_number) (game_history_ s) in
    entry <- nth_error game_history (Z.to_nat (move_number - 1)) ;;
    b <- entry ;;
    Some (true,
          mkGameState b (komi_integer_ s) (komi_half_ s) (komi_negative_ s)
            (komi_hash_ s) ko_hash_history game_history (winner_ s))
  else Some (false, s).

Definition Winner_eqb (a b : Winner) : bool :=
  match a, b with
  | kUndecide, kUndecide | kBlackWon, kBlackWon
  | kWhiteWon, kWhiteWon | kDraw, kDraw => true
  | _, _ => false
  end.

Definition IsGameOver (s : GameState Board) : bool :=
  negb (Winner_eqb (winner_ s) kUndecide) || (2 <=? Game.GetPasses s).

Definition GetWinner (s : GameState Board) : Winner := winner_ s.

End GameOps.
End GameOps.

(** The histories hold one entry per move played and one for the start, end
    with the position on the board, and every entry holds a board. *)
Definition history_ok {Board : Type} `{Collaborators Board} (s : GameState Board)
    : Prop :=
  0 <= Game.GetMoveNumber s
  /\ length (ko_hash_history_ s) = S (Z.to_nat (Game.GetMoveNumber s))
  /\ length (game_history_ s) = S (Z.to_nat (Game.GetMoveNumber s))
  /\ last (ko_hash_history_ s) 0 = Game.GetKoHash s
  /\ last (game_history_ s) None = Some (board_ s)
  /\ Forall (fun entry => entry <> None) (game_history_ s).

(** ** The Gumbel schedule: [Node::ProcessGumbelLogits] *)

Module Gumbel.
Section Gumbel.

(** [std::tanh]. *)
Variable ftanh : Q -> Q.

(** The options [score_utility_div] and [completed_q_utility_factor] of
    [param_]. *)
Variables param_score_utility_div param_completed_q_utility_factor : Q.

Definition GetGumbelQValue (n : Node) (color : Color) (parent_score : Q) : option Q :=
  let score_utility_div := param_score_utility_div in
  let completed_q_utility_factor := param_completed_q_utility_factor in
  wl <- GetWL n color false ;;
  utility <- Best.GetScoreUtility ftanh n color score_utility_div parent_score ;;
  Some (wl + completed_q_utility_factor * utility)%Q.

Definition NormalizeCompletedQ (completed_q : Q) (max_visits : Z) : Q :=
  ((50 + inject_Z max_visits) * (1 # 10) * completed_q)%Q.

(** [table[adj_considered_moves-j-1] += 1]; an index outside the table has
    no result. *)
Definition bump (adj_considered_moves : Z) (j : nat) (table : list Z)
    : option (list Z) :=
  let at_ := int_sub (int_sub adj_considered_moves (Z.of_nat j)) 1 in
  if (0 <=? at_) && (at_ <? Z.of_nat (length table))
  then Some (array_set table (Z.to_nat at_)
               (int_add (nth (Z.to_nat at_) table 0) 1))
  else None.

(** The three nested loops that fill the table of one epoch: per round [i]
    the width [w] halves and the repeat count [r] doubles. *)
Definition fill_table (n adj_considered_moves : Z) : option (list Z) :=
  r <- for_each (seq 0 (Z.to_nat n))
         (fun _ '(r, w, table) =>
            table <- for_each (seq 0 (Z.to_nat w))
                       (fun j table =>
                          for_each (seq 0 (Z.to_nat r))
                            (fun _ table => bump adj_considered_moves j table)
                            table)
                       table ;;
            Some (int_mul r 2, Z.quot w 2, table))
         (1, adj_considered_moves, repeat 0 (Z.to_nat adj_considered_moves)) ;;
  Some (snd r).

(** The loop over the rounds already played in this epoch: the height, the
    width and the offset after [m] rounds. *)
Definition halve (m adj_considered_moves : Z) : Z * Z * Z :=
  fst
    (for_loop (seq 0 (Z.to_nat m))
       (fun _ '(height, width, offset, t) =>
          let height := int_add height t in
          let width := Z.quot width 2 in
          let offset := int_add offset width in
          (height, width, offset, int_mul t 2))
       (0, adj_considered_moves, 0, 1)).

(** The number of visits a move has when it is among the considered ones; a
    zero width or an index outside the table has no result. *)
Definition considered_visits (root_visits max_visists considered_moves : Z)
    (only_max_visit : bool) : option Z :=
  let n := int_add (Z.log2 (Z.max 1 considered_moves)) 1 in
  let adj_considered_moves := 2 ^ (int_sub n 1) in
  table <- fill_table n adj_considered_moves ;;
  let visits_per_round := int_mul n adj_considered_moves in
  if visits_per_round =? 0 then None
  else
    let rounds := Z.quot root_visits visits_per_round in
    let visits_this_round := int_sub root_visits (int_mul rounds visits_per_round) in
    let m := Z.quot visits_this_round adj_considered_moves in
    let '(height, width, offset) := halve m adj_considered_moves in
    if width =? 0 then None
    else
      let idx := int_add offset (Z.rem root_visits width) in
      if only_max_visit then Some max_visists
      else if (0 <=? idx) && (idx <? Z.of_nat (length table))
      then
        Some (int_add
                (int_add (int_mul (nth (Z.to_nat idx) table 0) rounds) height)
                (Z.quot (int_sub visits_this_round (int_mul m adj_considered_moves))
                   width))
      else None.

(** The body of the loop over the children; [None] is the dereference of a
    null [child.Get()] or a vertex outside [gumbel_logits]. *)
Definition process_child (color : Color) (max_visists : Z) (mval : Q)
    (considered_visists : Z) (parent_score : option Q) (gumbel_logits : list Q)
    (child : Edge) : option (list Q) :=
  match edge_node child with
  | Some node =>
      if negb (IsActive node) then Some gumbel_logits
      else
        let visits := GetVisits node in
        let vertex := GetVertex node in
        if visits =? considered_visists
        then
          if 0 <? visits
          then
            parent_score <- parent_score ;;
            q <- GetGumbelQValue node color parent_score ;;
            if (0 <=? vertex) && (vertex <? Z.of_nat (length gumbel_logits))
            then
              Some (array_set gumbel_logits (Z.to_nat vertex)
                      (nth (Z.to_nat vertex) gumbel_logits 0
                       + NormalizeCompletedQ q max_visists)%Q)
            else None
          else Some gumbel_logits
        else
          if (0 <=? vertex) && (vertex <? Z.of_nat (length gumbel_logits))
          then Some (array_set gumbel_logits (Z.to_nat vertex) mval)
          else None
  | None => None
  end.

Fixpoint process_children (color : Color) (max_visists : Z) (mval : Q)
    (considered_visists : Z) (parent_score : option Q) (children : list Edge)
    (gumbel_logits : list Q) : option (list Q) :=
  match children with
  | [] => Some gumbel_logits
  | child :: rest =>
      gumbel_logits <- process_child color max_visists mval considered_visists
                         parent_score gumbel_logits child ;;
      process_children color max_visists mval considered_visists parent_score
        rest gumbel_logits
  end.

(** [ProcessGumbelLogits]: the logits after the call.  The parent's score
    is a quotient by the parent's visits and is looked at only for a child
    with visits. *)
Definition ProcessGumbelLogits (n : Node) (gumbel_logits : list Q) (color : Color)
    (root_visits max_visists considered_moves : Z) (mval : Q)
    (only_max_visit : bool) : option (list Q) :=
  considered_visists <-
    considered_visits root_visits max_visists considered_moves only_max_visit ;;
  let parent_score := GetFinalScore n color in
  process_children color max_visists mval considered_visists parent_score
    (children_ n) gumbel_logits.

End Gumbel.
End Gumbel.

Definition Zsum (l : list Z) : Z := fold_right Z.add 0 l.

(** The state of the table while it is filled: its size, no negative entry,
    and the number of increments so far. *)
Definition table_state (adj : Z) (count : Z) (table : list Z) : Prop :=
  Z.of_nat (length table) = adj
  /\ Forall (fun v => 0 <= v) table
  /\ Zsum table = count.

(** The children that the loop of [ProcessGumbelLogits] can work on: every
    child is a pointer, its visits are a non-negative [int] and its vertex
    lies inside the logits. *)
Definition logits_cover (size : nat) (children : list Edge) : Prop :=
  Forall
    (fun child =>
       exists node,
         edge_node child = Some node
         /\ 0 <= visits_ node <= INT_MAX
         /\ 0 <= vertex_ node < Z.of_nat size)
    children.

(** A vertex of an active child that has visits. *)
Definition visited_child (children : list Edge) (vtx : Z) : Prop :=
  exists child node,
    In child children
    /\ edge_node child = Some node
    /\ IsActive node = true
    /\ 0 < visits_ node
    /\ vertex_ node = vtx.

(** ** Selection by PUCT: [Node::PuctSelectChild] *)

(** A selection loop of the node: [value] gives the value of a child, no
    value for a child that the loop skips, and fails where the source
    dereferences a null pointer or divides by zero.  The loop keeps the
    index of the best edge so far (none for the null pointer) and its
    value. *)
Fixpoint select_best (value : Edge -> option (option Q)) (children : list Edge)
    (idx : nat) (best : option nat * Q) : option (option nat * Q) :=
  match children with
  | [] => Some best
  | child :: rest =>
      v <- value child ;;
      match v with
      | None => select_best value rest (S idx) best
      | Some v =>
          if Qltb (snd best) v
          then select_best value rest (S idx) (Some idx, v)
          else select_best value rest (S idx) best
      end
  end.

Module Puct.
Section Puct.

(** [std::sqrt], [std::log] and [std::tanh]. *)
Variables fsqrt flog ftanh : Q -> Q.

Variable kNumIntersections : nat.

(** The options of [param_] that the selection reads. *)
Variables param_cpuct_init param_cpuct_base_factor param_cpuct_base : Q.
Variables param_draw_factor param_score_utility_factor param_score_utility_div : Q.
Variables param_fpu_root_reduction param_fpu_reduction param_dirichlet_epsilon : Q.
Variables param_dirichlet_noise param_gumbel : bool.
Variable param_gumbel_playouts : Z.
Variable param_dirichlet_buffer : list Q.

(** The default of the second argument of [GetWL], declared in mcts/node.h,
    which is not among the sources. *)
Variable default_use_virtual_loss : bool.

(** [GumbelSelectChild], which draws from the random generator. *)
Variable GumbelSelectChild : Node -> Color -> bool -> option (Node * Node).

Definition ShouldApplyGumbel (n : Node) : bool :=
  let visits := int_sub (GetVisits n) 1 in
  param_gumbel && (visits <? param_gumbel_playouts).

(** The first loop: the visits of the valid children and the priors of the
    visited ones. *)
Definition gather_parent (children : list Edge) : Z * Q :=
  fold_left
    (fun '(parentvisits, total_visited_policy) child =>
       match edge_node child with
       | Some node =>
           if IsValid node
           then
             let visits := GetVisits node in
             (int_add parentvisits visits,
              if 0 <? visits then (total_visited_policy + edge_policy child)%Q
              else total_visited_policy)
           else (parentvisits, total_visited_policy)
       | None => (parentvisits, total_visited_policy)
       end)
    children (0, 0%Q).

(** What the second loop works with: [noise], [cpuct], [numerator],
    [fpu_reduction], [fpu_value] and [parent_score]. *)
Record Context : Type := mkContext {
  noise : bool;
  cpuct : Q;
  numerator : Q;
  fpu_reduction : Q;
  fpu_value : Q;
  parent_score : option Q }.

Definition search_context (n : Node) (color : Color) (is_root : bool)
    : option Context :=
  let '(parentvisits, total_visited_policy) := gather_parent (children_ n) in
  let noise := if is_root then param_dirichlet_noise else false in
  let fpu_reduction_factor :=
    if is_root then param_fpu_root_reduction else param_fpu_reduction in
  ratio <- fdiv (inject_Z parentvisits + param_cpuct_base + 1)%Q param_cpuct_base ;;
  let cpuct := (param_cpuct_init + param_cpuct_base_factor * flog ratio)%Q in
  let numerator := fsqrt (inject_Z parentvisits) in
  let fpu_reduction := (fpu_reduction_factor * fsqrt total_visited_policy)%Q in
  let fpu_value := (GetNetWL n color - fpu_reduction)%Q in
  let parent_score := GetFinalScore n color in
  Some (mkContext noise cpuct numerator fpu_reduction fpu_value parent_score).

(** The end of the loop body: the PUCT value from the Q value, the
    denominator and the utility. *)
Definition puct_of (ctx : Context) (child : Edge) (q_value denom utility : Q)
    : option (option Q) :=
  psa <- GetSearchPolicy param_dirichlet_epsilon param_dirichlet_buffer child
           (noise ctx) ;;
  ratio <- fdiv (numerator ctx) denom ;;
  let puct := (cpuct ctx * psa * ratio)%Q in
  Some (Some (q_value + puct + utility)%Q).

(** The body of the second loop: no value for a pruned or invalid child.
    The parent's score is a quotient by the parent's visits and is looked
    at only for a child with visits. *)
Definition puct_value (color : Color) (ctx : Context) (child : Edge)
    : option (option Q) :=
  match edge_node child with
  | Some node =>
      if negb (IsActive node) then Some None
      else
        let visits := GetVisits node in
        qu <-
          (if Best.IsExpanding node
           then Some ((- (1) - fpu_reduction ctx)%Q, 0%Q)
           else if 0 <? visits
           then
             eval <- GetWL node color default_use_virtual_loss ;;
             draw <- GetDraw node ;;
             let draw_value := (draw * param_draw_factor)%Q in
             parent_score <- parent_score ctx ;;
             score_utility <-
               Best.GetScoreUtility ftanh node color param_score_utility_div
                 parent_score ;;
             Some ((eval + draw_value)%Q,
                   (0 + param_score_utility_factor * score_utility)%Q)
           else Some (fpu_value ctx, 0%Q)) ;;
        puct_of ctx child (fst qu) (1 + inject_Z visits)%Q (snd qu)
  | None => puct_of ctx child (fpu_value ctx) 1%Q 0%Q
  end.

(** The value of a child as [PuctSelectChild] on [n] computes it. *)
Definition child_value (n : Node) (color : Color) (is_root : bool) (child : Edge)
    : option (option Q) :=
  ctx <- search_context n color is_root ;;
  puct_value color ctx child.

(** [PuctSelectChild]: the selected node and the parent after the edge was
    inflated; no result on a null [best_node]. *)
Definition PuctSelectChild (n : Node) (color : Color) (is_root : bool)
    : option (Node * Node) :=
  _ <- Best.WaitExpanded n ;;
  if is_root && ShouldApplyGumbel n
  then GumbelSelectChild n color false
  else
    ctx <- search_context n color is_root ;;
    r <- select_best (puct_value color ctx) (children_ n) 0 (None, Best.FLT_LOWEST) ;;
    best <- fst r ;;
    child <- nth_error (children_ n) best ;;
    let child := Inflate kNumIntersections child in
    node <- edge_node child ;;
    Some (node, set_children n (array_set (children_ n) best child)).

End Puct.
End Puct.

(** ** Vertices as text: [GameState::TextToVertex] and [GameState::VertexToText] *)

Module Text.

Import Ascii String.

Section Text.

Context {Board : Type} `{Collaborators Board}.

(** [kNullVertex] (game/types.h) and the coordinates of a vertex
    ([Board::GetX], [Board::GetY] of game/board.h). *)
Variable kNullVertex : Z.
Variables Board_GetX Board_GetY : Board -> Z -> Z.

(** The code of a character, and the character of a code
    ([static_cast<char>]).  Characters are compared by their codes as
    unsigned values; for a code of 128 or more the C++ comparison depends on
    the sign of [char], and the statements below keep the codes under 128. *)
Definition code (c : ascii) : Z := Z.of_N (N_of_ascii c).
Definition to_char (z : Z) : ascii := ascii_of_N (Z.to_N (z mod 256)).

(** [out << n] for an [int]: its decimal digits. *)
Definition print_int (z : Z) : string :=
  DecimalString.NilZero.string_of_int (Z.to_int z).

(** [std::stoi] on a string of digits; [None] is the exception it throws on
    an empty string or a value outside [int]. *)
Definition stoi (s : string) : option Z :=
  d <- DecimalString.NilZero.uint_of_string s ;;
  let z := Z.of_uint d in
  if z <=? INT_MAX then Some z else None.

(** The [std::for_each] over the text after its first character: the digits
    so far, dropped for good at the first other character. *)
Fixpoint scan_digits (text y_str : string) (skip : bool) : string * bool :=
  match text with
  | EmptyString => (y_str, skip)
  | String c rest =>
      if skip then scan_digits rest y_str skip
      else if (code "0" <=? code c) && (code c <=? code "9")
      then scan_digits rest (y_str ++ String c EmptyString) skip
      else scan_digits rest EmptyString true
  end.

(** The column that the first character of a move names: the letters skip
    [i], and a character that is no letter names none. *)
Definition column (c : ascii) : Z :=
  if (code "a" <=? code c) && (code c <=? code "z")
  then
    let x := code c - code "a" in
    if code "i" <=? code c then x - 1 else x
  else if (code "A" <=? code c) && (code c <=? code "Z")
  then
    let x := code c - code "A" in
    if code "I" <=? code c then x - 1 else x
  else -1.

(** The letter that [VertexToText] writes for the column [x]. *)
Definition column_char (x : Z) : ascii :=
  let offset := if code "I" <=? code (to_char (x + code "A")) then 1 else 0 in
  to_char (x + offset + code "A").

Definition TextToVertex (s : GameState Board) (text : string) : option Z :=
  if (Z.of_nat (length text) <? 2) then Some kNullVertex
  else if (text =? "PASS")%string || (text =? "pass")%string then Some kPass
  else if (text =? "RESIGN")%string || (text =? "resign")%string then Some kResign
  else
    match text with
    | EmptyString => Some kNullVertex
    | String c rest =>
        let x := column c in
        let '(y_str, _) := scan_digits rest EmptyString false in
        y <- (if (length y_str =? 0)%nat then Some (-1)
              else v <- stoi y_str ;; Some (int_sub v 1)) ;;
        if (x =? -1) || (y =? -1) then Some kNullVertex
        else Some (Board_GetVertex (board_ s) x y)
    end.

Definition VertexToText (s : GameState Board) (vtx : Z) : string :=
  if vtx =? kPass then "pass"%string
  else if vtx =? kResign then "resign"%string
  else
    let x := Board_GetX (board_ s) vtx in
    let y := Board_GetY (board_ s) vtx in
    String (column_char x) (print_int (int_add y 1)).

End Text.
End Text.

(** ** Examples for the further statements *)

Module Sample.

(** Two backups on a board of two intersections: a win and a loss. *)
Definition two_backups : list NodeEvals :=
  [mkNodeEvals 1 0 3 [1; 0]%Q; mkNodeEvals 0 0 (-1) [0; 1]%Q].

(** A node with four visits, three wins for Black and one thread inside. *)
Definition busy_node : Node :=
  set_running_threads
    (set_accumulated_black_wl (set_visits (new_Node 2 5 (1 # 4)) 4) 3) 1.


(** A configuration that forbids every move. *)
Definition never_legal (_ : Z) (_ : Color) (_ : Z) : bool := false.

(** The root of the empty 2x2 board after its expansion. *)
Definition expanded : Node :=
  match Fixture.expand false with
  | Some (_, n, _) => n
  | None => new_Node 4 (-1) 1
  end.

Definition first_child : Edge := hd (mkEdge 0 0 None) (children_ expanded).
Definition other_children : list Edge := tl (children_ expanded).

(** Gamma draws that are all 1, and a noise array of thirty entries. *)
Definition unit_gamma (_ : Q) (_ : nat) : Q := 1.
Definition noise_array : list Q := repeat 0%Q 30.

(** The root preparation on the empty 2x2 board, with the noise and the
    first-pass bonus on. *)
Definition prepare : option (bool * Node * NodeEvals * list Q) :=
  @PrepareRootNode Fixture.ToyBoard Fixture.toy 4 (Fixture.params false)
    Fixture.network Fixture.config_IsLegal Fixture.rollout unit_gamma true 1 (3 # 100)
    true Fixture.empty_state Fixture.evals0 (new_Node 4 (-1) 1) noise_array.

(** A komi table of eight keys, and a board reset. *)
Definition komi_table : list Z := [11; 12; 13; 14; 15; 16; 17; 18].

Definition toy_reset (_ : Fixture.ToyBoard) (size : Z) : Fixture.ToyBoard :=
  Fixture.mkToyBoard size kBlack 0 0 [].

Definition set_komi : GameState Fixture.ToyBoard -> Q -> option (GameState Fixture.ToyBoard) :=
  GameOps.SetKomi Qeq_bool komi_table 1000 2000.

Definition reset : GameState Fixture.ToyBoard -> Z -> Q -> option (GameState Fixture.ToyBoard) :=
  @GameOps.Reset Fixture.ToyBoard Fixture.toy toy_reset Qeq_bool komi_table 1000 2000.

(** Thirty Gumbel logits. *)
Definition logits : list Q := repeat (- (1000000))%Q 30.

Definition process_logits : option (list Q) :=
  Gumbel.ProcessGumbelLogits (fun q => q) 20 (1 # 4) Fixture.visited_root logits
    kBlack 5 3 4 (- (1000000))%Q false.

(** The coordinates of a vertex of the small board. *)
Definition toy_x (b : Fixture.ToyBoard) (vtx : Z) : Z :=
  vtx mod (Fixture.tb_size b + 2) - 1.
Definition toy_y (b : Fixture.ToyBoard) (vtx : Z) : Z :=
  vtx / (Fixture.tb_size b + 2) - 1.

(** [GetLcbUtilityList] and [PuctSelectChild] with stand-ins for the
    library functions and plain options. *)
Definition lcb_list : Node -> Color -> option (list (Q * Z)) :=
  Best.GetLcbUtilityList Qabs (fun q => q) [5; 4; 3]%Q (1 # 10) (1 # 50) 20.

Definition puct : Node -> Color -> bool -> option (Node * Node) :=
  Puct.PuctSelectChild Qabs (fun q => q) (fun q => q) 4 (1 # 2) (1 # 4) 19652
    (1 # 10) (1 # 4) 20 (1 # 4) (1 # 4) (1 # 4) false false 0 noise_array true
    (fun _ _ _ => None).

End Sample.

(** * Properties *)

(** ** Arithmetic helpers *)

Lemma wrap_int_small (z : Z) : INT_MIN <= z <= INT_MAX -> wrap_int z = z.
Proof.
  unfold INT_MIN, INT_MAX, wrap_int. intros Hz.
  rewrite Z.mod_small; lia.
Qed.

Lemma wrap_int_idem_add (a b : Z) : wrap_int (wrap_int a + b) = wrap_int (a + b).
Proof.
  unfold wrap_int.
  replace ((a + 2 ^ 31) mod 2 ^ 32 - 2 ^ 31 + b + 2 ^ 31)
    with ((a + 2 ^ 31) mod 2 ^ 32 + b) by ring.
  rewrite Zplus_mod_idemp_l. f_equal. f_equal. ring.
Qed.

Lemma fdiv_zero (x : Q) : fdiv x (inject_Z 0) = None.
Proof. reflexivity. Qed.

Lemma fdiv_nonzero (x y : Q) : ~ (y == 0)%Q -> fdiv x y = Some (x / y)%Q.
Proof.
  intros Hy. unfold fdiv.
  destruct (Qeq_bool y 0) eqn:E; [| reflexivity].
  apply Qeq_bool_eq in E. contradiction.
Qed.

Lemma inject_Z_nonzero (z : Z) : z <> 0 -> ~ (inject_Z z == 0)%Q.
Proof.
  intros Hz E. apply Hz. unfold Qeq, inject_Z in E. simpl in E. lia.
Qed.

Lemma fdiv_inject_Z (x : Q) (z : Z) :
  z <> 0 -> fdiv x (inject_Z z) = Some (x / inject_Z z)%Q.
Proof. intros Hz. apply fdiv_nonzero, inject_Z_nonzero, Hz. Qed.

Lemma fdiv_inject_Z_None (x : Q) (z : Z) : fdiv x (inject_Z z) = None <-> z = 0.
Proof.
  split.
  - intros E. destruct (Z.eq_dec z 0) as [|Hz]; [assumption|].
    rewrite (fdiv_inject_Z x z Hz) in E. discriminate.
  - intros ->. apply fdiv_zero.
Qed.

(** ** Arrays *)

Lemma length_array_set {A : Type} (a : list A) (i : nat) (x : A) :
  length (array_set a i x) = length a.
Proof.
  revert i. induction a as [|h t IH]; intros [|j]; simpl; auto.
Qed.

Lemma nth_array_set_same {A : Type} (a : list A) (i : nat) (x d : A) :
  (i < length a)%nat -> nth i (array_set a i x) d = x.
Proof.
  revert i. induction a as [|h t IH]; intros [|j] Hi; simpl in *; try lia.
  - reflexivity.
  - apply IH. lia.
Qed.

Lemma nth_array_set_other {A : Type} (a : list A) (i j : nat) (x d : A) :
  i <> j -> nth j (array_set a i x) d = nth j a d.
Proof.
  revert i j. induction a as [|h t IH]; intros [|i] [|j] Hij; simpl; auto.
  contradiction.
Qed.

Lemma Forall_firstn {A : Type} (P : A -> Prop) (k : nat) (l : list A) :
  Forall P l -> Forall P (firstn k l).
Proof.
  intros HP. revert k. induction HP as [|x l Hx Hl IH]; intros [|k]; cbn; auto.
Qed.

(** ** Backup *)

Section BackupFacts.

Variable kNumIntersections : nat.

Local Open Scope Q_scope.

(** The ownership loop over the indices [s, s+k) succeeds when the divisor is
    not zero, keeps the length, and moves each visited entry by
    [(eval_owner - mean) / d]. *)
Lemma ownership_loop (evals : NodeEvals) (old_visits : Z) (k s : nat) (avg : list Q) :
  (int_add old_visits 1 <> 0)%Z ->
  (s + k <= length avg)%nat ->
  exists avg',
    for_each (seq s k) (update_owner evals old_visits) avg = Some avg'
    /\ length avg' = length avg
    /\ forall idx,
         nth idx avg' 0 =
         if ((s <=? idx) && (idx <? s + k))%nat
         then nth idx avg 0
              + (nth idx (black_ownership evals) 0 - nth idx avg 0)
                / inject_Z (int_add old_visits 1)
         else nth idx avg 0.
Proof.
  intros Hd. revert s avg. induction k as [|k IH]; intros s avg Hlen.
  - exists avg. repeat split.
    intros idx. destruct (s <=? idx)%nat eqn:E1; simpl; [|reflexivity].
    destruct (idx <? s + 0)%nat eqn:E2; [|reflexivity].
    apply Nat.leb_le in E1. apply Nat.ltb_lt in E2. lia.
  - cbn [seq for_each]. unfold update_owner at 1.
    rewrite (fdiv_inject_Z _ _ Hd). cbn [bind].
    set (avg1 := array_set avg s _).
    destruct (IH (S s) avg1) as (avg' & Hrun & Hlen' & Hnth).
    { unfold avg1. rewrite length_array_set. lia. }
    exists avg'. split; [exact Hrun|]. split.
    { rewrite Hlen'. unfold avg1. apply length_array_set. }
    intros idx. rewrite Hnth.
    destruct (Nat.eq_dec idx s) as [->|Hne].
    + replace ((S s <=? s)%nat) with false by (symmetry; apply Nat.leb_gt; lia).
      rewrite Nat.leb_refl.
      replace ((s <? s + S k)%nat) with true by (symmetry; apply Nat.ltb_lt; lia).
      simpl. unfold avg1. apply nth_array_set_same. lia.
    + unfold avg1. rewrite !(nth_array_set_other avg s idx) by congruence.
      destruct (Nat.leb_spec (S s) idx), (Nat.leb_spec s idx),
        (Nat.ltb_spec idx (S s + k)), (Nat.ltb_spec idx (s + S k));
        simpl; try reflexivity; lia.
Qed.

(** One backup step, field by field. *)
Lemma Update_step (evals : NodeEvals) (n : Node) :
  (0 <= visits_ n < INT_MAX)%Z ->
  length (avg_black_ownership_ n) = kNumIntersections ->
  let visits := visits_ n in
  let acc := accumulated_black_wl_ n in
  let eval := black_wl evals in
  let old_delta := if (0 <? visits)%Z then eval - acc / inject_Z visits else 0 in
  let new_delta := eval - (acc + eval) / inject_Z (visits + 1) in
  exists n',
    Update kNumIntersections evals n = Some n'
    /\ visits_ n' = (visits + 1)%Z
    /\ squared_eval_diff_ n' = squared_eval_diff_ n + old_delta * new_delta
    /\ accumulated_black_wl_ n' = acc + eval
    /\ accumulated_draw_ n' = accumulated_draw_ n + draw evals
    /\ accumulated_black_fs_ n' = accumulated_black_fs_ n + black_final_score evals
    /\ length (avg_black_ownership_ n') = kNumIntersections
    /\ (forall idx, (idx < kNumIntersections)%nat ->
          nth idx (avg_black_ownership_ n') 0 =
          nth idx (avg_black_ownership_ n) 0
          + (nth idx (black_ownership evals) 0 - nth idx (avg_black_ownership_ n) 0)
            / inject_Z (visits + 1))
    /\ vertex_ n' = vertex_ n /\ policy_ n' = policy_ n /\ color_ n' = color_ n
    /\ black_wl_ n' = black_wl_ n /\ score_bouns_ n' = score_bouns_ n
    /\ running_threads_ n' = running_threads_ n /\ status_ n' = status_ n
    /\ expand_state_ n' = expand_state_ n /\ children_ n' = children_ n.
Proof.
  intros Hv Hlen visits acc eval old_delta new_delta.
  assert (Hw : int_add (visits_ n) 1 = (visits_ n + 1)%Z).
  { apply wrap_int_small. unfold INT_MIN, INT_MAX in *. lia. }
  assert (Hd : (int_add (visits_ n) 1 <> 0)%Z) by (rewrite Hw; lia).
  destruct (ownership_loop evals (visits_ n) kNumIntersections 0
              (avg_black_ownership_ n) Hd) as (avg' & Hrun & Hlen' & Hnth).
  { lia. }
  assert (Hdelta : WelfordDelta eval acc (visits_ n) = Some (old_delta * new_delta)).
  { unfold WelfordDelta, old_delta, new_delta, visits.
    destruct (0 <? visits_ n)%Z eqn:E.
    - apply Z.ltb_lt in E.
      rewrite (fdiv_inject_Z acc (visits_ n)) by lia. cbn [bind].
      rewrite (fdiv_inject_Z _ _ Hd). cbn [bind]. rewrite Hw. reflexivity.
    - cbn [bind]. rewrite (fdiv_inject_Z _ _ Hd). cbn [bind]. rewrite Hw.
      reflexivity. }
  eexists. split.
  { unfold Update. fold eval. fold acc. rewrite Hdelta. cbn [bind].
    cbn [set_visits set_squared_eval_diff set_accumulated_black_wl
         set_accumulated_draw set_accumulated_black_fs avg_black_ownership_
         visits_ squared_eval_diff_ accumulated_black_wl_ accumulated_draw_
         accumulated_black_fs_].
    rewrite Hrun. cbn [bind]. reflexivity. }
  cbn. rewrite Hw. repeat split; try reflexivity.
  - congruence.
  - intros idx Hidx. rewrite Hnth.
    replace ((0 <=? idx)%nat) with true by (symmetry; apply Nat.leb_le; lia).
    replace ((idx <? 0 + kNumIntersections)%nat) with true
      by (symmetry; apply Nat.ltb_lt; lia).
    simpl. rewrite Hw. reflexivity.
Qed.

(** C3. One call of [Update] on a node whose counter is in range: [visits]
    grows by exactly one, [squared_eval_diff] by [old_delta * new_delta],
    each accumulator by its value, every ownership mean by
    [(eval_owner - mean) / (visits + 1)], and nothing else changes. *)
Theorem Update_spec (evals : NodeEvals) (n : Node) :
  (0 <= visits_ n < INT_MAX)%Z ->
  length (avg_black_ownership_ n) = kNumIntersections ->
  let visits := visits_ n in
  let acc := accumulated_black_wl_ n in
  let eval := black_wl evals in
  let old_delta := if (0 <? visits)%Z then eval - acc / inject_Z visits else 0 in
  let new_delta := eval - (acc + eval) / inject_Z (visits + 1) in
  exists n',
    Update kNumIntersections evals n = Some n'
    /\ visits_ n' = (visits + 1)%Z
    /\ squared_eval_diff_ n' = squared_eval_diff_ n + old_delta * new_delta
    /\ accumulated_black_wl_ n' = acc + eval
    /\ accumulated_draw_ n' = accumulated_draw_ n + draw evals
    /\ accumulated_black_fs_ n' = accumulated_black_fs_ n + black_final_score evals
    /\ length (avg_black_ownership_ n') = kNumIntersections
    /\ (forall idx, (idx < kNumIntersections)%nat ->
          nth idx (avg_black_ownership_ n') 0 =
          nth idx (avg_black_ownership_ n) 0
          + (nth idx (black_ownership evals) 0 - nth idx (avg_black_ownership_ n) 0)
            / inject_Z (visits + 1))
    /\ vertex_ n' = vertex_ n /\ policy_ n' = policy_ n /\ color_ n' = color_ n
    /\ black_wl_ n' = black_wl_ n /\ score_bouns_ n' = score_bouns_ n
    /\ running_threads_ n' = running_threads_ n /\ status_ n' = status_ n
    /\ expand_state_ n' = expand_state_ n /\ children_ n' = children_ n.
Proof. exact (Update_step evals n). Qed.

(** The invariant that a backup keeps: the counter is a count, the ownership
    array has its size, and the accumulators of the values that lie in
    [0, 1] are bounded by the counter. *)
Lemma UpdateAll_invariant (es : list NodeEvals) : forall (n : Node) (B : Q),
  (0 <= visits_ n)%Z ->
  (visits_ n + Z.of_nat (length es) <= INT_MAX)%Z ->
  length (avg_black_ownership_ n) = kNumIntersections ->
  Forall evals_in_unit_range es ->
  exists n',
    UpdateAll kNumIntersections es n = Some n'
    /\ visits_ n' = (visits_ n + Z.of_nat (length es))%Z
    /\ (Qabs (accumulated_black_wl_ n) <= inject_Z (visits_ n) ->
        Qabs (accumulated_black_wl_ n') <= inject_Z (visits_ n'))
    /\ (Qabs (accumulated_draw_ n) <= inject_Z (visits_ n) ->
        Qabs (accumulated_draw_ n') <= inject_Z (visits_ n'))
    /\ (Forall (score_within B) es ->
        Qabs (accumulated_black_fs_ n) <= B * inject_Z (visits_ n) ->
        Qabs (accumulated_black_fs_ n') <= B * inject_Z (visits_ n')).
Proof.
  induction es as [|e es IH]; intros n B Hv Hmax Hlen Hrange.
  - exists n. cbn [UpdateAll length Z.of_nat]. rewrite Z.add_0_r. tauto.
  - cbn [length] in Hmax. rewrite Nat2Z.inj_succ in Hmax.
    destruct (Update_step e n) as
      (n1 & Hup & Hv1 & _ & Hwl & Hdr & Hfs & Hlen1 & _); [lia | exact Hlen |].
    inversion Hrange as [|? ? (Hewl & Hedr) Hrest]; subst.
    destruct (IH n1 B) as (n' & Hrun & Hv' & Hbwl & Hbdr & Hbfs);
      [lia | lia | exact Hlen1 | exact Hrest |].
    exists n'. cbn [UpdateAll]. rewrite Hup. cbn [bind].
    split; [exact Hrun|]. split.
    { rewrite Hv', Hv1. cbn [length]. lia. }
    assert (Hinj : inject_Z (visits_ n1) == inject_Z (visits_ n) + 1).
    { rewrite Hv1, inject_Z_plus. reflexivity. }
    split; [|split].
    + intros H0. apply Hbwl. rewrite Hwl, Hinj.
      apply Qabs_Qle_condition in H0. apply Qabs_Qle_condition. lra.
    + intros H0. apply Hbdr. rewrite Hdr, Hinj.
      apply Qabs_Qle_condition in H0. apply Qabs_Qle_condition. lra.
    + intros HB H0. inversion HB as [|? ? HeB HrestB]; subst.
      apply Hbfs; [exact HrestB|]. rewrite Hfs, Hinj.
      unfold score_within in HeB.
      apply Qabs_Qle_condition in H0. apply Qabs_Qle_condition in HeB.
      apply Qabs_Qle_condition. lra.
Qed.

(** C4, as amended.  After any number [k] of the [Update] calls of a backup
    sequence whose win-loss and draw values lie in [0, 1], a node that
    started fresh has [visits = k] (so the counter never decreases) and
    [|accumulated_black_wl| <= visits], [|accumulated_draw| <= visits]; the
    final-score accumulator is bounded by [B * visits] when every per-call
    final score is bounded by [B]. *)
Theorem UpdateAll_bounds (es : list NodeEvals) (vertex : Z) (policy : Q) (k : nat) :
  (Z.of_nat (length es) <= INT_MAX)%Z ->
  Forall evals_in_unit_range es ->
  (k <= length es)%nat ->
  exists n',
    UpdateAll kNumIntersections (firstn k es)
      (new_Node kNumIntersections vertex policy) = Some n'
    /\ visits_ n' = Z.of_nat k
    /\ Qabs (accumulated_black_wl_ n') <= inject_Z (visits_ n')
    /\ Qabs (accumulated_draw_ n') <= inject_Z (visits_ n')
    /\ forall B, Forall (score_within B) es ->
         Qabs (accumulated_black_fs_ n') <= B * inject_Z (visits_ n').
Proof.
  intros Hmax Hrange Hk.
  assert (Hlenk : length (firstn k es) = k) by (apply firstn_length_le; exact Hk).
  assert (Hfresh : forall B,
    exists n',
      UpdateAll kNumIntersections (firstn k es)
        (new_Node kNumIntersections vertex policy) = Some n'
      /\ visits_ n' = Z.of_nat k
      /\ Qabs (accumulated_black_wl_ n') <= inject_Z (visits_ n')
      /\ Qabs (accumulated_draw_ n') <= inject_Z (visits_ n')
      /\ (Forall (score_within B) es ->
          Qabs (accumulated_black_fs_ n') <= B * inject_Z (visits_ n'))).
  { intros B.
    destruct (UpdateAll_invariant (firstn k es)
                (new_Node kNumIntersections vertex policy) B)
      as (n' & Hrun & Hv & Hwl & Hdr & Hfs).
    - cbn. lia.
    - rewrite Hlenk. cbn. lia.
    - cbn. apply repeat_length.
    - apply Forall_firstn, Hrange.
    - exists n'. rewrite Hlenk in Hv. cbn in Hv.
      split; [exact Hrun|]. split; [exact Hv|].
      split; [apply Hwl; cbn; apply Qle_refl|].
      split; [apply Hdr; cbn; apply Qle_refl|].
      intros HB. apply Hfs.
      + apply Forall_firstn, HB.
      + cbn. rewrite Qmult_0_r. apply Qle_refl. }
  destruct (Hfresh 0) as (n' & Hrun & Hv & Hwl & Hdr & _).
  exists n'. repeat (split; [assumption|]).
  intros B HB. destruct (Hfresh B) as (n2 & Hrun2 & _ & _ & _ & Hfs).
  rewrite Hrun in Hrun2. injection Hrun2 as <-. apply Hfs, HB.
Qed.

End BackupFacts.

(** C4, the bound on the final-score accumulator fails: one backup of a
    final score of ten points leaves [|accumulated_black_fs| = 10] on a node with one visit. *)
Lemma UpdateAll_final_score_exceeds_visits :
  let e := mkNodeEvals (1 # 2) 0 10 [0; 0]%Q in
  evals_in_unit_range e
  /\ exists n',
       UpdateAll 2 [e] (new_Node 2 0 (1 # 2)) = Some n'
       /\ visits_ n' = 1%Z
       /\ ~ (Qabs (accumulated_black_fs_ n') <= inject_Z (visits_ n'))%Q.
Proof.
  cbv zeta. split.
  - unfold evals_in_unit_range. cbn. lra.
  - eexists. split; [vm_compute; reflexivity|]. split; [reflexivity|].
    intros Hle. vm_compute in Hle. apply Hle. reflexivity.
Qed.

(** ** Statistics readers *)

Section ReaderFacts.

Local Open Scope Q_scope.

Lemma GetVirtualLoss_in_range (n : Node) :
  (0 <= running_threads_ n)%Z ->
  (3 * running_threads_ n <= INT_MAX)%Z ->
  GetVirtualLoss n = (3 * running_threads_ n)%Z.
Proof.
  intros H0 H1. unfold GetVirtualLoss, VIRTUAL_LOSS_COUNT, int_mul.
  apply wrap_int_small. unfold INT_MIN, INT_MAX in *. lia.
Qed.

Lemma bind_Some {A : Type} (m : option A) : (x <- m ;; Some x) = m.
Proof. destruct m; reflexivity. Qed.

Lemma bind_option_map {A B : Type} (f : A -> B) (m : option A) :
  (x <- m ;; Some (f x)) = option_map f m.
Proof. destruct m; reflexivity. Qed.

Lemma oQeq_fdiv (x x' : Q) (y : Q) (f : Q -> Q) :
  x == x' -> (forall a b, a == b -> f a == f b) ->
  oQeq (option_map f (fdiv x y)) (option_map f (fdiv x' y)).
Proof.
  intros Hx Hf. unfold fdiv. destruct (Qeq_bool y 0); cbn; [exact I|].
  apply Hf. rewrite Hx. reflexivity.
Qed.

(** C7. With virtual loss, [GetWL] divides by [visits + 3 * running_threads]
    and adds [3 * running_threads] to the accumulator exactly for White;
    without virtual loss, or with no running thread, Black reads
    [accumulated_black_wl / visits] and White one minus that. *)
Theorem GetWL_virtual_loss (n : Node) :
  (0 <= visits_ n)%Z ->
  (0 <= running_threads_ n)%Z ->
  (visits_ n + 3 * running_threads_ n <= INT_MAX)%Z ->
  let acc := accumulated_black_wl_ n in
  let visits := visits_ n in
  let virtual_loss := (3 * running_threads_ n)%Z in
  GetVirtualLoss n = virtual_loss
  /\ GetWL n kBlack true = fdiv acc (inject_Z (visits + virtual_loss))
  /\ GetWL n kWhite true =
     option_map (fun eval => 1 - eval)
       (fdiv (acc + inject_Z virtual_loss) (inject_Z (visits + virtual_loss)))
  /\ (forall color, color <> kBlack -> color <> kWhite ->
        GetWL n color true =
        option_map (fun eval => 1 - eval) (fdiv acc (inject_Z (visits + virtual_loss))))
  /\ GetWL n kBlack false = fdiv acc (inject_Z visits)
  /\ GetWL n kWhite false = option_map (fun eval => 1 - eval) (fdiv acc (inject_Z visits))
  /\ (running_threads_ n = 0%Z ->
        oQeq (GetWL n kBlack true) (fdiv acc (inject_Z visits))
        /\ oQeq (GetWL n kWhite true)
             (option_map (fun eval => 1 - eval) (fdiv acc (inject_Z visits))))
  /\ ((0 < visits)%Z ->
        GetWL n kBlack false = Some (acc / inject_Z visits)
        /\ GetWL n kWhite false = Some (1 - acc / inject_Z visits)).
Proof.
  intros Hv Ht Hmax acc visits virtual_loss.
  assert (Hvl : GetVirtualLoss n = virtual_loss).
  { apply GetVirtualLoss_in_range; [exact Ht|]. lia. }
  assert (Hsum : int_add (visits_ n) virtual_loss = (visits + virtual_loss)%Z).
  { apply wrap_int_small. unfold INT_MIN, INT_MAX, virtual_loss, visits in *. lia. }
  assert (Hsum0 : int_add (visits_ n) 0 = visits).
  { unfold int_add. rewrite Z.add_0_r. apply wrap_int_small.
    unfold INT_MIN, INT_MAX, visits in *. lia. }
  assert (Hb : GetWL n kBlack true = fdiv acc (inject_Z (visits + virtual_loss))).
  { unfold GetWL, GetVisits. rewrite Hvl, Hsum. cbn. apply bind_Some. }
  assert (Hw : GetWL n kWhite true =
               option_map (fun eval => 1 - eval)
                 (fdiv (acc + inject_Z virtual_loss) (inject_Z (visits + virtual_loss)))).
  { unfold GetWL, GetVisits. rewrite Hvl, Hsum. cbn.
    apply (bind_option_map (fun eval => 1 - eval)). }
  assert (Hb0 : GetWL n kBlack false = fdiv acc (inject_Z visits)).
  { unfold GetWL, GetVisits. rewrite Hsum0. cbn. apply bind_Some. }
  assert (Hw0 : GetWL n kWhite false =
                option_map (fun eval => 1 - eval) (fdiv acc (inject_Z visits))).
  { unfold GetWL, GetVisits. rewrite Hsum0. cbn.
    apply (bind_option_map (fun eval => 1 - eval)). }
  repeat split; try assumption.
  - intros color Hnb Hnw. unfold GetWL, GetVisits. rewrite Hvl, Hsum.
    destruct color; try contradiction; cbn;
      apply (bind_option_map (fun eval => 1 - eval)).
  - rewrite Hb. unfold virtual_loss. rewrite H. rewrite Z.mul_0_r, Z.add_0_r.
    destruct (fdiv acc (inject_Z visits)); cbn; [reflexivity | exact I].
  - rewrite Hw. unfold virtual_loss. rewrite H. rewrite Z.mul_0_r, Z.add_0_r.
    apply oQeq_fdiv.
    + unfold inject_Z. ring.
    + intros a b Hab. rewrite Hab. reflexivity.
  - rewrite Hb0. apply fdiv_inject_Z. lia.
  - rewrite Hw0. rewrite fdiv_inject_Z by lia. reflexivity.
Qed.

(** C9. [GetFinalScore] and [GetDraw] divide by [GetVisits()] unguarded: they
    have a value exactly when [visits] is not zero, and none on a node that
    was just created or just inflated and never backed up. *)
Theorem readers_divide_by_visits (n : Node) (color : Color) :
  (GetFinalScore n color = None <-> visits_ n = 0%Z)
  /\ (GetDraw n = None <-> visits_ n = 0%Z)
  /\ (visits_ n <> 0%Z <->
      GetFinalScore n color =
      Some (if Color_eqb color kBlack
            then accumulated_black_fs_ n / inject_Z (visits_ n)
            else 0 - accumulated_black_fs_ n / inject_Z (visits_ n))
      /\ GetDraw n = Some (accumulated_draw_ n / inject_Z (visits_ n)))
  /\ (forall kNumIntersections vertex policy,
        GetFinalScore (new_Node kNumIntersections vertex policy) color = None
        /\ GetDraw (new_Node kNumIntersections vertex policy) = None)
  /\ (forall kNumIntersections (child : Edge),
        edge_node child = None ->
        exists node,
          edge_node (Inflate kNumIntersections child) = Some node
          /\ visits_ node = 0%Z
          /\ GetFinalScore node color = None
          /\ GetDraw node = None).
Proof.
  assert (Hfs : GetFinalScore n color = None <-> visits_ n = 0%Z).
  { unfold GetFinalScore, GetVisits. split.
    - intros E. apply (fdiv_inject_Z_None (accumulated_black_fs_ n)).
      destruct (fdiv _ _); [|reflexivity].
      cbn in E. destruct (Color_eqb color kBlack); discriminate.
    - intros ->. reflexivity. }
  assert (Hdr : GetDraw n = None <-> visits_ n = 0%Z).
  { unfold GetDraw, GetVisits. apply fdiv_inject_Z_None. }
  split; [exact Hfs|]. split; [exact Hdr|]. split; [|split].
  - split.
    + intros Hv. unfold GetFinalScore, GetDraw, GetVisits.
      rewrite !fdiv_inject_Z by exact Hv. cbn.
      destruct (Color_eqb color kBlack); split; reflexivity.
    + intros [_ E] Hv. apply Hdr in Hv. congruence.
  - intros. split; reflexivity.
  - intros kNumIntersections child Hnull. unfold Inflate. rewrite Hnull.
    eexists. cbn. repeat split.
Qed.

End ReaderFacts.

(** ** The lower confidence bound *)

Section LcbFacts.

Variables fsqrt flog fexp : Q -> Q.

(** The square root of the C++ library is never negative. *)
Hypothesis fsqrt_nonneg : forall x, (0 <= fsqrt x)%Q.

Local Open Scope Q_scope.



Lemma Qltb_true (a b : Q) : Qltb a b = true <-> a < b.
Proof.
  unfold Qltb. rewrite negb_true_iff, <- not_true_iff_false, Qle_bool_iff.
  split; [apply Qnot_le_lt | apply Qlt_not_le].
Qed.

Lemma Qltb_false (a b : Q) : Qltb a b = false <-> b <= a.
Proof.
  unfold Qltb. rewrite negb_false_iff, Qle_bool_iff. reflexivity.
Qed.





End LcbFacts.

(** ** The KL divergence of the visit distribution *)

Lemma wrap_int_idem (a : Z) : wrap_int (wrap_int a) = wrap_int a.
Proof.
  pose proof (wrap_int_idem_add a 0) as E. rewrite !Z.add_0_r in E. exact E.
Qed.

Section KlFacts.

Variable flog : Q -> Q.
Variable GetBestMove : Node -> option (Z * Node).

(** What the loop over the children gathers, from a pair whose first
    component is an [int]. *)
Lemma gather_visits_from (vtx : Z) (children : list Edge) : forall p b,
  wrap_int p = p ->
  fold_left (Kl.visit_child vtx) children (p, b) =
  (wrap_int (p + sum_active_visits children),
   fold_left
     (fun best child =>
        match edge_node child with
        | Some node =>
            if IsActive node && (vertex_ node =? vtx) then visits_ node else best
        | None => best
        end)
     children b).
Proof.
  induction children as [|child rest IH]; intros p b Hp.
  - cbn. rewrite Z.add_0_r, Hp. reflexivity.
  - cbn [fold_left]. unfold Kl.visit_child at 2.
    unfold sum_active_visits, active_visits. cbn [flat_map].
    fold (active_visits rest).
    destruct (edge_node child) as [node|] eqn:En.
    + unfold GetVisits, GetVertex. destruct (IsActive node) eqn:Ea.
      * cbn [andb app fold_right]. fold (sum_active_visits rest).
        rewrite IH by apply wrap_int_idem.
        f_equal.
        unfold int_add. rewrite wrap_int_idem_add. f_equal. ring.
      * cbn [andb app]. fold (sum_active_visits rest). apply IH, Hp.
    + cbn [app]. fold (sum_active_visits rest). apply IH, Hp.
Qed.

Lemma gather_visits_spec (vtx : Z) (children : list Edge) :
  Kl.gather_visits vtx children =
  (wrap_int (sum_active_visits children), best_visits_of vtx children).
Proof.
  unfold Kl.gather_visits. rewrite gather_visits_from by reflexivity.
  reflexivity.
Qed.

(** When no visit count is negative and their sum is an [int], a zero sum
    leaves no visit to the best move either. *)
Lemma best_visits_zero (vtx : Z) (children : list Edge) :
  Forall (fun v => 0 <= v) (active_visits children) ->
  sum_active_visits children = 0 ->
  best_visits_of vtx children = 0.
Proof.
  unfold best_visits_of, sum_active_visits.
  assert (Hgen : forall b, b = 0 ->
    Forall (fun v => 0 <= v) (active_visits children) ->
    fold_right Z.add 0 (active_visits children) = 0 ->
    fold_left
      (fun best child =>
         match edge_node child with
         | Some node =>
             if IsActive node && (vertex_ node =? vtx) then visits_ node else best
         | None => best
         end) children b = 0).
  { induction children as [|child rest IH]; intros b Hb Hpos Hsum.
    - exact Hb.
    - cbn [fold_left]. unfold active_visits in Hpos, Hsum.
      cbn [flat_map] in Hpos, Hsum. fold (active_visits rest) in Hpos, Hsum.
      destruct (edge_node child) as [node|].
      + destruct (IsActive node).
        * cbn [app fold_right] in Hpos, Hsum.
          inversion Hpos as [|? ? Hv Hrest]; subst.
          assert (0 <= fold_right Z.add 0 (active_visits rest)).
          { clear -Hrest. induction Hrest; cbn; lia. }
          apply IH; [|exact Hrest|lia].
          cbn [andb]. destruct (vertex_ node =? vtx); lia.
        * cbn [andb]. apply IH; assumption.
      + apply IH; assumption. }
  intros Hpos Hsum. apply Hgen; auto.
Qed.

(** C10, as amended.  With [parentvisits] the (wrapped) sum of the visits of
    the inflated active children and [best_visits] the visits of the best
    move among them: the result is 0 whenever the two are equal, which
    includes a zero sum; it is -1 when they differ and one of them is zero;
    and [-log(best_visits / parentvisits)] otherwise. *)
Theorem ComputeKlDivergence_cases (n n' : Node) (vtx : Z) :
  GetBestMove n = Some (vtx, n') ->
  let parentvisits := wrap_int (sum_active_visits (children_ n')) in
  let best_visits := best_visits_of vtx (children_ n') in
  (parentvisits = best_visits ->
     Kl.ComputeKlDivergence flog GetBestMove n = Some 0%Q)
  /\ (parentvisits <> best_visits -> parentvisits = 0 \/ best_visits = 0 ->
        Kl.ComputeKlDivergence flog GetBestMove n = Some (- (1))%Q)
  /\ (parentvisits <> best_visits -> parentvisits <> 0 -> best_visits <> 0 ->
        Kl.ComputeKlDivergence flog GetBestMove n =
        Some (- flog (inject_Z best_visits / inject_Z parentvisits))%Q)
  /\ (Forall (fun v => 0 <= v) (active_visits (children_ n')) ->
      sum_active_visits (children_ n') = 0 ->
      Kl.ComputeKlDivergence flog GetBestMove n = Some 0%Q).
Proof.
  intros Hbest parentvisits best_visits.
  assert (Hrun : Kl.ComputeKlDivergence flog GetBestMove n =
    if parentvisits =? best_visits then Some 0%Q
    else if (parentvisits =? 0) || (best_visits =? 0) then Some (- (1))%Q
    else
      q <- fdiv (inject_Z best_visits) (inject_Z parentvisits) ;;
      Some (- flog q)%Q).
  { unfold Kl.ComputeKlDivergence. rewrite Hbest. cbn [bind].
    rewrite gather_visits_spec. reflexivity. }
  assert (Heq : parentvisits = best_visits ->
                Kl.ComputeKlDivergence flog GetBestMove n = Some 0%Q).
  { intros E. rewrite Hrun. rewrite (proj2 (Z.eqb_eq _ _) E). reflexivity. }
  split; [exact Heq|]. split; [|split].
  - intros Hne Hz. rewrite Hrun.
    rewrite (proj2 (Z.eqb_neq _ _) Hne).
    destruct Hz as [-> | ->]; [reflexivity|].
    rewrite orb_true_r. reflexivity.
  - intros Hne Hp Hb. rewrite Hrun.
    rewrite (proj2 (Z.eqb_neq _ _) Hne).
    rewrite (proj2 (Z.eqb_neq _ _) Hp), (proj2 (Z.eqb_neq _ _) Hb).
    cbn [orb]. rewrite fdiv_inject_Z by exact Hp. reflexivity.
  - intros Hpos Hsum. apply Heq. unfold parentvisits, best_visits.
    rewrite (best_visits_zero vtx _ Hpos Hsum), Hsum. reflexivity.
Qed.

End KlFacts.

(** C10, a zero sum does not give -1: on an expanded root whose only child
    was inflated and never visited, [GetBestMove] finds no visited child and
    falls back to the child with the best prior, vertex 5; the sum of the
    visits is zero, and the result is 0. *)
Lemma ComputeKlDivergence_zero_sum :
  Fixture.best_move Fixture.unvisited_root = Some (5, Fixture.unvisited_root)
  /\ sum_active_visits (children_ Fixture.unvisited_root) = 0
  /\ best_visits_of 5 (children_ Fixture.unvisited_root) = 0
  /\ Kl.ComputeKlDivergence (fun q => q) Fixture.best_move Fixture.unvisited_root
     = Some 0%Q
  /\ Kl.ComputeKlDivergence (fun q => q) Fixture.best_move Fixture.unvisited_root
     <> Some (- (1))%Q.
Proof.
  split; [vm_compute; reflexivity|]. split; [reflexivity|]. split; [reflexivity|].
  split; [vm_compute; reflexivity|]. vm_compute. discriminate.
Qed.

(** ** Superko pruning at the root *)

Section RootFacts.

Context {Board : Type} `{Collaborators Board}.

Lemma mark_superkos_spec (state : GameState Board) (children : list Edge) :
  children_ready children ->
  exists marked,
    mark_superkos state children = Some marked
    /\ Forall2 (marked_as state) children marked
    /\ erase_invalid marked =
       Some (filter (fun child => negb (is_superko_move state child)) children).
Proof.
  induction 1 as [|child rest (node & Hnode & Hvalid) Hrest IH].
  - exists []. repeat split. constructor.
  - destruct IH as (marked & Hmark & Hall & Herase).
    cbn [mark_superkos]. unfold mark_superko at 1.
    fold (is_superko_move state child).
    destruct (is_superko_move state child) eqn:Ek.
    + rewrite Hnode. cbn [bind]. rewrite Hmark. cbn [bind].
      eexists. split; [reflexivity|]. split.
      * constructor; [|exact Hall]. unfold marked_as. rewrite Ek. cbn.
        repeat split. exists node. split; [exact Hnode|].
        unfold Invalidate. rewrite Hvalid. reflexivity.
      * cbn [erase_invalid edge_node bind]. rewrite Herase. cbn [bind filter].
        rewrite Ek. cbn [negb].
        unfold Invalidate. rewrite Hvalid. reflexivity.
    + cbn [bind]. rewrite Hmark. cbn [bind].
      eexists. split; [reflexivity|]. split.
      * constructor; [|exact Hall]. unfold marked_as. rewrite Ek. auto.
      * cbn [erase_invalid]. rewrite Hnode. cbn [bind]. rewrite Herase.
        cbn [bind filter]. rewrite Ek, Hvalid. reflexivity.
Qed.

(** After [InflateAllChildren] every child is inflated; the children are
    ready when none of the nodes that existed before was invalid. *)
Lemma InflateAllChildren_ready (kNumIntersections : nat) (n : Node) :
  (forall child node,
     In child (children_ n) -> edge_node child = Some node -> IsValid node = true) ->
  children_ready (children_ (InflateAllChildren kNumIntersections n))
  /\ map edge_vertex (children_ (InflateAllChildren kNumIntersections n))
     = map edge_vertex (children_ n).
Proof.
  intros Hvalid. unfold InflateAllChildren, children_ready.
  cbn [set_children children_]. split.
  - apply Forall_forall. intros child Hchild. apply in_map_iff in Hchild.
    destruct Hchild as (child0 & <- & Hin). unfold Inflate.
    destruct (edge_node child0) as [node|] eqn:En.
    + exists node. split; [exact En | exact (Hvalid child0 node Hin En)].
    + eexists. split; reflexivity.
  - rewrite map_map. apply map_ext. intros child. unfold Inflate.
    destruct (edge_node child); reflexivity.
Qed.

(** C8. On a root whose children are all inflated and valid,
    [KillRootSuperkos] marks exactly the non-pass children whose move repeats
    a position and erases them: the children that stay are the others, in
    their order, and the list is shorter by the number [k] of those moves. *)
Theorem KillRootSuperkos_spec (state : GameState Board) (n : Node) (k : nat) :
  children_ready (children_ n) ->
  length (filter (is_superko_move state) (children_ n)) = k ->
  exists marked n',
    mark_superkos state (children_ n) = Some marked
    /\ Forall2 (marked_as state) (children_ n) marked
    /\ KillRootSuperkos state n = Some n'
    /\ n' = set_children n
              (filter (fun child => negb (is_superko_move state child)) (children_ n))
    /\ (length (children_ n') + k = length (children_ n))%nat
    /\ (forall child, In child (children_ n') <->
          In child (children_ n) /\ is_superko_move state child = false).
Proof.
  intros Hready Hk.
  destruct (mark_superkos_spec state (children_ n) Hready)
    as (marked & Hmark & Hall & Herase).
  exists marked. eexists. split; [exact Hmark|]. split; [exact Hall|].
  split.
  { unfold KillRootSuperkos. rewrite Hmark. cbn [bind]. rewrite Herase.
    cbn [bind]. reflexivity. }
  split; [reflexivity|]. split.
  - cbn [set_children children_]. rewrite <- Hk.
    generalize (children_ n). intros l. induction l as [|c l IH]; cbn; [reflexivity|].
    destruct (is_superko_move state c); cbn; lia.
  - intros child. cbn [set_children children_]. rewrite filter_In.
    rewrite negb_true_iff. reflexivity.
Qed.

End RootFacts.

(** ** Expansion *)

Lemma insert_sorted_perm (x : Q * Z) (l : list (Q * Z)) :
  Permutation (insert_sorted x l) (x :: l).
Proof.
  induction l as [|y rest IH]; cbn.
  - apply Permutation_refl.
  - destruct (pair_lt y x).
    + apply perm_trans with (y :: x :: rest).
      * apply perm_skip, IH.
      * apply perm_swap.
    + apply Permutation_refl.
Qed.

Lemma stable_sort_perm (l : list (Q * Z)) : Permutation (stable_sort l) l.
Proof.
  induction l as [|x rest IH]; cbn.
  - apply perm_nil.
  - apply perm_trans with (x :: stable_sort rest).
    + apply insert_sorted_perm.
    + apply perm_skip, IH.
Qed.

Lemma stable_sort_reversed_perm (l : list (Q * Z)) :
  Permutation (stable_sort_reversed l) l.
Proof.
  unfold stable_sort_reversed.
  apply perm_trans with (stable_sort (rev l)).
  - apply Permutation_sym, Permutation_rev.
  - apply perm_trans with (rev l).
    + apply stable_sort_perm.
    + apply Permutation_sym, Permutation_rev.
Qed.

Lemma sum_prior_cons (x : Q * Z) (l : list (Q * Z)) :
  sum_prior (x :: l) = (fst x + sum_prior l)%Q.
Proof. reflexivity. Qed.


Lemma sum_prior_app (l : list (Q * Z)) (x : Q * Z) :
  (sum_prior (l ++ [x]) == sum_prior l + fst x)%Q.
Proof.
  induction l as [|y rest IH].
  - cbn [app]. rewrite sum_prior_cons. unfold sum_prior. cbn [fold_right]. ring.
  - cbn [app]. rewrite !sum_prior_cons, IH. ring.
Qed.


Lemma existsb_perm {A : Type} (f : A -> bool) (l l' : list A) :
  Permutation l l' -> existsb f l = existsb f l'.
Proof.
  induction 1 as [| x l l' _ IH | x y l | l l' l'' _ IH1 _ IH2]; cbn.
  - reflexivity.
  - rewrite IH. reflexivity.
  - destruct (f x), (f y); reflexivity.
  - congruence.
Qed.

Lemma for_loop_invariant {S : Type} (P : S -> Prop) (idxs : list nat)
    (body : nat -> S -> S) (s : S) :
  P s ->
  (forall i s', In i idxs -> P s' -> P (body i s')) ->
  P (for_loop idxs body s).
Proof.
  unfold for_loop. revert s. induction idxs as [|i rest IH]; intros s Hs Hstep.
  - exact Hs.
  - cbn [fold_left]. apply IH.
    + apply Hstep; [left; reflexivity | exact Hs].
    + intros j s' Hj. apply Hstep. right. exact Hj.
Qed.

(** The renormalisation: what [map_policy] returns when [f] has a value on
    every prior. *)
Lemma map_policy_spec (f : Q -> option Q) (g : Q -> Q) (l : list (Q * Z)) :
  (forall node, In node l -> f (fst node) = Some (g (fst node))) ->
  map_policy f l = Some (map (fun node => (g (fst node), snd node)) l).
Proof.
  induction l as [|x rest IH]; intros Hf; cbn.
  - reflexivity.
  - rewrite (Hf x) by (left; reflexivity). cbn [bind].
    rewrite IH by (intros node Hn; apply Hf; right; exact Hn).
    reflexivity.
Qed.

Lemma sum_prior_scaled (c : Q) (l : list (Q * Z)) :
  (sum_prior (map (fun node => (fst node / c, snd node)) l) == sum_prior l / c)%Q.
Proof.
  induction l as [|x rest IH].
  - unfold sum_prior. cbn [map fold_right]. unfold Qdiv. ring.
  - cbn [map]. rewrite !sum_prior_cons, IH. cbn [fst]. unfold Qdiv. ring.
Qed.

Lemma sum_prior_const (c : Q) (l : list (Q * Z)) :
  (sum_prior (map (fun node => (c, snd node)) l)
   == c * inject_Z (Z.of_nat (length l)))%Q.
Proof.
  induction l as [|x rest IH].
  - unfold sum_prior. cbn [map fold_right length Z.of_nat].
    unfold inject_Z. ring.
  - cbn [map length]. rewrite sum_prior_cons, IH, Nat2Z.inj_succ. cbn [fst].
    unfold Z.succ. rewrite inject_Z_plus. unfold inject_Z at 3. ring.
Qed.

Lemma normalize_spec (nodelist : list (Q * Z)) (total : Q) :
  nodelist <> [] ->
  exists normalized,
    normalize nodelist total = Some normalized
    /\ map snd normalized = map snd nodelist
    /\ ((total < 1 # 100000000)%Q -> (sum_prior normalized == 1)%Q)
    /\ ((1 # 100000000 <= total)%Q ->
        (sum_prior normalized == sum_prior nodelist / total)%Q).
Proof.
  intros Hne. unfold normalize.
  destruct (Qltb total (1 # 100000000)) eqn:E.
  - apply Qltb_true in E.
    assert (Hlen : Z.of_nat (length nodelist) <> 0).
    { destruct nodelist; [contradiction | cbn [length]; lia]. }
    rewrite (map_policy_spec _
               (fun _ => (1 / inject_Z (Z.of_nat (length nodelist)))%Q)).
    2:{ intros node _. apply fdiv_inject_Z, Hlen. }
    eexists. split; [reflexivity|]. split.
    { rewrite map_map. reflexivity. }
    split.
    + intros _. rewrite sum_prior_const. field.
      apply inject_Z_nonzero, Hlen.
    + intros Hge. lra.
  - apply Qltb_false in E.
    rewrite (map_policy_spec _ (fun p => (p / total)%Q)).
    2:{ intros node _. apply fdiv_nonzero. lra. }
    eexists. split; [reflexivity|]. split.
    { rewrite map_map. reflexivity. }
    split.
    + intros Hlt. lra.
    + intros _. apply sum_prior_scaled.
Qed.

Section ExpansionFacts.

Context {Board : Type} `{Collaborators Board}.
Variable kNumIntersections : nat.
Variable param_ : Parameters.
Variable network_GetOutput : GameState Board -> Q -> NetworkResult.
Variable config_IsLegal : Z -> Color -> Z -> bool.
Variable GetBlackRolloutResult : GameState Board -> list Q -> Q * Q * list Q.

Local Abbreviation Expand :=
  (ExpandChildren kNumIntersections param_ network_GetOutput config_IsLegal
     GetBlackRolloutResult).
Local Abbreviation NetOutput :=
  (ApplyNetOutput kNumIntersections param_ GetBlackRolloutResult).
Local Abbreviation candidates_of := (gather_candidates param_ config_IsLegal).
Local Abbreviation result_of :=
  (expansion_result kNumIntersections param_ network_GetOutput).

(** [ApplyNetOutput] writes the network value and clears the ownership
    means; the rest of the node stays. *)
Lemma ApplyNetOutput_frame (state : GameState Board) (raw : NetworkResult)
    (evals : NodeEvals) (color : Color) (n : Node) :
  let n' := fst (NetOutput state raw evals color n) in
  children_ n' = children_ n /\ color_ n' = color_ n
  /\ expand_state_ n' = expand_state_ n /\ visits_ n' = visits_ n
  /\ status_ n' = status_ n.
Proof.
  unfold ApplyNetOutput.
  destruct (wdl raw) as [[wdl0 wdl1] wdl2].
  destruct (for_loop _ _ _) as [own avg].
  destruct (use_rollout param_ || no_dcnn param_).
  - destruct (GetBlackRolloutResult state own) as [[res score] own'].
    destruct (no_dcnn param_); cbn; auto.
  - cbn; auto.
Qed.

(** What a successful expansion went through. *)
Lemma ExpandChildren_steps (state : GameState Board) (evals : NodeEvals)
    (is_root : bool) (n n' : Node) (evals' : NodeEvals) :
  Expand state evals is_root n = Some (true, n', evals') ->
  HaveChildren n = false
  /\ expand_state_ n = ExpandState.kInitial
  /\ expand_state_ n' = ExpandState.kExpanded
  /\ color_ n' = Game.GetToMove state
  /\ exists raw candidates legal hashes nodelist total normalized,
       result_of state is_root = Some raw
       /\ candidates_of state (Game.GetToMove state) raw = (candidates, legal, hashes)
       /\ add_pass (Game.GetNumIntersections state) raw candidates legal = (nodelist, total)
       /\ normalize nodelist total = Some normalized
       /\ children_ n' =
          children_ n
          ++ map (fun node => mkEdge (to_uint16 (snd node)) (fst node) None)
               (stable_sort_reversed normalized).
Proof.
  unfold ExpandChildren, expansion_result.
  destruct (HaveChildren n) eqn:Hc; [discriminate|].
  unfold AcquireExpanding.
  destruct (expand_state_ n) eqn:Hs; cbn [negb]; try discriminate.
  cbn [set_color color_].
  match goal with
  | |- context [bind ?m _] => destruct m as [raw|] eqn:Hraw; [|discriminate]
  end.
  cbn [bind].
  pose proof (ApplyNetOutput_frame state raw evals (Game.GetToMove state)
                (set_color (set_expand_state n ExpandState.kExpanding)
                   (Game.GetToMove state))) as Hframe.
  cbv zeta in Hframe.
  destruct (NetOutput state raw evals (Game.GetToMove state) _) as [n1 evals1].
  cbn [fst] in Hframe. destruct Hframe as (Hch & Hcol & _).
  cbn [set_color set_expand_state children_ color_] in Hch, Hcol.
  rewrite Hcol.
  destruct (candidates_of state (Game.GetToMove state) raw)
    as [[candidates legal] hashes] eqn:Hgather.
  destruct (add_pass _ raw candidates legal) as [nodelist total] eqn:Hpass.
  destruct (normalize nodelist total) as [normalized|] eqn:Hnorm; [|discriminate].
  cbn [bind]. intros E. injection E as <- <-.
  repeat split; try reflexivity.
  - cbn. exact Hcol.
  - exists raw, candidates, legal, hashes, nodelist, total, normalized.
    repeat split; try reflexivity; try assumption.
    cbn. rewrite Hch. reflexivity.
Qed.

(** Of any number of callers of [AcquireExpanding] on an Initial node the
    first to take effect wins and all the others lose. *)
Lemma AcquireExpanding_one_winner (k : nat) (n : Node) :
  expand_state_ n = ExpandState.kInitial ->
  AcquireExpanding_by (S k) n
  = (true :: repeat false k, set_expand_state n ExpandState.kExpanding).
Proof.
  intros Hs. cbn [AcquireExpanding_by]. unfold AcquireExpanding at 1. rewrite Hs.
  assert (Hrest : forall m, expand_state_ m = ExpandState.kExpanding ->
                    AcquireExpanding_by k m = (repeat false k, m)).
  { induction k as [|k IH]; intros m Hm; [reflexivity|].
    cbn [AcquireExpanding_by]. unfold AcquireExpanding at 1. rewrite Hm.
    rewrite (IH m Hm). reflexivity. }
  rewrite Hrest by reflexivity. reflexivity.
Qed.

(** C1. An expansion succeeds at most once: [ExpandChildren] on a node that
    has children or whose expand state is not Initial returns false and
    leaves the node and the evals as they were; [AcquireExpanding] returns
    true exactly from Initial, moving to Expanding, and otherwise false with
    the node unchanged; and after a successful expansion every further call
    on the node fails. *)
Theorem ExpandChildren_at_most_once (state : GameState Board) (evals : NodeEvals)
    (is_root : bool) (n : Node) :
  (HaveChildren n = true \/ expand_state_ n <> ExpandState.kInitial ->
     Expand state evals is_root n = Some (false, n, evals))
  /\ (fst (AcquireExpanding n) = true <-> expand_state_ n = ExpandState.kInitial)
  /\ (expand_state_ n = ExpandState.kInitial ->
        AcquireExpanding n = (true, set_expand_state n ExpandState.kExpanding))
  /\ (expand_state_ n <> ExpandState.kInitial -> AcquireExpanding n = (false, n))
  /\ (forall n' evals',
        Expand state evals is_root n = Some (true, n', evals') ->
        forall state2 evals2 is_root2,
          Expand state2 evals2 is_root2 n' = Some (false, n', evals2)).
Proof.
  assert (Hfail : forall st ev r m,
            HaveChildren m = true \/ expand_state_ m <> ExpandState.kInitial ->
            Expand st ev r m = Some (false, m, ev)).
  { intros st ev r m Hm. unfold ExpandChildren.
    destruct (HaveChildren m) eqn:Hc; [reflexivity|].
    destruct Hm as [Hm | Hm]; [discriminate|].
    unfold AcquireExpanding.
    destruct (expand_state_ m); [contradiction | reflexivity | reflexivity]. }
  split; [apply Hfail|]. split; [|split; [|split]].
  - unfold AcquireExpanding. destruct (expand_state_ n); cbn; split;
      intros E; try reflexivity; discriminate.
  - intros E. unfold AcquireExpanding. rewrite E. reflexivity.
  - intros E. unfold AcquireExpanding.
    destruct (expand_state_ n); [contradiction | reflexivity | reflexivity].
  - intros n' evals' Hok state2 evals2 is_root2.
    apply ExpandChildren_steps in Hok. destruct Hok as (_ & _ & Hs & _).
    apply Hfail. right. rewrite Hs. discriminate.
Qed.

(** One step of the candidate loop skips the intersection, keeps its move, or
    (under symmetry pruning only) drops the move and still counts its prior. *)
Lemma visit_intersection_cases (state : GameState Board) (color : Color)
    (raw : NetworkResult) (symm : bool) (base : list Z) (idx : nat)
    (nodelist : list (Q * Z)) (legal : Q) (hashes : list Z) :
  let vtx :=
    Game.GetVertex state
      (Z.rem (Z.of_nat idx) (Game.GetBoardSize state))
      (Z.quot (Z.of_nat idx) (Game.GetBoardSize state)) in
  let policy := nth idx (probabilities raw) 0%Q in
  let next :=
    visit_intersection config_IsLegal state color raw symm base idx
      (nodelist, legal, hashes) in
  next = (nodelist, legal, hashes)
  \/ (exists hashes', next = (nodelist ++ [(policy, vtx)], (legal + policy)%Q, hashes'))
  \/ (symm = true /\ next = (nodelist, (legal + policy)%Q, hashes)).
Proof.
  cbv zeta. unfold visit_intersection.
  destruct (negb _ || nth idx (GetStrictSafeArea state) false).
  - left. reflexivity.
  - destruct symm.
    + destruct (negb (existsb _ _)).
      * right. left. eexists. reflexivity.
      * right. right. split; reflexivity.
    + right. left. eexists. reflexivity.
Qed.

Lemma candidate_loop_facts (state : GameState Board) (color : Color)
    (raw : NetworkResult) (symm : bool) (base : list Z) (idxs : list nat) :
  forall nodelist legal hashes nodelist' legal' hashes',
    for_loop idxs (visit_intersection config_IsLegal state color raw symm base)
      (nodelist, legal, hashes) = (nodelist', legal', hashes') ->
    (length nodelist' <= length nodelist + length idxs)%nat
    /\ (forall node, In node nodelist' ->
          In node nodelist
          \/ exists idx, In idx idxs
               /\ snd node =
                  Game.GetVertex state
                    (Z.rem (Z.of_nat idx) (Game.GetBoardSize state))
                    (Z.quot (Z.of_nat idx) (Game.GetBoardSize state)))
    /\ (symm = false -> (legal == sum_prior nodelist)%Q ->
        (legal' == sum_prior nodelist')%Q).
Proof.
  unfold for_loop.
  induction idxs as [|idx rest IH]; intros nodelist legal hashes nodelist' legal' hashes'.
  - cbn [fold_left]. intros E. injection E as <- <- <-.
    split; [cbn; lia|]. split; [intros node Hn; left; exact Hn|]. auto.
  - cbn [fold_left]. intros Hrun.
    destruct (visit_intersection_cases state color raw symm base idx nodelist legal hashes)
      as [E | [[hashes1 E] | [Hs E]]]; rewrite E in Hrun;
      apply IH in Hrun; destruct Hrun as (Hlen & Hin & Hsum).
    + split; [cbn [length]; lia|]. split.
      * intros node Hn. destruct (Hin node Hn) as [Hold | (i & Hi & Hv)].
        -- left. exact Hold.
        -- right. exists i. split; [right; exact Hi | exact Hv].
      * exact Hsum.
    + split; [rewrite length_app in Hlen; cbn [length] in *; lia|]. split.
      * intros node Hn. destruct (Hin node Hn) as [Hold | (i & Hi & Hv)].
        -- apply in_app_or in Hold. destruct Hold as [Hold | [<- | []]].
           ++ left. exact Hold.
           ++ right. exists idx. split; [left; reflexivity | reflexivity].
        -- right. exists i. split; [right; exact Hi | exact Hv].
      * intros Hsym Hleg. apply Hsum; [exact Hsym|].
        rewrite sum_prior_app, Hleg. reflexivity.
    + split; [cbn [length]; lia|]. split.
      * intros node Hn. destruct (Hin node Hn) as [Hold | (i & Hi & Hv)].
        -- left. exact Hold.
        -- right. exists i. split; [right; exact Hi | exact Hv].
      * intros Hsym. congruence.
Qed.

Lemma gather_candidates_facts (state : GameState Board) (color : Color)
    (raw : NetworkResult) (candidates : list (Q * Z)) (legal : Q) (hashes : list Z) :
  candidates_of state color raw = (candidates, legal, hashes) ->
  (length candidates <= Z.to_nat (Game.GetNumIntersections state))%nat
  /\ (forall node, In node candidates ->
        exists idx : nat,
          Z.of_nat idx < Game.GetNumIntersections state
          /\ snd node =
             Game.GetVertex state
               (Z.rem (Z.of_nat idx) (Game.GetBoardSize state))
               (Z.quot (Z.of_nat idx) (Game.GetBoardSize state)))
  /\ (symm_pruning param_
      && (Game.GetMoveNumber state <=? Game.GetBoardSize state) = false ->
      (legal == sum_prior candidates)%Q).
Proof.
  unfold gather_candidates. intros Hrun.
  apply candidate_loop_facts in Hrun. destruct Hrun as (Hlen & Hin & Hsum).
  rewrite length_seq in Hlen. cbn [length] in Hlen.
  split; [lia|]. split.
  - intros node Hn. destruct (Hin node Hn) as [[] | (idx & Hi & Hv)].
    exists idx. split; [|exact Hv].
    apply in_seq in Hi. lia.
  - intros Hs. apply Hsum; [exact Hs|]. reflexivity.
Qed.

Lemma add_pass_nonempty (N : Z) (raw : NetworkResult) (candidates : list (Q * Z))
    (legal : Q) (nodelist : list (Q * Z)) (total : Q) :
  add_pass N raw candidates legal = (nodelist, total) -> nodelist <> [].
Proof.
  unfold add_pass.
  destruct (negb _ || (length candidates =? 0)%nat) eqn:E;
    intros Hp; injection Hp as <- <-.
  - destruct candidates; discriminate.
  - apply orb_false_iff in E. destruct E as [_ E].
    destruct candidates; [discriminate | discriminate].
Qed.

(** The pass rule in numbers: pass is added exactly when the candidates are
    none or at most [3 * N / 4]. *)
Lemma add_pass_spec (N : Z) (raw : NetworkResult) (candidates : list (Q * Z)) (legal : Q) :
  0 <= N <= 715827882 ->
  (length candidates <= Z.to_nat N)%nat ->
  (candidates = [] \/ Z.of_nat (length candidates) <= 3 * N / 4 ->
   add_pass N raw candidates legal =
   (candidates ++ [(pass_probability raw, kPass)], (legal + pass_probability raw)%Q))
  /\ (~ (candidates = [] \/ Z.of_nat (length candidates) <= 3 * N / 4) ->
      add_pass N raw candidates legal = (candidates, legal)).
Proof.
  intros HN Hlen. unfold add_pass.
  assert (Hw : wrap_int (Z.of_nat (length candidates)) = Z.of_nat (length candidates)).
  { apply wrap_int_small. unfold INT_MIN, INT_MAX. lia. }
  assert (Hm : int_mul 3 N = 3 * N).
  { apply wrap_int_small. unfold INT_MIN, INT_MAX. lia. }
  rewrite Hw, Hm, Z.quot_div_nonneg by lia.
  destruct (Z.of_nat (length candidates) >? 3 * N / 4) eqn:E.
  - rewrite <- Zgt_is_gt_bool in E. cbn [negb orb].
    destruct candidates as [|c rest].
    + cbn [length] in E. assert (0 <= 3 * N / 4) by (apply Z.div_pos; lia). lia.
    + cbn [length Nat.eqb] in *. split.
      * intros [Hnil | Hle]; [discriminate | lia].
      * reflexivity.
  - cbn [negb orb]. split; [reflexivity|].
    intros Hn. exfalso. apply Hn. right.
    destruct (Z.gtb_spec (Z.of_nat (length candidates)) (3 * N / 4)); [discriminate | lia].
Qed.

Lemma classic_pass (candidates : list (Q * Z)) (N : Z) :
  (candidates = [] \/ Z.of_nat (length candidates) <= 3 * N / 4)
  \/ ~ (candidates = [] \/ Z.of_nat (length candidates) <= 3 * N / 4).
Proof.
  destruct candidates as [|c rest]; [left; left; reflexivity|].
  destruct (Z_le_gt_dec (Z.of_nat (length (c :: rest))) (3 * N / 4)) as [Hle | Hgt].
  - left. right. exact Hle.
  - right. intros [Hnil | Hle]; [discriminate | lia].
Qed.

(** An expansion of a node that may be expanded runs to the end: the only
    division by a quantity that may vanish is the one of the fallback
    policy, by the number of intersections. *)
Lemma ExpandChildren_runs (state : GameState Board) (evals : NodeEvals)
    (is_root : bool) (n : Node) :
  HaveChildren n = false ->
  expand_state_ n = ExpandState.kInitial ->
  0 < Game.GetNumIntersections state ->
  exists n' evals', Expand state evals is_root n = Some (true, n', evals').
Proof.
  intros Hc Hs HN. unfold ExpandChildren. rewrite Hc.
  unfold AcquireExpanding. rewrite Hs. cbn [negb set_color color_].
  assert (Hraw : exists raw,
    (if no_dcnn param_ && negb (root_dcnn param_ && is_root)
     then ApplyNoDcnnPolicy state (Game.GetToMove state) (empty_result kNumIntersections)
     else Some (network_GetOutput state
                  (if is_root then root_policy_temp param_ else policy_temp param_)))
    = Some raw).
  { destruct (no_dcnn param_ && negb (root_dcnn param_ && is_root)).
    - unfold ApplyNoDcnnPolicy. destruct (for_loop _ _ _) as [probs owner].
      rewrite fdiv_inject_Z by lia. eexists. reflexivity.
    - eexists. reflexivity. }
  destruct Hraw as [raw Hraw]. rewrite Hraw. cbn [bind].
  destruct (NetOutput state raw evals (Game.GetToMove state) _) as [n1 evals1].
  destruct (candidates_of state (color_ n1) raw) as [[candidates legal] hashes].
  destruct (add_pass _ raw candidates legal) as [nodelist total] eqn:Hpass.
  apply add_pass_nonempty in Hpass.
  destruct (normalize_spec nodelist total Hpass) as (normalized & Hnorm & _).
  rewrite Hnorm. cbn [bind]. eexists. eexists. reflexivity.
Qed.

Lemma has_pass_child_spec (n : Node) (nodelist : list (Q * Z)) :
  children_ n =
  map (fun node => mkEdge (to_uint16 (snd node)) (fst node) None) nodelist ->
  has_pass_child n = existsb (fun v => to_uint16 v =? kPass) (map snd nodelist).
Proof.
  unfold has_pass_child. intros ->.
  induction nodelist as [|x rest IH]; cbn; [reflexivity|].
  rewrite IH. reflexivity.
Qed.

(** C5. On a node that may be expanded, over a board whose vertices are
    [uint16]s other than the pass vertex, expansion succeeds and adds a pass
    child exactly when the candidate list is empty or has at most
    [3 * N / 4] entries: above that there is no pass child, and with no
    candidate there is one. *)
Theorem pass_child_rule (state : GameState Board) (evals : NodeEvals)
    (is_root : bool) (n : Node) :
  HaveChildren n = false ->
  expand_state_ n = ExpandState.kInitial ->
  children_ n = [] ->
  vertices_in_range state ->
  0 < Game.GetNumIntersections state <= 715827882 ->
  let N := Game.GetNumIntersections state in
  exists n' evals' raw candidates legal hashes,
    Expand state evals is_root n = Some (true, n', evals')
    /\ result_of state is_root = Some raw
    /\ candidates_of state (Game.GetToMove state) raw = (candidates, legal, hashes)
    /\ (has_pass_child n' = true <->
        candidates = [] \/ Z.of_nat (length candidates) <= 3 * N / 4)
    /\ (3 * N / 4 < Z.of_nat (length candidates) -> has_pass_child n' = false)
    /\ (candidates = [] -> has_pass_child n' = true).
Proof.
  intros Hc Hs Hnil (Hpass_range & Hvtx) HN N.
  destruct (ExpandChildren_runs state evals is_root n Hc Hs) as (n' & evals' & Hrun);
    [lia|].
  destruct (ExpandChildren_steps _ _ _ _ _ _ Hrun)
    as (_ & _ & _ & _ & raw & candidates & legal & hashes & nodelist & total
        & normalized & Hraw & Hgather & Hpass & Hnorm & Hchildren).
  exists n', evals', raw, candidates, legal, hashes.
  split; [exact Hrun|]. split; [exact Hraw|]. split; [exact Hgather|].
  destruct (gather_candidates_facts _ _ _ _ _ _ Hgather) as (Hlen & Hin & _).
  fold N in Hpass, Hlen.
  destruct (add_pass_spec N raw candidates legal) as (Hadd & Hskip);
    [unfold N; lia | exact Hlen |].
  rewrite Hnil in Hchildren. cbn [app] in Hchildren.
  pose proof (has_pass_child_spec n' _ Hchildren) as Hhas.
  rewrite (existsb_perm _ _ _
             (Permutation_map snd (stable_sort_reversed_perm normalized))) in Hhas.
  destruct (normalize_spec nodelist total (add_pass_nonempty _ _ _ _ _ _ Hpass))
    as (normalized' & Hnorm' & Hsnd & _).
  rewrite Hnorm in Hnorm'. injection Hnorm' as <-. rewrite Hsnd in Hhas.
  assert (Hcand : existsb (fun v => to_uint16 v =? kPass) (map snd candidates) = false).
  { apply not_true_iff_false. intros Hex. apply existsb_exists in Hex.
    destruct Hex as (v & Hv & Heq). apply in_map_iff in Hv.
    destruct Hv as (node & <- & Hnode).
    destruct (Hin node Hnode) as (idx & Hidx & Hsnd').
    destruct (Hvtx idx Hidx) as (Hrange & Hne).
    rewrite <- Hsnd' in Hrange, Hne.
    unfold to_uint16 in Heq. rewrite Z.mod_small in Heq by exact Hrange.
    apply Z.eqb_eq in Heq. contradiction. }
  assert (Hiff : has_pass_child n' = true <->
                 candidates = [] \/ Z.of_nat (length candidates) <= 3 * N / 4).
  { split.
    - intros Htrue.
      destruct (classic_pass candidates N) as [Hyes | Hno]; [exact Hyes|].
      exfalso. rewrite (Hskip Hno) in Hpass. injection Hpass as <- <-.
      rewrite Hhas, Hcand in Htrue. discriminate.
    - intros Hyes. rewrite (Hadd Hyes) in Hpass. injection Hpass as <- <-.
      rewrite Hhas, map_app, existsb_app. cbn [map existsb snd].
      unfold to_uint16. rewrite Z.mod_small by exact Hpass_range.
      rewrite Z.eqb_refl. apply orb_true_r. }
  split; [exact Hiff|]. split.
  - intros Hgt. apply not_true_iff_false. intros Htrue. apply Hiff in Htrue.
    destruct Htrue as [-> | Hle]; [|lia].
    cbn [length] in Hgt. assert (0 <= 3 * N / 4) by (apply Z.div_pos; unfold N; lia).
    lia.
  - intros Hempty. apply Hiff. left. exact Hempty.
Qed.



End ExpansionFacts.


(** ** The theorems at work on the examples *)

(** Proves [Forall P l] on an explicit list, each element by [tac]. *)
Ltac forall_list tac := repeat (apply Forall_cons; [tac|]); apply Forall_nil.

(** C3 on a fresh node: one backup of a won game. *)
Lemma Update_spec_witness :
  exists n',
    Update 4 (mkNodeEvals 1 0 (3 # 2) [1; 1; 0; 0]%Q) (new_Node 4 5 (1 # 2)) = Some n'
    /\ visits_ n' = 1
    /\ accumulated_black_wl_ n' = (0 + 1)%Q
    /\ nth 0 (avg_black_ownership_ n') 0%Q = (0 + (1 - 0) / inject_Z (0 + 1))%Q.
Proof.
  destruct (Update_spec 4 (mkNodeEvals 1 0 (3 # 2) [1; 1; 0; 0]%Q)
              (new_Node 4 5 (1 # 2)))
    as (n' & Hrun & Hv & _ & Hwl & _ & _ & _ & Hown & _).
  - cbn. unfold INT_MAX. lia.
  - reflexivity.
  - exists n'. split; [exact Hrun|]. split; [exact Hv|]. split; [exact Hwl|].
    apply (Hown 0%nat). lia.
Defined.

(** C4 after two of three backups. *)
Lemma UpdateAll_bounds_witness :
  let es := [mkNodeEvals 1 0 10 [0; 0]%Q; mkNodeEvals (1 # 2) (1 # 4) (- (3)) [0; 0]%Q;
             mkNodeEvals 0 1 0 [0; 0]%Q] in
  exists n',
    UpdateAll 2 (firstn 2 es) (new_Node 2 0 1) = Some n'
    /\ visits_ n' = 2
    /\ (Qabs (accumulated_black_wl_ n') <= inject_Z (visits_ n'))%Q
    /\ (Qabs (accumulated_draw_ n') <= inject_Z (visits_ n'))%Q
    /\ (Qabs (accumulated_black_fs_ n') <= 10 * inject_Z (visits_ n'))%Q.
Proof.
  cbv zeta.
  destruct (UpdateAll_bounds 2
              [mkNodeEvals 1 0 10 [0; 0]%Q; mkNodeEvals (1 # 2) (1 # 4) (- (3)) [0; 0]%Q;
               mkNodeEvals 0 1 0 [0; 0]%Q] 0 1 2)
    as (n' & Hrun & Hv & Hwl & Hdr & Hfs).
  - cbn. unfold INT_MAX. lia.
  - forall_list ltac:(unfold evals_in_unit_range; cbn; lra).
  - cbn. lia.
  - exists n'. split; [exact Hrun|]. split; [exact Hv|]. split; [exact Hwl|].
    split; [exact Hdr|]. apply Hfs.
    forall_list ltac:(unfold score_within; cbn [black_final_score];
                      apply Qabs_Qle_condition; lra).
Defined.

(** C7 on a node with ten visits and two running threads. *)
Lemma GetWL_virtual_loss_witness :
  let n := set_running_threads
             (set_accumulated_black_wl (set_visits (new_Node 2 5 1) 10) 6) 2 in
  GetWL n kBlack true = fdiv 6 (inject_Z (10 + 6))
  /\ GetWL n kWhite true =
     option_map (fun eval => (1 - eval)%Q) (fdiv (6 + inject_Z 6) (inject_Z (10 + 6)))
  /\ GetWL n kBlack false = Some (6 / inject_Z 10)%Q.
Proof.
  cbv zeta.
  destruct (GetWL_virtual_loss
              (set_running_threads
                 (set_accumulated_black_wl (set_visits (new_Node 2 5 1) 10) 6) 2))
    as (_ & Hb & Hw & _ & _ & _ & _ & Hplain).
  - cbn. lia.
  - cbn. lia.
  - cbn. unfold INT_MAX. lia.
  - split; [exact Hb|]. split; [exact Hw|]. apply Hplain. cbn. lia.
Defined.


(** C10 on a root with two visited children: the best move is vertex 5 with
    three of the four visits. *)
Lemma ComputeKlDivergence_cases_witness :
  Fixture.best_move Fixture.visited_root = Some (5, Fixture.visited_root)
  /\ Kl.ComputeKlDivergence (fun q => q) Fixture.best_move Fixture.visited_root
     = Some (- (inject_Z 3 / inject_Z 4))%Q.
Proof.
  assert (Hbest : Fixture.best_move Fixture.visited_root
                  = Some (5, Fixture.visited_root)) by (vm_compute; reflexivity).
  split; [exact Hbest|].
  destruct (ComputeKlDivergence_cases (fun q => q) Fixture.best_move
              Fixture.visited_root Fixture.visited_root 5 Hbest)
    as (_ & _ & Hlog & _).
  apply Hlog; vm_compute; discriminate.
Defined.

(** C8 on the ko position: of the three children the
    move at vertex 5 repeats a position and is removed. *)
Lemma KillRootSuperkos_spec_witness :
  exists n',
    @KillRootSuperkos _ Fixture.toy Fixture.ko_state Fixture.ko_root = Some n'
    /\ map edge_vertex (children_ n') = [6; 26]
    /\ (length (children_ n') + 1 = length (children_ Fixture.ko_root))%nat.
Proof.
  destruct (@KillRootSuperkos_spec _ Fixture.toy Fixture.ko_state Fixture.ko_root 1)
    as (marked & n' & _ & _ & Hrun & Hn' & Hlen & _).
  - unfold children_ready. forall_list ltac:(eexists; split; reflexivity).
  - reflexivity.
  - exists n'. split; [exact Hrun|]. split; [|exact Hlen].
    rewrite Hn'. reflexivity.
Defined.

Lemma toy_vertices_in_range : @vertices_in_range _ Fixture.toy Fixture.empty_state.
Proof.
  split; [cbn; lia|].
  intros [|[|[|[|idx]]]] Hidx; cbn in Hidx |- *; try lia.
  all: unfold Fixture.toy_vertex; cbn; lia.
Qed.

(** C5 on the empty 2x2 board without symmetry pruning: four
    candidates exceed [3 * 4 / 4], so no pass child is stored. *)
Lemma pass_child_rule_witness :
  exists n' evals',
    Fixture.expand false = Some (true, n', evals')
    /\ @has_pass_child _ Fixture.toy n' = false.
Proof.
  destruct (@pass_child_rule _ Fixture.toy 4 (Fixture.params false) Fixture.network
              Fixture.config_IsLegal Fixture.rollout Fixture.empty_state
              Fixture.evals0 true (new_Node 4 (-1) 1))
    as (n' & evals' & raw & candidates & legal & hashes & Hrun & Hraw & Hgather
        & _ & Hmany & _).
  - reflexivity.
  - reflexivity.
  - reflexivity.
  - exact toy_vertices_in_range.
  - cbn. lia.
  - exists n', evals'. split; [exact Hrun|]. apply Hmany.
    injection Hraw as <-. vm_compute in Hgather. injection Hgather as <- _ _.
    reflexivity.
Defined.


(** * Further properties *)

(** ** Backup: the running variance and the ownership mean *)

Section BackupMore.

Variable kNumIntersections : nat.

Local Open Scope Q_scope.

Lemma sq_dev_expand (m : Q) (es : list NodeEvals) :
  sq_dev m es
  == sum_sq_wl es - 2 * m * sum_wl es + inject_Z (Z.of_nat (length es)) * m * m.
Proof.
  induction es as [|e es IH].
  - unfold sq_dev, sum_sq_wl, sum_wl. cbn [fold_right length Z.of_nat].
    change (inject_Z 0) with 0. ring.
  - unfold sq_dev, sum_sq_wl, sum_wl in *. cbn [fold_right length].
    rewrite IH, Nat2Z.inj_succ. unfold Z.succ. rewrite inject_Z_plus.
    change (inject_Z 1) with 1. ring.
Qed.

(** The invariant of Welford's recurrence along a backup sequence: with
    [S2] the sum of the squares backed up so far, [squared_eval_diff] is
    [S2 - acc^2 / visits]. *)
Lemma Welford_invariant (es : list NodeEvals) : forall (n : Node) (S2 : Q),
  (0 <= visits_ n)%Z ->
  (visits_ n + Z.of_nat (length es) <= INT_MAX)%Z ->
  length (avg_black_ownership_ n) = kNumIntersections ->
  (visits_ n = 0%Z ->
   accumulated_black_wl_ n == 0 /\ squared_eval_diff_ n == 0 /\ S2 == 0) ->
  ((0 < visits_ n)%Z ->
   squared_eval_diff_ n
   == S2 - accumulated_black_wl_ n * accumulated_black_wl_ n / inject_Z (visits_ n)) ->
  exists n',
    UpdateAll kNumIntersections es n = Some n'
    /\ visits_ n' = (visits_ n + Z.of_nat (length es))%Z
    /\ accumulated_black_wl_ n' == accumulated_black_wl_ n + sum_wl es
    /\ ((0 < visits_ n')%Z ->
        squared_eval_diff_ n'
        == S2 + sum_sq_wl es
           - accumulated_black_wl_ n' * accumulated_black_wl_ n'
             / inject_Z (visits_ n')).
Proof.
  induction es as [|e es IH]; intros n S2 Hv Hmax Hlen Hzero Hpos.
  - exists n. cbn [UpdateAll length Z.of_nat]. rewrite Z.add_0_r.
    unfold sum_wl, sum_sq_wl. cbn [fold_right].
    split; [reflexivity|]. split; [reflexivity|]. split; [ring|].
    intros H0. rewrite (Hpos H0). ring.
  - cbn [length] in Hmax. rewrite Nat2Z.inj_succ in Hmax.
    destruct (Update_step kNumIntersections e n) as
      (n1 & Hup & Hv1 & Hsq & Hwl & _ & _ & Hlen1 & _); [lia | exact Hlen |].
    cbv zeta in Hsq.
    assert (Hinj : inject_Z (visits_ n + 1) == inject_Z (visits_ n) + 1).
    { rewrite inject_Z_plus. reflexivity. }
    destruct (IH n1 (S2 + black_wl e * black_wl e)) as (n' & Hrun & Hv' & Hacc & Hm2).
    + lia.
    + lia.
    + exact Hlen1.
    + intros E. lia.
    + intros _. rewrite Hsq, Hwl, Hv1.
      destruct (0 <? visits_ n)%Z eqn:E.
      * apply Z.ltb_lt in E. rewrite (Hpos E), Hinj.
        assert (Hk : 0 < inject_Z (visits_ n)).
        { unfold Qlt. cbn. lia. }
        field. split; lra.
      * apply Z.ltb_ge in E. assert (E0 : visits_ n = 0%Z) by lia.
        destruct (Hzero E0) as (Ha & Hs & Hs2).
        rewrite Hs, Ha, Hs2, E0. cbn [Z.add]. unfold inject_Z. field.
    + exists n'. cbn [UpdateAll]. rewrite Hup. cbn [bind].
      split; [exact Hrun|]. split.
      { rewrite Hv', Hv1. cbn [length]. lia. }
      split.
      { rewrite Hacc, Hwl. unfold sum_wl. cbn [fold_right]. ring. }
      intros H0. rewrite (Hm2 H0). unfold sum_sq_wl. cbn [fold_right]. ring.
Qed.

(** X1. Welford consistency: after the backups [es] of a fresh node,
    [squared_eval_diff] is the sum of the squared deviations of the backed
    up win-loss values from their mean. *)
Theorem Update_welford_consistency (es : list NodeEvals) (vertex : Z) (policy : Q) :
  es <> [] ->
  (Z.of_nat (length es) <= INT_MAX)%Z ->
  exists n',
    UpdateAll kNumIntersections es (new_Node kNumIntersections vertex policy) = Some n'
    /\ accumulated_black_wl_ n' == sum_wl es
    /\ squared_eval_diff_ n'
       == sq_dev (sum_wl es / inject_Z (Z.of_nat (length es))) es.
Proof.
  intros Hne Hmax.
  destruct (Welford_invariant es (new_Node kNumIntersections vertex policy) 0)
    as (n' & Hrun & Hv & Hacc & Hm2).
  - cbn. lia.
  - cbn. lia.
  - cbn. apply repeat_length.
  - intros _. cbn. repeat split; reflexivity.
  - cbn. lia.
  - cbn [new_Node visits_ accumulated_black_wl_] in Hv, Hacc.
    assert (Hlen : (0 < Z.of_nat (length es))%Z).
    { destruct es; [contradiction | cbn [length]; lia]. }
    assert (Hk : 0 < inject_Z (Z.of_nat (length es))).
    { unfold Qlt. cbn. lia. }
    exists n'. split; [exact Hrun|]. split; [rewrite Hacc; ring|].
    rewrite Hm2 by lia. rewrite Hv, Hacc, sq_dev_expand. cbn [Z.add].
    field. lra.
Qed.

(** The invariant of the ownership recurrence: the mean times the visits is
    the sum of what was backed up. *)
Lemma ownership_invariant (idx : nat) (es : list NodeEvals) : forall (n : Node),
  (0 <= visits_ n)%Z ->
  (visits_ n + Z.of_nat (length es) <= INT_MAX)%Z ->
  length (avg_black_ownership_ n) = kNumIntersections ->
  (idx < kNumIntersections)%nat ->
  exists n',
    UpdateAll kNumIntersections es n = Some n'
    /\ visits_ n' = (visits_ n + Z.of_nat (length es))%Z
    /\ nth idx (avg_black_ownership_ n') 0 * inject_Z (visits_ n')
       == nth idx (avg_black_ownership_ n) 0 * inject_Z (visits_ n) + sum_owner idx es.
Proof.
  induction es as [|e es IH]; intros n Hv Hmax Hlen Hidx.
  - exists n. cbn [UpdateAll length Z.of_nat]. rewrite Z.add_0_r.
    unfold sum_owner. cbn [fold_right].
    split; [reflexivity|]. split; [reflexivity|]. ring.
  - cbn [length] in Hmax. rewrite Nat2Z.inj_succ in Hmax.
    destruct (Update_step kNumIntersections e n) as
      (n1 & Hup & Hv1 & _ & _ & _ & _ & Hlen1 & Hown & _); [lia | exact Hlen |].
    cbv zeta in Hown.
    destruct (IH n1) as (n' & Hrun & Hv' & Hmean); [lia | lia | exact Hlen1 | exact Hidx |].
    exists n'. cbn [UpdateAll]. rewrite Hup. cbn [bind].
    split; [exact Hrun|]. split.
    { rewrite Hv', Hv1. cbn [length]. lia. }
    rewrite Hmean, (Hown idx Hidx), Hv1, inject_Z_plus.
    unfold sum_owner. cbn [fold_right].
    assert (Hk : 0 <= inject_Z (visits_ n)).
    { unfold Qle. cbn. lia. }
    change (inject_Z 1) with 1. field. lra.
Qed.

(** X2. The ownership recurrence is the exact running mean: after the
    backups [es] of a node without visits, every ownership entry is the mean
    of the values backed up at that intersection. *)
Theorem Update_ownership_mean (es : list NodeEvals) (n : Node) (idx : nat) :
  visits_ n = 0%Z ->
  length (avg_black_ownership_ n) = kNumIntersections ->
  (idx < kNumIntersections)%nat ->
  es <> [] ->
  (Z.of_nat (length es) <= INT_MAX)%Z ->
  exists n',
    UpdateAll kNumIntersections es n = Some n'
    /\ nth idx (avg_black_ownership_ n') 0
       == sum_owner idx es / inject_Z (Z.of_nat (length es)).
Proof.
  intros Hv Hlen Hidx Hne Hmax.
  destruct (ownership_invariant idx es n) as (n' & Hrun & Hv' & Hmean);
    [lia | lia | exact Hlen | exact Hidx |].
  exists n'. split; [exact Hrun|].
  assert (Hpos : (0 < Z.of_nat (length es))%Z).
  { destruct es; [contradiction | cbn [length]; lia]. }
  assert (Hk : 0 < inject_Z (Z.of_nat (length es))).
  { unfold Qlt. cbn. lia. }
  rewrite Hv', Hv in Hmean. cbn [Z.add] in Hmean.
  apply (Qmult_inj_r _ _ (inject_Z (Z.of_nat (length es)))); [lra|].
  rewrite Hmean. change (inject_Z 0) with 0. field. lra.
Qed.

End BackupMore.

(** ** Virtual loss *)

Section VirtualLoss.

Local Open Scope Q_scope.

(** X3. Virtual loss is pessimistic for both colours: on a visited node
    whose accumulator lies between 0 and the visits, the win-loss read with
    virtual loss is never above the one read without, for Black and for
    White. *)
Theorem GetWL_virtual_loss_pessimistic (n : Node) :
  (0 < visits_ n)%Z ->
  (0 <= running_threads_ n)%Z ->
  (visits_ n + 3 * running_threads_ n <= INT_MAX)%Z ->
  0 <= accumulated_black_wl_ n <= inject_Z (visits_ n) ->
  exists black_vl black white_vl white,
    GetWL n kBlack true = Some black_vl
    /\ GetWL n kBlack false = Some black
    /\ GetWL n kWhite true = Some white_vl
    /\ GetWL n kWhite false = Some white
    /\ black_vl <= black
    /\ white_vl <= white.
Proof.
  intros Hv Ht Hmax [Hacc0 Hacc1].
  set (vl := (3 * running_threads_ n)%Z).
  assert (Hvl : GetVirtualLoss n = vl).
  { unfold GetVirtualLoss, VIRTUAL_LOSS_COUNT, int_mul. apply wrap_int_small.
    unfold INT_MIN, INT_MAX, vl in *. lia. }
  assert (Hsum : int_add (visits_ n) vl = (visits_ n + vl)%Z).
  { apply wrap_int_small. unfold INT_MIN, INT_MAX, vl in *. lia. }
  assert (Hsum0 : int_add (visits_ n) 0 = visits_ n).
  { unfold int_add. rewrite Z.add_0_r. apply wrap_int_small.
    unfold INT_MIN, INT_MAX in *. lia. }
  assert (Hiv : 0 < inject_Z (visits_ n)) by (unfold Qlt; cbn; lia).
  assert (Hivl : 0 <= inject_Z vl).
  { unfold Qle, inject_Z, vl. cbn [Qnum Qden]. lia. }
  assert (Hplus : inject_Z (visits_ n + vl) == inject_Z (visits_ n) + inject_Z vl)
    by (rewrite inject_Z_plus; reflexivity).
  set (a := accumulated_black_wl_ n) in *.
  set (v := inject_Z (visits_ n)) in *.
  set (w := inject_Z vl) in *.
  exists (a / inject_Z (visits_ n + vl)), (a / v),
         (1 - (a + w) / inject_Z (visits_ n + vl)), (1 - a / v).
  assert (Hnz : (visits_ n + vl <> 0)%Z) by (unfold vl; lia).
  split.
  { unfold GetWL, GetVisits. rewrite Hvl, Hsum. cbn.
    rewrite fdiv_inject_Z by exact Hnz. reflexivity. }
  split.
  { unfold GetWL, GetVisits. rewrite Hsum0. cbn.
    rewrite fdiv_inject_Z by lia. reflexivity. }
  split.
  { unfold GetWL, GetVisits. rewrite Hvl, Hsum. cbn.
    rewrite fdiv_inject_Z by exact Hnz. reflexivity. }
  split.
  { unfold GetWL, GetVisits. rewrite Hsum0. cbn.
    rewrite fdiv_inject_Z by lia. reflexivity. }
  rewrite Hplus.
  assert (Haw : 0 <= a * w) by (apply Qmult_le_0_compat; assumption).
  assert (Hvw : 0 <= (v - a) * w) by (apply Qmult_le_0_compat; lra).
  split.
  - apply Qle_shift_div_r; [lra|].
    assert (E : a / v * (v + w) == a + a * w / v) by (field; lra).
    rewrite E.
    assert (0 <= a * w / v) by (apply Qle_shift_div_l; lra).
    lra.
  - assert (a / v <= (a + w) / (v + w)); [|lra].
    apply Qle_shift_div_l; [lra|].
    assert (E : a / v * (v + w) == a + a * w / v) by (field; lra).
    rewrite E.
    assert (a * w / v <= w) by (apply Qle_shift_div_r; lra).
    lra.
Qed.

End VirtualLoss.

(** ** The status and the expansion state *)

Lemma status_call_on_invalid (n : Node) (c : StatusCall) :
  IsValid n = false -> run_status_call n c = n.
Proof.
  intros Hn. destruct c; cbn; unfold SetActive, Invalidate; rewrite Hn; reflexivity.
Qed.

Lemma status_call_valid (n : Node) (c : StatusCall) :
  IsValid (run_status_call n c)
  = IsValid n && match c with CallInvalidate => false | _ => true end.
Proof.
  destruct c as [active|]; cbn; unfold SetActive, Invalidate.
  - destruct (IsValid n) eqn:E; [|rewrite E; reflexivity].
    destruct active; reflexivity.
  - destruct (IsValid n) eqn:E; [reflexivity | rewrite E; reflexivity].
Qed.

(** X4. The status only moves between Active and Pruned until the node is
    invalidated: a node stays valid through a sequence of status calls
    exactly when it was valid and no call was [Invalidate]; once invalid, no
    call changes the node; and pruning a valid node and activating it again
    leaves it active. *)
Theorem status_invalid_is_final (calls : list StatusCall) (n : Node) :
  (IsValid (fold_left run_status_call calls n) = true <->
   IsValid n = true /\ ~ In CallInvalidate calls)
  /\ (IsValid n = false -> fold_left run_status_call calls n = n)
  /\ (IsValid n = true ->
      IsPruned (SetActive n false) = true
      /\ IsActive (SetActive (SetActive n false) true) = true).
Proof.
  split; [|split].
  - revert n. induction calls as [|c rest IH]; intros n; cbn [fold_left].
    + cbn. tauto.
    + rewrite IH, status_call_valid. cbn [In]. split.
      * intros [Hv Hin]. apply andb_true_iff in Hv. destruct Hv as [Hv Hc].
        split; [exact Hv|]. intros [Hc' | Hin']; [|contradiction].
        subst c. discriminate.
      * intros [Hv Hnot]. split.
        -- rewrite Hv. destruct c; [reflexivity|]. exfalso. apply Hnot. left. reflexivity.
        -- intros Hin. apply Hnot. right. exact Hin.
  - revert n. induction calls as [|c rest IH]; intros n Hn; cbn [fold_left].
    + reflexivity.
    + rewrite (status_call_on_invalid n c Hn). apply IH, Hn.
  - intros Hv. unfold SetActive. rewrite Hv.
    unfold IsPruned, IsActive, IsValid. cbn. split; reflexivity.
Qed.

Section ExpandStateMore.

Context {Board : Type} `{Collaborators Board}.
Variable kNumIntersections : nat.
Variable param_ : Parameters.
Variable network_GetOutput : GameState Board -> Q -> NetworkResult.
Variable config_IsLegal : Z -> Color -> Z -> bool.
Variable GetBlackRolloutResult : GameState Board -> list Q -> Q * Q * list Q.

(** X5. [SetTerminal] succeeds exactly from Initial; the node it leaves has
    no children and is Expanded, so that every later [SetTerminal] and every
    later [ExpandChildren] on it returns false and changes nothing; and
    [ExpandCancel] after a won [AcquireExpanding] gives the node back as it
    was. *)
Theorem SetTerminal_is_final (n : Node) :
  (fst (SetTerminal n) = true <-> expand_state_ n = ExpandState.kInitial)
  /\ (expand_state_ n <> ExpandState.kInitial -> SetTerminal n = (false, n))
  /\ (expand_state_ n = ExpandState.kInitial ->
      let n' := snd (SetTerminal n) in
      HaveChildren n' = false
      /\ IsExpanded n' = true
      /\ children_ n' = children_ n
      /\ SetTerminal n' = (false, n')
      /\ (forall state evals is_root,
            ExpandChildren kNumIntersections param_ network_GetOutput config_IsLegal
              GetBlackRolloutResult state evals is_root n'
            = Some (false, n', evals))
      /\ ExpandCancel (snd (AcquireExpanding n)) = n).
Proof.
  split; [|split].
  - unfold SetTerminal, AcquireExpanding.
    destruct (expand_state_ n); cbn; split; intros E; try reflexivity; discriminate.
  - intros Hs. unfold SetTerminal, AcquireExpanding.
    destruct (expand_state_ n); [contradiction | reflexivity | reflexivity].
  - intros Hs. unfold SetTerminal, AcquireExpanding. rewrite Hs.
    cbn [negb snd]. cbv zeta.
    split; [reflexivity|]. split; [reflexivity|]. split; [reflexivity|].
    split; [reflexivity|]. split.
    + intros state evals is_root. reflexivity.
    + destruct n. cbn in *. subst. reflexivity.
Qed.

End ExpandStateMore.

(** ** Expansion: order, perspective and the position without a move *)

Lemma adjacent_impl {A : Type} (R R' : A -> A -> Prop) (l : list A) :
  (forall a b, R a b -> R' a b) -> adjacent R l -> adjacent R' l.
Proof.
  intros HR. induction l as [|a rest IH]; cbn; [auto|].
  intros [Hab Hrest]. split; [|apply IH, Hrest].
  destruct rest; [exact I | apply HR, Hab].
Qed.

Lemma adjacent_map {A B : Type} (f : A -> B) (R : B -> B -> Prop) (l : list A) :
  adjacent (fun a b => R (f a) (f b)) l -> adjacent R (map f l).
Proof.
  induction l as [|a rest IH]; cbn; [auto|].
  intros [Hab Hrest]. split; [|apply IH, Hrest].
  destruct rest; [exact I | exact Hab].
Qed.

Lemma adjacent_rev_append {A : Type} (R : A -> A -> Prop) (l : list A) :
  forall acc,
    adjacent R l -> adjacent (fun a b => R b a) acc ->
    match l, acc with
    | a :: _, c :: _ => R c a
    | _, _ => True
    end ->
    adjacent (fun a b => R b a) (rev_append l acc).
Proof.
  induction l as [|a rest IH]; intros acc Hl Hacc Hjoin.
  - exact Hacc.
  - cbn [rev_append]. destruct Hl as [Hab Hrest]. apply IH.
    + exact Hrest.
    + cbn. split; [|exact Hacc]. destruct acc; [exact I | exact Hjoin].
    + destruct rest; [exact I | exact Hab].
Qed.

Lemma adjacent_rev {A : Type} (R : A -> A -> Prop) (l : list A) :
  adjacent R l -> adjacent (fun a b => R b a) (rev l).
Proof.
  intros Hl. rewrite rev_alt. apply adjacent_rev_append; [exact Hl | exact I |].
  destruct l; exact I.
Qed.

Lemma pair_lt_asym (x y : Q * Z) : pair_lt y x = true -> pair_lt x y = false.
Proof.
  unfold pair_lt. intros Hyx.
  apply orb_true_iff in Hyx. apply orb_false_iff.
  destruct Hyx as [Hlt | Hyx].
  - apply Qltb_true in Hlt. split.
    + apply Qltb_false. lra.
    + apply andb_false_iff. left. apply negb_false_iff, Qltb_true, Hlt.
  - apply andb_true_iff in Hyx. destruct Hyx as [Hnlt Hsnd].
    apply negb_true_iff in Hnlt. split; [exact Hnlt|].
    apply andb_false_iff. right. apply Z.ltb_lt in Hsnd. apply Z.ltb_ge. lia.
Qed.

Lemma insert_sorted_ascending (x : Q * Z) (l : list (Q * Z)) :
  adjacent (fun a b => pair_lt b a = false) l ->
  adjacent (fun a b => pair_lt b a = false) (insert_sorted x l).
Proof.
  induction l as [|y rest IH]; intros Hl.
  - cbn. auto.
  - cbn [insert_sorted]. destruct (pair_lt y x) eqn:E.
    + destruct Hl as [Hyb Hrest]. specialize (IH Hrest).
      cbn [adjacent]. split; [|exact IH].
      destruct rest as [|b rest'].
      * cbn. apply pair_lt_asym, E.
      * cbn [insert_sorted]. destruct (pair_lt b x); [exact Hyb|].
        apply pair_lt_asym, E.
    + cbn [adjacent]. split; [exact E|]. exact Hl.
Qed.

Lemma stable_sort_ascending (l : list (Q * Z)) :
  adjacent (fun a b => pair_lt b a = false) (stable_sort l).
Proof.
  induction l as [|x rest IH]; cbn [stable_sort]; [exact I|].
  apply insert_sorted_ascending, IH.
Qed.

Lemma stable_sort_reversed_descending (l : list (Q * Z)) :
  adjacent (fun a b => (fst b <= fst a)%Q) (stable_sort_reversed l).
Proof.
  unfold stable_sort_reversed.
  apply adjacent_impl with (R := fun a b => pair_lt a b = false).
  - intros a b Hab. unfold pair_lt in Hab. apply orb_false_iff in Hab.
    apply Qltb_false, Hab.
  - apply (adjacent_rev (fun a b => pair_lt b a = false)), stable_sort_ascending.
Qed.

Section ExpansionMore.

Context {Board : Type} `{Collaborators Board}.
Variable kNumIntersections : nat.
Variable param_ : Parameters.
Variable network_GetOutput : GameState Board -> Q -> NetworkResult.
Variable config_IsLegal : Z -> Color -> Z -> bool.
Variable GetBlackRolloutResult : GameState Board -> list Q -> Q * Q * list Q.

Local Abbreviation Expand :=
  (ExpandChildren kNumIntersections param_ network_GetOutput config_IsLegal
     GetBlackRolloutResult).

(** X6. After a successful expansion the children are stored with their
    priors in descending order, and none of them is inflated. *)
Theorem ExpandChildren_sorted (state : GameState Board) (evals : NodeEvals)
    (is_root : bool) (n : Node) :
  HaveChildren n = false ->
  expand_state_ n = ExpandState.kInitial ->
  children_ n = [] ->
  0 < Game.GetNumIntersections state ->
  exists n' evals',
    Expand state evals is_root n = Some (true, n', evals')
    /\ policy_descending (children_ n')
    /\ Forall (fun child => edge_node child = None) (children_ n').
Proof.
  intros Hc Hs Hnil HN.
  destruct (ExpandChildren_runs kNumIntersections param_ network_GetOutput
              config_IsLegal GetBlackRolloutResult state evals is_root n Hc Hs HN)
    as (n' & evals' & Hrun).
  destruct (ExpandChildren_steps _ _ _ _ _ _ _ _ _ _ _ Hrun)
    as (_ & _ & _ & _ & raw & candidates & legal & hashes & nodelist & total
        & normalized & _ & _ & _ & _ & Hchildren).
  exists n', evals'. split; [exact Hrun|].
  rewrite Hnil in Hchildren. cbn [app] in Hchildren. rewrite Hchildren. split.
  - unfold policy_descending. apply adjacent_map. cbn [edge_policy].
    apply stable_sort_reversed_descending.
  - apply Forall_forall. intros child Hin. apply in_map_iff in Hin.
    destruct Hin as (node & <- & _). reflexivity.
Qed.

Local Abbreviation NetOutput :=
  (ApplyNetOutput kNumIntersections param_ GetBlackRolloutResult).

(** The first loop of [ApplyNetOutput] over the indices [s, s+k): the
    ownership means it passes are set to zero. *)
Lemma clear_ownership_loop (raw : NetworkResult) (color : Color) (k : nat) :
  forall (s : nat) (own avg : list Q),
    (s + k <= length avg)%nat ->
    let r :=
      for_loop (seq s k)
        (fun idx '(black_ownership, avg) =>
           let owner := nth idx (ownership raw) 0%Q in
           let owner := if Color_eqb color kWhite then (0 - owner)%Q else owner in
           (array_set black_ownership idx owner, array_set avg idx 0%Q))
        (own, avg) in
    length (snd r) = length avg
    /\ forall idx,
         nth idx (snd r) 0%Q
         = if ((s <=? idx) && (idx <? s + k))%nat then 0%Q else nth idx avg 0%Q.
Proof.
  unfold for_loop. induction k as [|k IH]; intros s own avg Hlen.
  - cbn [seq fold_left snd]. split; [reflexivity|]. intros idx.
    destruct (s <=? idx)%nat eqn:E1; cbn [andb]; [|reflexivity].
    destruct (idx <? s + 0)%nat eqn:E2; [|reflexivity].
    apply Nat.leb_le in E1. apply Nat.ltb_lt in E2. lia.
  - cbn [seq fold_left].
    destruct (IH (S s) (array_set own s
                          (if Color_eqb color kWhite
                           then (0 - nth s (ownership raw) 0)%Q
                           else nth s (ownership raw) 0%Q))
                (array_set avg s 0%Q)) as (Hlen' & Hnth).
    { rewrite length_array_set. lia. }
    split.
    { rewrite Hlen'. apply length_array_set. }
    intros idx. rewrite Hnth.
    destruct (Nat.eq_dec idx s) as [->|Hne].
    + replace ((S s <=? s)%nat) with false by (symmetry; apply Nat.leb_gt; lia).
      rewrite Nat.leb_refl.
      replace ((s <? s + S k)%nat) with true by (symmetry; apply Nat.ltb_lt; lia).
      cbn [andb]. apply nth_array_set_same. lia.
    + rewrite (nth_array_set_other avg s idx) by congruence.
      destruct (Nat.leb_spec (S s) idx), (Nat.leb_spec s idx),
        (Nat.ltb_spec idx (S s + k)), (Nat.ltb_spec idx (s + S k));
        cbn [andb]; try reflexivity; lia.
Qed.

Lemma nth_ext_zero (l : list Q) (k : nat) :
  length l = k -> (forall idx, (idx < k)%nat -> nth idx l 0%Q = 0%Q) ->
  l = repeat 0%Q k.
Proof.
  revert k. induction l as [|x rest IH]; intros k Hlen Hnth.
  - cbn in Hlen. subst. reflexivity.
  - destruct k as [|k]; [discriminate|]. cbn [repeat]. f_equal.
    + apply (Hnth 0%nat). lia.
    + apply IH; [cbn in Hlen; lia|]. intros idx Hidx. apply (Hnth (S idx)). lia.
Qed.

(** What [ApplyNetOutput] writes and what it leaves. *)
Lemma ApplyNetOutput_values (state : GameState Board) (raw : NetworkResult)
    (evals : NodeEvals) (color : Color) (n : Node) :
  let n' := fst (NetOutput state raw evals color n) in
  let evals' := snd (NetOutput state raw evals color n) in
  black_wl evals' = black_wl_ n'
  /\ draw evals' = snd (fst (wdl raw))
  /\ (no_dcnn param_ = false ->
      black_wl_ n'
      = (if Color_eqb color kWhite
         then (1 - side_to_move_winrate param_ raw)%Q
         else side_to_move_winrate param_ raw)
      /\ black_final_score evals'
         = (if Color_eqb color kWhite then (0 - final_score raw)%Q else final_score raw))
  /\ (length (avg_black_ownership_ n) = kNumIntersections ->
      avg_black_ownership_ n' = repeat 0%Q kNumIntersections)
  /\ vertex_ n' = vertex_ n /\ policy_ n' = policy_ n
  /\ score_bouns_ n' = score_bouns_ n /\ visits_ n' = visits_ n
  /\ running_threads_ n' = running_threads_ n
  /\ squared_eval_diff_ n' = squared_eval_diff_ n
  /\ accumulated_black_wl_ n' = accumulated_black_wl_ n
  /\ accumulated_draw_ n' = accumulated_draw_ n
  /\ accumulated_black_fs_ n' = accumulated_black_fs_ n
  /\ status_ n' = status_ n.
Proof.
  unfold ApplyNetOutput, side_to_move_winrate.
  destruct (wdl raw) as [[wdl0 wdl1] wdl2].
  pose proof (clear_ownership_loop raw color kNumIntersections 0
                (repeat 0%Q kNumIntersections)
                (avg_black_ownership_
                   (set_black_wl n
                      (if Color_eqb color kWhite
                       then (1 - (if use_stm_winrate param_ then stm_winrate raw
                                  else (wdl0 - wdl2 + 1) / 2))%Q
                       else if use_stm_winrate param_ then stm_winrate raw
                            else ((wdl0 - wdl2 + 1) / 2)%Q)))) as Hloop.
  cbv zeta in Hloop. cbn [set_black_wl avg_black_ownership_] in Hloop.
  cbn [set_black_wl avg_black_ownership_].
  destruct (for_loop _ _ _) as [own avg]. cbn [snd] in Hloop.
  assert (Havg : length (avg_black_ownership_ n) = kNumIntersections ->
                 avg = repeat 0%Q kNumIntersections).
  { intros Hlen. destruct Hloop as (Hlen' & Hnth); [lia|].
    apply nth_ext_zero; [lia|]. intros idx Hidx. rewrite Hnth.
    replace ((0 <=? idx)%nat) with true by (symmetry; apply Nat.leb_le; lia).
    replace ((idx <? 0 + kNumIntersections)%nat) with true
      by (symmetry; apply Nat.ltb_lt; lia).
    reflexivity. }
  destruct (use_rollout param_ || no_dcnn param_).
  - destruct (GetBlackRolloutResult state own) as [[res score] own'].
    destruct (no_dcnn param_); cbn; repeat split; auto; discriminate.
  - cbn. repeat split; auto.
Qed.

(** The node and the evals that a successful expansion returns. *)
Lemma ExpandChildren_result (state : GameState Board) (evals : NodeEvals)
    (is_root : bool) (n n' : Node) (evals' : NodeEvals) :
  Expand state evals is_root n = Some (true, n', evals') ->
  exists raw normalized,
    expansion_result kNumIntersections param_ network_GetOutput state is_root = Some raw
    /\ let r :=
         NetOutput state raw evals (Game.GetToMove state)
           (set_color (set_expand_state n ExpandState.kExpanding)
              (Game.GetToMove state)) in
       evals' = snd r /\ n' = ExpandDone (LinkNodeList normalized (fst r)).
Proof.
  unfold ExpandChildren, expansion_result.
  destruct (HaveChildren n) eqn:Hc; [discriminate|].
  unfold AcquireExpanding.
  destruct (expand_state_ n) eqn:Hs; cbn [negb]; try discriminate.
  cbn [set_color color_].
  match goal with
  | |- context [bind ?m _] => destruct m as [raw|] eqn:Hraw; [|discriminate]
  end.
  cbn [bind].
  destruct (NetOutput state raw evals (Game.GetToMove state) _) as [n1 evals1] eqn:Hnet.
  destruct (gather_candidates _ _ _ _ _) as [[candidates legal] hashes].
  destruct (add_pass _ raw candidates legal) as [nodelist total].
  destruct (normalize nodelist total) as [normalized|]; [|discriminate].
  cbn [bind]. intros E. injection E as <- <-.
  exists raw, normalized. split; [reflexivity|]. cbv zeta.
  rewrite Hnet. cbn [fst snd]. split; reflexivity.
Qed.

(** X7. With the network as evaluator, a successful expansion stores the
    values in Black's perspective: for White to move the win rate of the
    side to move is complemented and the final score negated, for Black both
    are taken as they are; the node keeps the same win rate, and reading it
    back for the side to move returns the network's value. *)
Theorem ExpandChildren_black_perspective (state : GameState Board)
    (evals : NodeEvals) (is_root : bool) (n : Node) :
  HaveChildren n = false ->
  expand_state_ n = ExpandState.kInitial ->
  0 < Game.GetNumIntersections state ->
  no_dcnn param_ = false ->
  Game.GetToMove state = kBlack \/ Game.GetToMove state = kWhite ->
  let raw :=
    network_GetOutput state
      (if is_root then root_policy_temp param_ else policy_temp param_) in
  let white := Color_eqb (Game.GetToMove state) kWhite in
  exists n' evals',
    Expand state evals is_root n = Some (true, n', evals')
    /\ black_wl evals'
       = (if white then (1 - side_to_move_winrate param_ raw)%Q
          else side_to_move_winrate param_ raw)
    /\ black_final_score evals'
       = (if white then (0 - final_score raw)%Q else final_score raw)
    /\ draw evals' = snd (fst (wdl raw))
    /\ black_wl_ n' = black_wl evals'
    /\ (GetNetWL n' (Game.GetToMove state) == side_to_move_winrate param_ raw)%Q.
Proof.
  intros Hc Hs HN Hdcnn Hcolor raw white.
  destruct (ExpandChildren_runs kNumIntersections param_ network_GetOutput
              config_IsLegal GetBlackRolloutResult state evals is_root n Hc Hs HN)
    as (n' & evals' & Hrun).
  destruct (ExpandChildren_result _ _ _ _ _ _ Hrun) as (raw' & normalized & Hraw & Hres).
  unfold expansion_result in Hraw. rewrite Hdcnn in Hraw. cbn [andb] in Hraw.
  injection Hraw as <-. fold raw in Hres. cbv zeta in Hres.
  destruct Hres as (-> & ->).
  pose proof (ApplyNetOutput_values state raw evals (Game.GetToMove state)
                (set_color (set_expand_state n ExpandState.kExpanding)
                   (Game.GetToMove state))) as Hval.
  cbv zeta in Hval.
  destruct Hval as (Hwl & Hdraw & Hdc & _).
  destruct (Hdc Hdcnn) as (Hnwl & Hfs).
  eexists. eexists. split; [exact Hrun|].
  fold white in Hnwl, Hfs.
  split; [rewrite Hwl; exact Hnwl|]. split; [exact Hfs|]. split; [exact Hdraw|].
  split.
  { cbn. symmetry. exact Hwl. }
  unfold GetNetWL. cbn [ExpandDone LinkNodeList set_expand_state set_children black_wl_].
  rewrite Hnwl. unfold white.
  destruct Hcolor as [-> | ->]; cbn; ring.
Qed.

(** X8. A successful expansion leaves the visit statistics, the status and
    the move of the node alone; it records the side to move, ends Expanded
    and resets every ownership mean to zero. *)
Theorem ExpandChildren_keeps_statistics (state : GameState Board)
    (evals : NodeEvals) (is_root : bool) (n : Node) :
  HaveChildren n = false ->
  expand_state_ n = ExpandState.kInitial ->
  0 < Game.GetNumIntersections state ->
  length (avg_black_ownership_ n) = kNumIntersections ->
  exists n' evals',
    Expand state evals is_root n = Some (true, n', evals')
    /\ visits_ n' = visits_ n
    /\ squared_eval_diff_ n' = squared_eval_diff_ n
    /\ accumulated_black_wl_ n' = accumulated_black_wl_ n
    /\ accumulated_draw_ n' = accumulated_draw_ n
    /\ accumulated_black_fs_ n' = accumulated_black_fs_ n
    /\ running_threads_ n' = running_threads_ n
    /\ status_ n' = status_ n
    /\ vertex_ n' = vertex_ n /\ policy_ n' = policy_ n
    /\ score_bouns_ n' = score_bouns_ n
    /\ color_ n' = Game.GetToMove state
    /\ expand_state_ n' = ExpandState.kExpanded
    /\ avg_black_ownership_ n' = repeat 0%Q kNumIntersections.
Proof.
  intros Hc Hs HN Hlen.
  destruct (ExpandChildren_runs kNumIntersections param_ network_GetOutput
              config_IsLegal GetBlackRolloutResult state evals is_root n Hc Hs HN)
    as (n' & evals' & Hrun).
  destruct (ExpandChildren_steps _ _ _ _ _ _ _ _ _ _ _ Hrun)
    as (_ & _ & Hexp & Hcol & _).
  destruct (ExpandChildren_result _ _ _ _ _ _ Hrun) as (raw & normalized & _ & Hres).
  cbv zeta in Hres. destruct Hres as (_ & Hn').
  pose proof (ApplyNetOutput_values state raw evals (Game.GetToMove state)
                (set_color (set_expand_state n ExpandState.kExpanding)
                   (Game.GetToMove state))) as Hval.
  cbv zeta in Hval.
  destruct Hval as (_ & _ & _ & Havg & Hvx & Hpol & Hsb & Hv & Hrt & Hsq & Hwl
                    & Hdr & Hfs & Hst).
  exists n', evals'. split; [exact Hrun|].
  rewrite Hn'. cbn [ExpandDone LinkNodeList set_expand_state set_children
                    visits_ squared_eval_diff_ accumulated_black_wl_
                    accumulated_draw_ accumulated_black_fs_ running_threads_
                    status_ vertex_ policy_ score_bouns_ avg_black_ownership_].
  rewrite Hv, Hsq, Hwl, Hdr, Hfs, Hrt, Hst, Hvx, Hpol, Hsb.
  cbn [set_color set_expand_state visits_ squared_eval_diff_ accumulated_black_wl_
       accumulated_draw_ accumulated_black_fs_ running_threads_ status_ vertex_
       policy_ score_bouns_ avg_black_ownership_] in *.
  repeat (split; [reflexivity|]).
  split; [rewrite Hn' in Hcol; exact Hcol|].
  split; [rewrite Hn' in Hexp; exact Hexp|].
  apply Havg, Hlen.
Qed.

Lemma gather_without_candidate (state : GameState Board) (raw : NetworkResult) :
  no_candidate config_IsLegal state ->
  gather_candidates param_ config_IsLegal state (Game.GetToMove state) raw
  = ([], 0%Q, []).
Proof.
  intros Hnone. unfold gather_candidates.
  apply for_loop_invariant; [reflexivity|].
  intros idx st Hidx ->. apply in_seq in Hidx.
  unfold visit_intersection.
  rewrite (Hnone idx) by lia. reflexivity.
Qed.

(** X9. When no intersection is a candidate, a successful expansion stores
    exactly one child: the pass move, with prior 1, whatever prior the
    network gave to pass. *)
Theorem ExpandChildren_pass_only (state : GameState Board) (evals : NodeEvals)
    (is_root : bool) (n : Node) :
  HaveChildren n = false ->
  expand_state_ n = ExpandState.kInitial ->
  children_ n = [] ->
  0 < Game.GetNumIntersections state ->
  0 <= kPass < 2 ^ 16 ->
  no_candidate config_IsLegal state ->
  exists n' evals' prior,
    Expand state evals is_root n = Some (true, n', evals')
    /\ children_ n' = [mkEdge kPass prior None]
    /\ (prior == 1)%Q.
Proof.
  intros Hc Hs Hnil HN Hpass Hnone.
  destruct (ExpandChildren_runs kNumIntersections param_ network_GetOutput
              config_IsLegal GetBlackRolloutResult state evals is_root n Hc Hs HN)
    as (n' & evals' & Hrun).
  destruct (ExpandChildren_steps _ _ _ _ _ _ _ _ _ _ _ Hrun)
    as (_ & _ & _ & _ & raw & candidates & legal & hashes & nodelist & total
        & normalized & _ & Hgather & Hadd & Hnorm & Hchildren).
  rewrite (gather_without_candidate state raw Hnone) in Hgather.
  injection Hgather as <- <- <-.
  unfold add_pass in Hadd. cbn [length Nat.eqb] in Hadd.
  rewrite orb_true_r in Hadd. cbn [app] in Hadd. injection Hadd as <- <-.
  rewrite Hnil in Hchildren. cbn [app] in Hchildren.
  assert (Hto : to_uint16 kPass = kPass).
  { unfold to_uint16. apply Z.mod_small. exact Hpass. }
  unfold normalize in Hnorm.
  destruct (Qltb (0 + pass_probability raw) (1 # 100000000)) eqn:E.
  - cbn in Hnorm. injection Hnorm as <-.
    exists n', evals', (1 / inject_Z 1)%Q. split; [exact Hrun|]. split.
    + rewrite Hchildren. cbn. rewrite Hto. reflexivity.
    + reflexivity.
  - apply Qltb_false in E. cbn [map_policy fst snd] in Hnorm.
    rewrite fdiv_nonzero in Hnorm by lra. cbn [bind] in Hnorm.
    injection Hnorm as <-.
    exists n', evals', (pass_probability raw / (0 + pass_probability raw))%Q.
    split; [exact Hrun|]. split.
    + rewrite Hchildren. cbn. rewrite Hto. reflexivity.
    + field. lra.
Qed.

End ExpansionMore.

(** ** Children by vertex, root pruning again, and the first selection *)

Section ChildrenFacts.

Variable kNumIntersections : nat.

Lemma find_child_missing (vertex : Z) (children : list Edge) : forall idx,
  Forall (fun child => edge_vertex child <> vertex) children ->
  find_child kNumIntersections vertex children idx = (None, children).
Proof.
  induction children as [|child rest IH]; intros idx Hall; [reflexivity|].
  inversion Hall as [|? ? Hne Hrest]; subst. cbn [find_child].
  replace (vertex =? edge_vertex child) with false
    by (symmetry; apply Z.eqb_neq; congruence).
  rewrite (IH (S idx) Hrest). reflexivity.
Qed.

Lemma find_child_found (vertex : Z) (before : list Edge) (child : Edge)
    (after : list Edge) : forall idx,
  Forall (fun c => edge_vertex c <> vertex) before ->
  edge_vertex child = vertex ->
  find_child kNumIntersections vertex (before ++ child :: after) idx
  = (Some (idx + length before)%nat,
     before ++ Inflate kNumIntersections child :: after).
Proof.
  induction before as [|c rest IH]; intros idx Hall Hv.
  - cbn [app find_child length]. rewrite Hv, Z.eqb_refl, Nat.add_0_r. reflexivity.
  - inversion Hall as [|? ? Hne Hrest]; subst. cbn [app find_child length].
    replace (edge_vertex child =? edge_vertex c) with false
      by (symmetry; apply Z.eqb_neq; congruence).
    rewrite (IH (S idx) Hrest eq_refl). f_equal. f_equal. lia.
Qed.

Lemma erase_at_middle {A : Type} (before : list A) (x : A) (after : list A) :
  erase_at (before ++ x :: after) (length before) = before ++ after.
Proof.
  induction before as [|b rest IH]; cbn; [reflexivity|]. rewrite IH. reflexivity.
Qed.

(** X10. [PopChild] hands over the first child on the vertex and removes
    only its edge: the edges before and after stay as they are and in their
    order; the node is the one the edge owned, or a new one built from the
    edge's vertex and prior when the edge was not inflated.  With no child
    on the vertex it returns the null pointer and leaves the node as it
    was. *)
Theorem PopChild_spec (n : Node) (vertex : Z) :
  (Forall (fun child => edge_vertex child <> vertex) (children_ n) ->
   fst (PopChild kNumIntersections n vertex) = None
   /\ children_ (snd (PopChild kNumIntersections n vertex)) = children_ n)
  /\ (forall before child after,
        children_ n = before ++ child :: after ->
        Forall (fun c => edge_vertex c <> vertex) before ->
        edge_vertex child = vertex ->
        PopChild kNumIntersections n vertex
        = (Some (match edge_node child with
                 | Some node => node
                 | None => new_Node kNumIntersections (edge_vertex child)
                             (edge_policy child)
                 end),
           set_children n (before ++ after))).
Proof.
  split.
  - intros Hall. unfold PopChild, GetChild.
    rewrite (find_child_missing vertex _ 0 Hall). cbn. split; reflexivity.
  - intros before child after Hch Hall Hv. unfold PopChild, GetChild.
    rewrite Hch, (find_child_found vertex before child after 0 Hall Hv).
    cbn [Nat.add]. rewrite nth_error_app2 by lia. rewrite Nat.sub_diag.
    cbn [nth_error]. unfold Inflate at 1.
    destruct (edge_node child) as [node|] eqn:En.
    + rewrite En. cbn [set_children children_].
      assert (E : Inflate kNumIntersections child = child).
      { unfold Inflate. rewrite En. reflexivity. }
      rewrite E, erase_at_middle. reflexivity.
    + cbn [edge_node set_children children_]. rewrite erase_at_middle.
      reflexivity.
Qed.

End ChildrenFacts.

Section RootMore.

Context {Board : Type} `{Collaborators Board}.

Lemma KillRootSuperkos_filter (state : GameState Board) (n : Node) :
  children_ready (children_ n) ->
  KillRootSuperkos state n
  = Some (set_children n
            (filter (fun child => negb (is_superko_move state child)) (children_ n))).
Proof.
  intros Hready. unfold KillRootSuperkos.
  destruct (mark_superkos_spec state (children_ n) Hready)
    as (marked & Hmark & _ & Herase).
  rewrite Hmark. cbn [bind]. rewrite Herase. reflexivity.
Qed.

Lemma filter_idem {A : Type} (f : A -> bool) (l : list A) :
  filter f (filter f l) = filter f l.
Proof.
  induction l as [|a l IH]; [reflexivity|]. cbn [filter].
  destruct (f a) eqn:E; [|exact IH]. cbn [filter]. rewrite E, IH. reflexivity.
Qed.

Lemma children_ready_filter (f : Edge -> bool) (children : list Edge) :
  children_ready children -> children_ready (filter f children).
Proof.
  unfold children_ready. rewrite !Forall_forall. intros Hall child Hin.
  apply filter_In in Hin. apply Hall, Hin.
Qed.

(** X11. On a prepared root (children inflated and valid) the pruning of
    repeating moves never removes a pass child, and running it a second time
    on the same position changes nothing. *)
Theorem KillRootSuperkos_idempotent (state : GameState Board) (n : Node) :
  children_ready (children_ n) ->
  exists n',
    KillRootSuperkos state n = Some n'
    /\ KillRootSuperkos state n' = Some n'
    /\ (forall child, In child (children_ n) -> edge_vertex child = kPass ->
          In child (children_ n')).
Proof.
  intros Hready. eexists. split; [apply KillRootSuperkos_filter, Hready|].
  split.
  - rewrite KillRootSuperkos_filter.
    + destruct n. cbn [set_children children_]. rewrite filter_idem. reflexivity.
    + destruct n. cbn [set_children children_] in *.
      apply children_ready_filter, Hready.
  - intros child Hin Hpass. destruct n. cbn [set_children children_] in *.
    apply filter_In. split; [exact Hin|]. unfold is_superko_move.
    rewrite Hpass, Z.eqb_refl. reflexivity.
Qed.

End RootMore.

Section Selection.

Variable kNumIntersections : nat.

(** The loop of [ProbSelectChild] returns the first of the selectable
    children whose prior is the largest, provided one exceeds the start
    value. *)
Lemma prob_select_spec (children : list Edge) : forall idx best,
  let r := Best.prob_select children idx best in
  (snd best <= snd r)%Q
  /\ Forall (fun child => selectable child = true -> (select_prob child <= snd r)%Q)
       children
  /\ (r = best
      \/ exists k child,
           fst r = Some (idx + k)%nat
           /\ nth_error children k = Some child
           /\ selectable child = true
           /\ select_prob child = snd r
           /\ (snd best < snd r)%Q
           /\ forall j c, (j < k)%nat -> nth_error children j = Some c ->
                selectable c = true -> (select_prob c < snd r)%Q).
Proof.
  induction children as [|child rest IH]; intros idx best; cbv zeta.
  - cbn [Best.prob_select]. split; [apply Qle_refl|]. split; [constructor|].
    left. reflexivity.
  - cbn [Best.prob_select].
    assert (Hskip : match edge_node child with
                    | Some node => negb (IsActive node)
                    | None => false
                    end = negb (selectable child)).
    { unfold selectable. destruct (edge_node child); reflexivity. }
    rewrite Hskip.
    assert (Hprob : match edge_node child with
                    | Some node =>
                        if Best.IsExpanding node then (- (1) + edge_policy child)%Q
                        else edge_policy child
                    | None => edge_policy child
                    end = select_prob child) by reflexivity.
    rewrite Hprob.
    destruct (selectable child) eqn:Esel; cbn [negb].
    + destruct (Qltb (snd best) (select_prob child)) eqn:Elt.
      * apply Qltb_true in Elt.
        destruct (IH (S idx) (Some idx, select_prob child)) as (Hle & Hall & Hcase).
        cbn [snd] in Hle, Hcase.
        split; [apply Qlt_le_weak; eapply Qlt_le_trans; eassumption|].
        split; [constructor; [intros _; exact Hle | exact Hall]|].
        right. destruct Hcase as [E | (k & c & Hi & Hn & Hs & Hp & Hlt & Hbefore)].
        -- exists 0%nat, child. rewrite E. cbn [fst snd nth_error].
           rewrite Nat.add_0_r. repeat split; try assumption; try reflexivity.
           intros j c Hj. lia.
        -- exists (S k), c. cbn [nth_error].
           replace (idx + S k)%nat with (S idx + k)%nat by lia.
           repeat split; try assumption.
           ++ eapply Qlt_trans; eassumption.
           ++ intros [|j] c' Hj Hn' Hs'; cbn [nth_error] in Hn'.
              ** injection Hn' as <-. exact Hlt.
              ** apply (Hbefore j c'); [lia | assumption | assumption].
      * apply Qltb_false in Elt.
        destruct (IH (S idx) best) as (Hle & Hall & Hcase).
        split; [exact Hle|].
        split; [constructor; [intros _; eapply Qle_trans; eassumption | exact Hall]|].
        destruct Hcase as [E | (k & c & Hi & Hn & Hs & Hp & Hlt & Hbefore)];
          [left; exact E|].
        right. exists (S k), c. cbn [nth_error].
        replace (idx + S k)%nat with (S idx + k)%nat by lia.
        repeat split; try assumption.
        intros [|j] c' Hj Hn' Hs'; cbn [nth_error] in Hn'.
        -- injection Hn' as <-. eapply Qle_lt_trans; eassumption.
        -- apply (Hbefore j c'); [lia | assumption | assumption].
    + destruct (IH (S idx) best) as (Hle & Hall & Hcase).
      split; [exact Hle|].
      split; [constructor; [intros E; congruence | exact Hall]|].
      destruct Hcase as [E | (k & c & Hi & Hn & Hs & Hp & Hlt & Hbefore)];
        [left; exact E|].
      right. exists (S k), c. cbn [nth_error].
      replace (idx + S k)%nat with (S idx + k)%nat by lia.
      repeat split; try assumption.
      intros [|j] c' Hj Hn' Hs'; cbn [nth_error] in Hn'.
      * injection Hn' as <-. congruence.
      * apply (Hbefore j c'); [lia | assumption | assumption].
Qed.

Lemma ProbSelectChild_argmax (n : Node) :
  expand_state_ n = ExpandState.kExpanded ->
  Exists (fun child => selectable child = true
                       /\ (Best.FLT_LOWEST < select_prob child)%Q) (children_ n) ->
  exists idx child,
    nth_error (children_ n) idx = Some child
    /\ selectable child = true
    /\ Forall (fun c => selectable c = true -> (select_prob c <= select_prob child)%Q)
         (children_ n)
    /\ (forall j c, (j < idx)%nat -> nth_error (children_ n) j = Some c ->
          selectable c = true -> (select_prob c < select_prob child)%Q)
    /\ Best.ProbSelectChild kNumIntersections n
       = Some (match edge_node child with
               | Some node => node
               | None => new_Node kNumIntersections (edge_vertex child)
                           (edge_policy child)
               end,
               set_children n
                 (array_set (children_ n) idx (Inflate kNumIntersections child))).
Proof.
  intros Hs Hex.
  destruct (prob_select_spec (children_ n) 0 (None, Best.FLT_LOWEST))
    as (_ & Hall & Hcase).
  cbn [snd] in Hcase.
  destruct Hcase as [E | (k & child & Hi & Hn & Hsel & Hp & Hlt & Hbefore)].
  - exfalso. apply Exists_exists in Hex. destruct Hex as (c & Hin & Hc & Hlow).
    rewrite Forall_forall in Hall. specialize (Hall c Hin Hc).
    rewrite E in Hall. cbn [snd] in Hall.
    apply (Qlt_irrefl Best.FLT_LOWEST). eapply Qlt_le_trans; eassumption.
  - cbn [Nat.add] in Hi. exists k, child.
    split; [exact Hn|]. split; [exact Hsel|].
    split; [rewrite Hp; exact Hall|].
    split; [rewrite Hp; exact Hbefore|].
    unfold Best.ProbSelectChild, Best.WaitExpanded. rewrite Hs.
    cbn [ExpandState.eqb bind]. rewrite Hi. cbn [bind]. rewrite Hn. cbn [bind].
    unfold Inflate. destruct (edge_node child) as [node|] eqn:En.
    + rewrite En. reflexivity.
    + cbn [edge_node bind]. reflexivity.
Qed.

(** X12. On an expanded node with a selectable child (not yet a pointer, or
    active) whose prior exceeds the lowest float, [ProbSelectChild] returns
    the node of a selectable child, never a pruned or invalid one; no
    selectable child has a larger prior (lowered by one for a child that is
    being expanded), the ones before it have a smaller one, and only the
    edge of the selected child is inflated. *)
Theorem ProbSelectChild_spec (n : Node) :
  expand_state_ n = ExpandState.kExpanded ->
  Exists (fun child => selectable child = true
                       /\ (Best.FLT_LOWEST < select_prob child)%Q) (children_ n) ->
  exists idx child,
    nth_error (children_ n) idx = Some child
    /\ selectable child = true
    /\ Forall (fun c => selectable c = true -> (select_prob c <= select_prob child)%Q)
         (children_ n)
    /\ (forall j c, (j < idx)%nat -> nth_error (children_ n) j = Some c ->
          selectable c = true -> (select_prob c < select_prob child)%Q)
    /\ Best.ProbSelectChild kNumIntersections n
       = Some (match edge_node child with
               | Some node => node
               | None => new_Node kNumIntersections (edge_vertex child)
                           (edge_policy child)
               end,
               set_children n
                 (array_set (children_ n) idx (Inflate kNumIntersections child))).
Proof. exact (ProbSelectChild_argmax n). Qed.

Lemma adjacent_descending_head (first : Edge) (rest : list Edge) :
  policy_descending (first :: rest) ->
  Forall (fun c => (edge_policy c <= edge_policy first)%Q) rest.
Proof.
  revert first. induction rest as [|c rest IH]; intros first Hd; [constructor|].
  destruct Hd as (Hc & Hrest). constructor; [exact Hc|].
  specialize (IH c Hrest). eapply Forall_impl; [|exact IH].
  cbn beta. intros a Ha. eapply Qle_trans; eassumption.
Qed.

(** X13. Right after an expansion (children in descending order of prior,
    none inflated) [ProbSelectChild] descends into the first child: it
    returns a new node built from the first edge, inflates that edge and
    leaves the others as they are. *)
Theorem ProbSelectChild_after_expansion (n : Node) (first : Edge)
    (rest : list Edge) :
  expand_state_ n = ExpandState.kExpanded ->
  children_ n = first :: rest ->
  Forall (fun child => edge_node child = None) (children_ n) ->
  policy_descending (children_ n) ->
  (Best.FLT_LOWEST < edge_policy first)%Q ->
  Best.ProbSelectChild kNumIntersections n
  = Some (new_Node kNumIntersections (edge_vertex first) (edge_policy first),
          set_children n (Inflate kNumIntersections first :: rest)).
Proof.
  intros Hs Hch Hnone Hdesc Hlow.
  assert (Hfirst : edge_node first = None).
  { rewrite Hch in Hnone. inversion Hnone; assumption. }
  destruct (ProbSelectChild_argmax n Hs) as (idx & child & Hn & _ & _ & Hbefore & Hr).
  { rewrite Hch. apply Exists_cons_hd. unfold selectable, select_prob.
    rewrite Hfirst. split; [reflexivity | exact Hlow]. }
  assert (Hidx : idx = 0%nat).
  { destruct idx as [|idx]; [reflexivity|]. exfalso.
    assert (Hlt : (select_prob first < select_prob child)%Q).
    { apply (Hbefore 0%nat first); [lia | rewrite Hch; reflexivity |].
      unfold selectable. rewrite Hfirst. reflexivity. }
    rewrite Hch in Hn, Hnone, Hdesc. cbn [nth_error] in Hn.
    apply nth_error_In in Hn.
    pose proof (adjacent_descending_head first rest Hdesc) as Hall.
    rewrite Forall_forall in Hall. specialize (Hall child Hn).
    inversion Hnone as [|? ? _ Hrest]; subst.
    rewrite Forall_forall in Hrest. specialize (Hrest child Hn).
    unfold select_prob in Hlt. rewrite Hfirst, Hrest in Hlt.
    apply (Qlt_irrefl (edge_policy first)). eapply Qlt_le_trans; eassumption. }
  subst idx. rewrite Hch in Hn. cbn [nth_error] in Hn. injection Hn as <-.
  rewrite Hr, Hfirst, Hch. reflexivity.
Qed.

End Selection.

(** ** The noise at the root and the preparation of the root *)

Section NoiseFacts.

Variable gamma : Q -> nat -> Q.
Variable epsilon : Q.

Lemma fold_left_Qplus (l : list Q) (a : Q) :
  (fold_left Qplus l a == a + Qsum l)%Q.
Proof.
  revert a. induction l as [|x l IH]; intros a; cbn [fold_left Qsum fold_right].
  - ring.
  - rewrite IH. unfold Qsum. ring.
Qed.

Lemma Qsum_div (l : list Q) (s : Q) :
  (Qsum (map (fun v => v / s) l) == Qsum l / s)%Q.
Proof.
  induction l as [|x l IH]; cbn [map Qsum fold_right].
  - unfold Qdiv. ring.
  - fold (Qsum (map (fun v => (v / s)%Q) l)). fold (Qsum l). rewrite IH.
    unfold Qdiv. ring.
Qed.

Lemma write_noise_length (children : list Edge) : forall buffer dirichlet d',
  write_noise children buffer dirichlet = Some d' ->
  length d' = length dirichlet.
Proof.
  induction children as [|child rest IH]; intros [|v buffer] dirichlet d';
    cbn [write_noise]; try (intros E; injection E as <-; reflexivity).
  destruct ((0 <=? edge_vertex child)
            && (edge_vertex child <? Z.of_nat (length dirichlet))); [|discriminate].
  intros E. apply IH in E. rewrite E. apply length_array_set.
Qed.

Lemma write_noise_runs (children : list Edge) : forall buffer dirichlet,
  Forall (fun child => 0 <= edge_vertex child < Z.of_nat (length dirichlet)) children ->
  exists d', write_noise children buffer dirichlet = Some d'.
Proof.
  induction children as [|child rest IH]; intros [|v buffer] dirichlet Hall;
    cbn [write_noise]; try (eexists; reflexivity).
  inversion Hall as [|? ? Hc Hrest]; subst.
  replace ((0 <=? edge_vertex child)
           && (edge_vertex child <? Z.of_nat (length dirichlet))) with true
    by (symmetry; apply andb_true_iff; split; [apply Z.leb_le | apply Z.ltb_lt]; lia).
  apply IH. rewrite length_array_set. exact Hrest.
Qed.

(** What the writing loop leaves: the value of each child at its vertex, and
    the old entry everywhere else. *)
Lemma write_noise_spec (children : list Edge) : forall buffer dirichlet d',
  NoDup (map edge_vertex children) ->
  length buffer = length children ->
  write_noise children buffer dirichlet = Some d' ->
  map (fun child => nth_error d' (Z.to_nat (edge_vertex child))) children
  = map Some buffer
  /\ Forall (fun child => 0 <= edge_vertex child) children
  /\ forall i, ~ In i (map (fun child => Z.to_nat (edge_vertex child)) children) ->
       nth_error d' i = nth_error dirichlet i.
Proof.
  induction children as [|child rest IH]; intros [|v buffer] dirichlet d' Hnd Hlen;
    cbn [length] in Hlen; try discriminate.
  - cbn. intros E. injection E as <-. repeat split. constructor.
  - cbn [write_noise].
    destruct ((0 <=? edge_vertex child)
              && (edge_vertex child <? Z.of_nat (length dirichlet))) eqn:Ein;
      [|discriminate].
    apply andb_true_iff in Ein. destruct Ein as (H0 & H1).
    apply Z.leb_le in H0. apply Z.ltb_lt in H1.
    cbn [map] in Hnd. inversion Hnd as [|? ? Hnotin Hnd']; subst.
    intros Hrun.
    destruct (IH buffer _ d' Hnd' ltac:(lia) Hrun) as (Hmap & Hpos & Hother).
    split; [|split].
    + cbn [map]. f_equal; [|exact Hmap].
      rewrite Hother.
      * assert (Hi : (Z.to_nat (edge_vertex child) < length dirichlet)%nat) by lia.
        rewrite (nth_error_nth' _ 0%Q)
          by (rewrite length_array_set; exact Hi).
        rewrite nth_array_set_same by exact Hi. reflexivity.
      * intros Hin. apply in_map_iff in Hin. destruct Hin as (c & Hc & Hin).
        apply Hnotin. apply in_map_iff. exists c. split; [|exact Hin].
        rewrite Forall_forall in Hpos. specialize (Hpos c Hin). lia.
    + constructor; assumption.
    + intros i Hi. cbn [map In] in Hi.
      rewrite Hother by tauto.
      destruct (nth_error dirichlet i) as [x|] eqn:En.
      * assert (Hlt : (i < length dirichlet)%nat)
          by (apply nth_error_Some; congruence).
        rewrite (nth_error_nth' _ 0%Q) by (rewrite length_array_set; exact Hlt).
        rewrite nth_array_set_other by tauto.
        rewrite (nth_error_nth _ _ 0%Q En). reflexivity.
      * apply nth_error_None. rewrite length_array_set.
        apply nth_error_None. exact En.
Qed.

Lemma search_policies_spec (children : list Edge) : forall d' buffer,
  map (fun child => nth_error d' (Z.to_nat (edge_vertex child))) children
  = map Some buffer ->
  Forall (fun child => 0 <= edge_vertex child) children ->
  exists ps,
    search_policies epsilon d' children = Some ps
    /\ (Qsum ps == (1 - epsilon) * sum_policy children + epsilon * Qsum buffer)%Q.
Proof.
  induction children as [|child rest IH]; intros d' [|v buffer] Hmap Hpos;
    cbn [map] in Hmap; try discriminate.
  - exists []. split; [reflexivity|]. cbn. ring.
  - injection Hmap as Hv Hmap. inversion Hpos as [|? ? Hc Hrest]; subst.
    destruct (IH d' buffer Hmap Hrest) as (ps & Hps & Hsum).
    cbn [search_policies]. unfold GetSearchPolicy at 1.
    replace (0 <=? edge_vertex child) with true by (symmetry; apply Z.leb_le; lia).
    rewrite Hv. cbn [bind]. rewrite Hps. cbn [bind].
    eexists. split; [reflexivity|].
    cbn [Qsum fold_right sum_policy].
    fold (Qsum ps). fold (Qsum buffer). fold (sum_policy rest).
    rewrite Hsum. ring.
Qed.

(** X14. The noise mixes into the priors without changing their total: when
    the children's vertices are distinct and inside the noise array and the
    draws sum to at least the smallest normal float, [ApplyDirichletNoise]
    leaves an array of the same size whose entries at the children's
    vertices sum to 1 and whose other entries are 0, and the search policies
    [GetSearchPolicy(child, true)] sum to (1 - epsilon) * (sum of the
    priors) + epsilon; when the draws sum to less, the array is all zero. *)
Theorem ApplyDirichletNoise_spec (alpha : Q) (n : Node) (dirichlet : list Q) :
  NoDup (map edge_vertex (children_ n)) ->
  Forall (fun child => 0 <= edge_vertex child < Z.of_nat (length dirichlet))
    (children_ n) ->
  let samples := map (gamma alpha) (seq 0 (length (children_ n))) in
  exists d',
    ApplyDirichletNoise gamma alpha n dirichlet = Some d'
    /\ length d' = length dirichlet
    /\ ((Qsum samples < FLT_MIN)%Q -> d' = map (fun _ => 0%Q) dirichlet)
    /\ ((FLT_MIN <= Qsum samples)%Q ->
        (forall i, ~ In i (map (fun child => Z.to_nat (edge_vertex child))
                             (children_ n)) ->
           (i < length dirichlet)%nat -> nth_error d' i = Some 0%Q)
        /\ exists ps,
             search_policies epsilon d' (children_ n) = Some ps
             /\ (Qsum ps == (1 - epsilon) * sum_policy (children_ n) + epsilon)%Q).
Proof.
  intros Hnd Hrange samples. unfold ApplyDirichletNoise. fold samples.
  assert (Hsum : (fold_left Qplus samples 0 == Qsum samples)%Q).
  { rewrite fold_left_Qplus. ring. }
  destruct (Qltb (fold_left Qplus samples 0%Q) FLT_MIN) eqn:Elt.
  - apply Qltb_true in Elt. rewrite Hsum in Elt.
    eexists. split; [reflexivity|]. split; [apply length_map|].
    split; [reflexivity|]. intros Hge. exfalso.
    apply (Qlt_irrefl FLT_MIN). eapply Qle_lt_trans; eassumption.
  - apply Qltb_false in Elt. rewrite Hsum in Elt.
    set (s := fold_left Qplus samples 0%Q) in *.
    set (zero := map (fun _ : Q => 0%Q) dirichlet).
    assert (Hrange' : Forall (fun child => 0 <= edge_vertex child
                                           < Z.of_nat (length zero)) (children_ n)).
    { unfold zero. rewrite length_map. exact Hrange. }
    destruct (write_noise_runs (children_ n) (map (fun v => v / s)%Q samples) zero Hrange')
      as (d' & Hrun).
    exists d'. split; [exact Hrun|].
    split; [rewrite (write_noise_length _ _ _ _ Hrun); apply length_map|].
    split.
    { intros Hlt. exfalso. apply (Qlt_irrefl FLT_MIN).
      eapply Qle_lt_trans; eassumption. }
    intros _.
    destruct (write_noise_spec (children_ n) (map (fun v => v / s)%Q samples) zero d' Hnd)
      as (Hmap & Hpos & Hother);
      [unfold samples; rewrite !length_map, length_seq; reflexivity | exact Hrun |].
    split.
    + intros i Hi Hlen. rewrite (Hother i Hi). unfold zero.
      rewrite nth_error_map.
      destruct (nth_error dirichlet i) eqn:En; [reflexivity|].
      apply nth_error_None in En. lia.
    + destruct (search_policies_spec (children_ n) d' (map (fun v => v / s)%Q samples) Hmap Hpos)
        as (ps & Hps & Hq).
      exists ps. split; [exact Hps|]. rewrite Hq, Qsum_div.
      assert (Hs : ~ (s == 0)%Q).
      { intros E. rewrite Hsum in E. rewrite E in Elt. vm_compute in Elt.
        apply Elt. reflexivity. }
      rewrite <- Hsum. field. exact Hs.
Qed.

End NoiseFacts.

Section RootPreparationFacts.

Context {Board : Type} `{Collaborators Board}.
Variable kNumIntersections : nat.
Variable param_ : Parameters.
Variable network_GetOutput : GameState Board -> Q -> NetworkResult.
Variable config_IsLegal : Z -> Color -> Z -> bool.
Variable GetBlackRolloutResult : GameState Board -> list Q -> Q * Q * list Q.
Variable gamma : Q -> nat -> Q.
Variable param_dirichlet_noise : bool.
Variables param_dirichlet_factor param_dirichlet_init : Q.
Variable param_first_pass_bonus : bool.

Local Abbreviation Expand :=
  (ExpandChildren kNumIntersections param_ network_GetOutput config_IsLegal
     GetBlackRolloutResult).
Local Abbreviation Prepare :=
  (PrepareRootNode kNumIntersections param_ network_GetOutput config_IsLegal
     GetBlackRolloutResult gamma param_dirichlet_noise param_dirichlet_factor
     param_dirichlet_init param_first_pass_bonus).

Lemma map_policy_snd (f : Q -> option Q) (l : list (Q * Z)) : forall l',
  map_policy f l = Some l' -> map snd l' = map snd l.
Proof.
  induction l as [|node rest IH]; intros l'; cbn [map_policy].
  - intros E. injection E as <-. reflexivity.
  - destruct (f (fst node)) as [p|]; [|discriminate]. cbn [bind].
    destruct (map_policy f rest) as [rest'|]; [|discriminate]. cbn [bind].
    intros E. injection E as <-. cbn [map snd]. rewrite (IH rest' eq_refl).
    reflexivity.
Qed.

(** The children of a fresh expansion: no pointers yet, at least one child,
    and each on the pass vertex or on the vertex of an intersection. *)
Lemma expansion_children (state : GameState Board) (evals : NodeEvals)
    (is_root : bool) (n n' : Node) (evals' : NodeEvals) :
  Expand state evals is_root n = Some (true, n', evals') ->
  children_ n = [] ->
  children_ n' <> []
  /\ Forall
       (fun child =>
          edge_node child = None
          /\ (edge_vertex child = to_uint16 kPass
              \/ exists idx : nat,
                   Z.of_nat idx < Game.GetNumIntersections state
                   /\ edge_vertex child =
                      to_uint16
                        (Game.GetVertex state
                           (Z.rem (Z.of_nat idx) (Game.GetBoardSize state))
                           (Z.quot (Z.of_nat idx) (Game.GetBoardSize state)))))
       (children_ n').
Proof.
  intros Hrun Hnil.
  destruct (ExpandChildren_steps _ _ _ _ _ _ _ _ _ _ _ Hrun)
    as (_ & _ & _ & _ & raw & candidates & legal & hashes & nodelist & total
        & normalized & _ & Hgather & Hpass & Hnorm & Hchildren).
  rewrite Hnil in Hchildren. cbn [app] in Hchildren. rewrite Hchildren.
  assert (Hsnd : map snd normalized = map snd nodelist).
  { unfold normalize in Hnorm.
    destruct (Qltb total (1 # 100000000)); eapply map_policy_snd; exact Hnorm. }
  pose proof (stable_sort_reversed_perm normalized) as Hperm.
  split.
  - intros E. apply map_eq_nil in E. rewrite E in Hperm.
    apply Permutation_nil in Hperm. rewrite Hperm in Hsnd.
    apply (add_pass_nonempty _ _ _ _ _ _ Hpass).
    destruct nodelist; [reflexivity | discriminate].
  - apply Forall_forall. intros child Hin. apply in_map_iff in Hin.
    destruct Hin as (node & <- & Hin). cbn [edge_node edge_vertex].
    split; [reflexivity|].
    apply (Permutation_in _ Hperm) in Hin.
    apply (in_map snd) in Hin. rewrite Hsnd in Hin.
    apply in_map_iff in Hin. destruct Hin as (node' & Hv & Hin). rewrite <- Hv.
    assert (Hcase : In node' candidates \/ snd node' = kPass).
    { unfold add_pass in Hpass.
      destruct (negb _ || (length candidates =? 0)%nat);
        injection Hpass as <- <-; [|left; exact Hin].
      apply in_app_or in Hin. destruct Hin as [Hin | [<- | []]];
        [left; exact Hin | right; reflexivity]. }
    destruct Hcase as [Hc | ->]; [|left; reflexivity].
    right.
    destruct (gather_candidates_facts _ _ _ _ _ _ _ _ Hgather) as (_ & Hvert & _).
    destruct (Hvert node' Hc) as (idx & Hi & Hv'). exists idx.
    split; [exact Hi|]. rewrite Hv'. reflexivity.
Qed.

Lemma is_superko_move_Inflate (state : GameState Board) (child : Edge) :
  is_superko_move state (Inflate kNumIntersections child)
  = is_superko_move state child.
Proof.
  unfold is_superko_move, Inflate. destruct (edge_node child); reflexivity.
Qed.

Lemma filter_map_Inflate (state : GameState Board) (children : list Edge) :
  filter (fun child => negb (is_superko_move state child))
    (map (Inflate kNumIntersections) children)
  = map (Inflate kNumIntersections)
      (filter (fun child => negb (is_superko_move state child)) children).
Proof.
  induction children as [|child rest IH]; [reflexivity|]. cbn [map filter].
  rewrite is_superko_move_Inflate.
  destruct (is_superko_move state child); cbn [negb map]; rewrite IH; reflexivity.
Qed.

Lemma reset_bonuses_spec (children : list Edge) :
  children_ready children ->
  exists children',
    reset_bonuses param_first_pass_bonus children = Some children'
    /\ map edge_vertex children' = map edge_vertex children
    /\ map edge_policy children' = map edge_policy children
    /\ Forall
         (fun child =>
            exists node,
              edge_node child = Some node
              /\ IsValid node = true
              /\ score_bouns_ node = root_bonus param_first_pass_bonus child)
         children'.
Proof.
  induction 1 as [|child rest (node & Hnode & Hvalid) Hrest IH].
  - exists []. repeat split. constructor.
  - destruct IH as (rest' & Hrun & Hv & Hp & Hall).
    cbn [reset_bonuses]. unfold reset_bonus at 1. rewrite Hnode. cbn [bind].
    rewrite Hrun. cbn [bind]. eexists. split; [reflexivity|].
    cbn [map edge_vertex edge_policy]. rewrite Hv, Hp.
    split; [reflexivity|]. split; [reflexivity|].
    constructor; [|exact Hall].
    eexists. split; [reflexivity|]. unfold root_bonus. cbn [edge_vertex].
    destruct (param_first_pass_bonus && (edge_vertex child =? kPass));
      split; try exact Hvalid; reflexivity.
Qed.

Lemma ApplyDirichletNoise_runs (alpha : Q) (n : Node) (dirichlet : list Q) :
  Forall (fun child => 0 <= edge_vertex child < Z.of_nat (length dirichlet))
    (children_ n) ->
  exists d',
    ApplyDirichletNoise gamma alpha n dirichlet = Some d'
    /\ length d' = length dirichlet.
Proof.
  intros Hrange. unfold ApplyDirichletNoise.
  destruct (Qltb _ FLT_MIN).
  - eexists. split; [reflexivity | apply length_map].
  - match goal with
    | |- context [write_noise ?c ?b ?d] =>
        destruct (write_noise_runs c b d) as (d' & Hrun)
    end.
    + rewrite length_map. exact Hrange.
    + exists d'. split; [exact Hrun|].
      rewrite (write_noise_length _ _ _ _ Hrun). apply length_map.
Qed.

(** X15. Preparing a fresh root succeeds and leaves a root whose children
    are the children of the expansion, in their order and with their
    priors, without the moves that repeat a position; every child is
    inflated and valid; the root carries no score bonus and a child carries
    one half exactly when the first-pass bonus is on and the child is the
    pass, otherwise none.  With the noise on, the noise array has to cover
    the vertices. *)
Theorem PrepareRootNode_spec (state : GameState Board) (evals : NodeEvals)
    (n : Node) (dirichlet : list Q) :
  HaveChildren n = false ->
  expand_state_ n = ExpandState.kInitial ->
  children_ n = [] ->
  0 < Game.GetNumIntersections state ->
  (param_dirichlet_noise = true -> array_covers_vertices state (length dirichlet)) ->
  exists expanded evals' n' dirichlet',
    Expand state evals true n = Some (true, expanded, evals')
    /\ Prepare state evals n dirichlet = Some (true, n', evals', dirichlet')
    /\ map edge_vertex (children_ n')
       = map edge_vertex
           (filter (fun child => negb (is_superko_move state child))
              (children_ expanded))
    /\ map edge_policy (children_ n')
       = map edge_policy
           (filter (fun child => negb (is_superko_move state child))
              (children_ expanded))
    /\ Forall
         (fun child =>
            exists node,
              edge_node child = Some node
              /\ IsValid node = true
              /\ score_bouns_ node = root_bonus param_first_pass_bonus child)
         (children_ n')
    /\ score_bouns_ n' = 0%Q
    /\ expand_state_ n' = ExpandState.kExpanded
    /\ length dirichlet' = length dirichlet.
Proof.
  intros Hc Hs Hnil HN Hcover.
  destruct (ExpandChildren_runs kNumIntersections param_ network_GetOutput
              config_IsLegal GetBlackRolloutResult state evals true n Hc Hs HN)
    as (expanded & evals' & Hrun).
  destruct (expansion_children state evals true n expanded evals' Hrun Hnil)
    as (Hne & Hkids).
  destruct (ExpandChildren_steps _ _ _ _ _ _ _ _ _ _ _ Hrun)
    as (_ & _ & Hexp & _).
  assert (Hready : children_ready (children_ (InflateAllChildren kNumIntersections expanded))
                   /\ map edge_vertex (children_ (InflateAllChildren kNumIntersections expanded))
                      = map edge_vertex (children_ expanded)).
  { apply InflateAllChildren_ready. intros child node Hin Hnode.
    rewrite Forall_forall in Hkids. destruct (Hkids child Hin) as (Hnone & _).
    congruence. }
  destruct Hready as (Hready & Hverts).
  assert (Hnoise : exists dirichlet',
             (if param_dirichlet_noise
              then
                alpha <- fdiv (param_dirichlet_init * param_dirichlet_factor)%Q
                           (inject_Z (Z.of_nat (length (children_
                              (InflateAllChildren kNumIntersections expanded))))) ;;
                ApplyDirichletNoise gamma alpha
                  (InflateAllChildren kNumIntersections expanded) dirichlet
              else Some dirichlet) = Some dirichlet'
             /\ length dirichlet' = length dirichlet).
  { destruct param_dirichlet_noise; [|exists dirichlet; split; reflexivity].
    destruct (Hcover eq_refl) as (Hpass & Hboard).
    rewrite fdiv_nonzero.
    - cbn [bind]. apply ApplyDirichletNoise_runs.
      apply Forall_forall. intros child Hin.
      assert (Hv : In (edge_vertex child) (map edge_vertex (children_ expanded))).
      { rewrite <- Hverts. apply in_map. exact Hin. }
      apply in_map_iff in Hv. destruct Hv as (c & Hv & Hc').
      rewrite Forall_forall in Hkids. destruct (Hkids c Hc') as (_ & Hwhere).
      rewrite <- Hv.
      assert (Hlow : forall v, 0 <= to_uint16 v)
        by (intros v; unfold to_uint16; apply Z.mod_pos_bound; lia).
      destruct Hwhere as [-> | (idx & Hi & ->)].
      + split; [apply Hlow | exact Hpass].
      + split; [apply Hlow | apply Hboard; exact Hi].
    - apply inject_Z_nonzero.
      assert (Hlen : length (children_ (InflateAllChildren kNumIntersections expanded))
                     = length (children_ expanded)).
      { rewrite <- (length_map edge_vertex), Hverts. apply length_map. }
      rewrite Hlen. destruct (children_ expanded); [congruence | cbn [length]; lia]. }
  destruct Hnoise as (dirichlet' & Hnoise & Hdlen).
  pose proof (KillRootSuperkos_filter state _ Hready) as Hkill.
  set (kept := filter (fun child => negb (is_superko_move state child))
                 (children_ (InflateAllChildren kNumIntersections expanded))) in *.
  assert (Hkept : children_ready kept) by (apply children_ready_filter, Hready).
  destruct (reset_bonuses_spec kept Hkept) as (children' & Hreset & Hv & Hp & Hall).
  exists expanded, evals',
    (set_children
       (SetScoreBouns
          (set_children (InflateAllChildren kNumIntersections expanded) kept) 0)
       children'),
    dirichlet'.
  split; [exact Hrun|]. split.
  { unfold PrepareRootNode. rewrite Hrun. cbn [bind]. cbv zeta.
    rewrite Hnoise. cbn [bind]. rewrite Hkill. cbn [bind].
    cbn [SetScoreBouns set_children children_].
    cbn [SetScoreBouns set_children children_] in Hreset.
    rewrite Hreset. reflexivity. }
  cbn [set_children children_].
  assert (Hk : kept = map (Inflate kNumIntersections)
                        (filter (fun child => negb (is_superko_move state child))
                           (children_ expanded))).
  { unfold kept, InflateAllChildren. cbn [set_children children_].
    apply filter_map_Inflate. }
  assert (HI : forall l, map edge_vertex (map (Inflate kNumIntersections) l)
                         = map edge_vertex l
                         /\ map edge_policy (map (Inflate kNumIntersections) l)
                            = map edge_policy l).
  { intros l. rewrite !map_map. split; apply map_ext; intros c;
      unfold Inflate; destruct (edge_node c); reflexivity. }
  split; [rewrite Hv, Hk; apply HI|].
  split; [rewrite Hp, Hk; apply HI|].
  split; [exact Hall|].
  split; [reflexivity|].
  split; [|exact Hdlen].
  cbn [SetScoreBouns expand_state_]. unfold InflateAllChildren.
  cbn [set_children expand_state_]. exact Hexp.
Qed.

End RootPreparationFacts.

(** ** The game state: history, undo, resignation and komi *)

Section GameFacts.

Context {Board : Type} `{Collaborators Board}.

Lemma resize_exact {A : Type} (d : A) (l : list A) (k : nat) :
  length l = k -> resize d k l = l.
Proof.
  intros <-. unfold resize. rewrite firstn_all, Nat.sub_diag. cbn. apply app_nil_r.
Qed.

Lemma resize_drop_last {A : Type} (d x : A) (l : list A) (k : nat) :
  length l = k -> resize d k (l ++ [x]) = l.
Proof.
  intros <-. unfold resize. rewrite firstn_app, firstn_all, Nat.sub_diag, length_app.
  cbn [firstn length]. replace (length l - (length l + 1))%nat with 0%nat by lia.
  cbn. rewrite !app_nil_r. reflexivity.
Qed.

Lemma last_snoc {A : Type} (d x : A) (l : list A) : last (l ++ [x]) d = x.
Proof. apply last_last. Qed.

Lemma nth_error_last {A : Type} (l : list A) (d x : A) (k : nat) :
  length l = S k -> last l d = x -> nth_error l k = Some x.
Proof.
  intros Hlen Hlast.
  destruct (exists_last (l := l)) as (l' & y & ->);
    [intros ->; discriminate|].
  rewrite last_last in Hlast. subst y.
  rewrite length_app in Hlen. cbn [length] in Hlen.
  rewrite nth_error_app2 by lia.
  replace (k - length l')%nat with 0%nat by lia. reflexivity.
Qed.

(** The state after a legal move, under the invariant of the histories. *)
Lemma PlayMoveColor_legal (s : GameState Board) (vtx : Z) (color : Color) :
  history_ok s ->
  vtx <> kResign ->
  Game.IsLegalMove s vtx color = true ->
  Board_GetMoveNumber (Board_PlayMoveAssumeLegal (board_ s) vtx color)
  = Game.GetMoveNumber s + 1 ->
  let b := Board_PlayMoveAssumeLegal (board_ s) vtx color in
  Game.PlayMoveColor s vtx color
  = (true,
     mkGameState b (komi_integer_ s) (komi_half_ s) (komi_negative_ s)
       (komi_hash_ s) (ko_hash_history_ s ++ [wrap_int (Board_GetKoHash b)])
       (game_history_ s ++ [Some b]) (winner_ s)).
Proof.
  intros (H0 & Hk & Hg & _) Hres Hlegal Hnum b. unfold Game.PlayMoveColor.
  replace (vtx =? kResign) with false by (symmetry; apply Z.eqb_neq; exact Hres).
  rewrite Hlegal. cbv zeta. subst b. rewrite Hnum.
  replace (Z.to_nat (Game.GetMoveNumber s + 1))
    with (S (Z.to_nat (Game.GetMoveNumber s))) by lia.
  rewrite !resize_exact by assumption. reflexivity.
Qed.

(** X16. A legal move that is no resignation keeps the histories in step
    with the board (one entry per move, the last one the position on the
    board), and [UndoMove] after it gives back exactly the state before the
    move.  The rules board has to count the move. *)
Theorem PlayMove_UndoMove (s : GameState Board) (vtx : Z) (color : Color) :
  history_ok s ->
  vtx <> kResign ->
  Game.IsLegalMove s vtx color = true ->
  Board_GetMoveNumber (Board_PlayMoveAssumeLegal (board_ s) vtx color)
  = Game.GetMoveNumber s + 1 ->
  fst (Game.PlayMoveColor s vtx color) = true
  /\ history_ok (snd (Game.PlayMoveColor s vtx color))
  /\ GameOps.UndoMove (snd (Game.PlayMoveColor s vtx color)) = Some (true, s).
Proof.
  intros Hok Hres Hlegal Hnum.
  rewrite (PlayMoveColor_legal s vtx color Hok Hres Hlegal Hnum). cbn [fst snd].
  destruct Hok as (H0 & Hk & Hg & Hlk & Hlg & Hall).
  split; [reflexivity|]. split.
  - unfold history_ok, Game.GetMoveNumber, Game.GetKoHash.
    cbn [board_ ko_hash_history_ game_history_]. rewrite Hnum.
    rewrite !length_app, Hk, Hg, !last_snoc. cbn [length].
    split; [lia|]. split; [lia|]. split; [lia|].
    split; [reflexivity|]. split; [reflexivity|].
    apply Forall_app. split; [exact Hall|]. constructor; [discriminate | constructor].
  - unfold GameOps.UndoMove, Game.GetMoveNumber.
    cbn [board_ ko_hash_history_ game_history_ komi_integer_ komi_half_
         komi_negative_ komi_hash_ winner_].
    rewrite Hnum.
    replace (1 <=? Game.GetMoveNumber s + 1) with true
      by (symmetry; apply Z.leb_le; lia).
    replace (Z.to_nat (Game.GetMoveNumber s + 1))
      with (S (Z.to_nat (Game.GetMoveNumber s))) by lia.
    cbv zeta. rewrite !resize_drop_last by assumption.
    replace (Game.GetMoveNumber s + 1 - 1) with (Game.GetMoveNumber s) by lia.
    rewrite (nth_error_last _ None (Some (board_ s)) _ Hg Hlg). cbn [bind].
    destruct s; reflexivity.
Qed.



(** X18. A resignation is accepted whatever the position: the board and the
    histories stay, the opponent of the resigning colour has won, the game
    is over, and it stays over after [UndoMove], which takes back a move but
    never the result. *)
Theorem PlayMove_resign (s : GameState Board) (color : Color) :
  history_ok s ->
  let r := Game.PlayMoveColor s kResign color in
  fst r = true
  /\ board_ (snd r) = board_ s
  /\ ko_hash_history_ (snd r) = ko_hash_history_ s
  /\ game_history_ (snd r) = game_history_ s
  /\ GameOps.GetWinner (snd r)
     = (if Color_eqb color kBlack then kWhiteWon else kBlackWon)
  /\ GameOps.IsGameOver (snd r) = true
  /\ exists undone s',
       GameOps.UndoMove (snd r) = Some (undone, s')
       /\ GameOps.IsGameOver s' = true.
Proof.
  intros (H0 & Hk & Hg & Hlk & Hlg & Hall) r. unfold r, Game.PlayMoveColor.
  rewrite Z.eqb_refl. cbn [fst snd board_ ko_hash_history_ game_history_].
  assert (Hover : forall b kh gh,
             GameOps.IsGameOver
               (mkGameState b (komi_integer_ s) (komi_half_ s) (komi_negative_ s)
                  (komi_hash_ s) kh gh
                  (if Color_eqb color kBlack then kWhiteWon else kBlackWon)) = true).
  { intros b kh gh. unfold GameOps.IsGameOver. cbn [winner_].
    destruct (Color_eqb color kBlack); reflexivity. }
  split; [reflexivity|]. split; [reflexivity|]. split; [reflexivity|].
  split; [reflexivity|]. split; [reflexivity|]. split; [apply Hover|].
  unfold GameOps.UndoMove, Game.GetMoveNumber.
  cbn [board_ ko_hash_history_ game_history_ komi_integer_ komi_half_
       komi_negative_ komi_hash_ winner_].
  fold (Game.GetMoveNumber s).
  destruct (1 <=? Game.GetMoveNumber s) eqn:E.
  - apply Z.leb_le in E.
    assert (Hentry : exists b,
               nth_error (resize None (Z.to_nat (Game.GetMoveNumber s)) (game_history_ s))
                 (Z.to_nat (Game.GetMoveNumber s - 1)) = Some (Some b)).
    { unfold resize. rewrite Hg.
      replace (Z.to_nat (Game.GetMoveNumber s) - S (Z.to_nat (Game.GetMoveNumber s)))%nat
        with 0%nat by lia.
      cbn [repeat]. rewrite app_nil_r.
      destruct (nth_error (firstn (Z.to_nat (Game.GetMoveNumber s)) (game_history_ s))
                  (Z.to_nat (Game.GetMoveNumber s - 1))) as [entry|] eqn:En.
      - apply nth_error_In in En.
        pose proof (Forall_firstn _ (Z.to_nat (Game.GetMoveNumber s)) _ Hall) as Hall'.
        rewrite Forall_forall in Hall'. specialize (Hall' entry En).
        destruct entry as [b|]; [exists b; reflexivity | congruence].
      - apply nth_error_None in En. rewrite length_firstn, Hg in En. lia. }
    destruct Hentry as (b & Hentry). rewrite Hentry. cbn [bind].
    eexists. eexists. split; [reflexivity | apply Hover].
  - eexists. eexists. split; [reflexivity | apply Hover].
Qed.

End GameFacts.

Section KomiFacts.

Context {Board : Type} `{Collaborators Board}.
Variable Board_Reset : Board -> Z -> Board.
Variable IsSameKomi : Q -> Q -> bool.
Variable Zobrist_kKomi : list Z.
Variables Zobrist_kNegativeKomi Zobrist_kHalfKomi : Z.

Local Abbreviation SetKomi_ :=
  (GameOps.SetKomi IsSameKomi Zobrist_kKomi Zobrist_kNegativeKomi Zobrist_kHalfKomi).
Local Abbreviation Reset_ :=
  (GameOps.Reset Board_Reset IsSameKomi Zobrist_kKomi Zobrist_kNegativeKomi
     Zobrist_kHalfKomi).

Lemma float_to_int_komi (x : Q) (k : Z) (half : bool) :
  0 <= k <= INT_MAX ->
  (x == inject_Z k + (if half then 1 # 2 else 0))%Q ->
  GameOps.float_to_int x = Some k.
Proof.
  intros Hk Hx. unfold GameOps.float_to_int.
  assert (Hq : Z.quot (Qnum x) (Z.pos (Qden x)) = k).
  { destruct x as [p q]. cbn [Qnum Qden].
    assert (E : 2 * p = (2 * k + (if half then 1 else 0)) * Z.pos q).
    { destruct half; unfold Qeq, Qplus, inject_Z in Hx; cbn [Qnum Qden] in Hx; lia. }
    rewrite Z.quot_div_nonneg by (destruct half; nia).
    symmetry. apply (Z.div_unique _ _ _ (p - k * Z.pos q)); [|lia].
    left. destruct half; nia. }
  rewrite Hq.
  replace ((INT_MIN <=? k) && (k <=? INT_MAX)) with true; [reflexivity|].
  symmetry. apply andb_true_iff. unfold INT_MIN, INT_MAX in *.
  split; [apply Z.leb_le | apply Z.leb_le]; lia.
Qed.

Lemma SetKomi_accepts (s : GameState Board) (komi : Q) (k : Z) (half : bool) :
  (forall x y, (x == y)%Q -> IsSameKomi x y = true) ->
  (forall x, (x == 1 # 2)%Q -> IsSameKomi x 0 = false) ->
  0 <= k <= INT_MAX ->
  (Z.to_nat k < length Zobrist_kKomi)%nat ->
  (Qabs komi == inject_Z k + (if half then 1 # 2 else 0))%Q ->
  exists hash,
    SetKomi_ s komi
    = Some (mkGameState (board_ s) k half (Qltb komi 0) hash
              (ko_hash_history_ s) (game_history_ s) (winner_ s))
    /\ (Game.GetKomi
          (mkGameState (board_ s) k half (Qltb komi 0) hash
             (ko_hash_history_ s) (game_history_ s) (winner_ s)) == komi)%Q.
Proof.
  intros Hsame Hhalf Hk Hlen Hkomi. unfold GameOps.SetKomi.
  assert (Habs : ((if Qltb komi 0 then - komi else komi) == Qabs komi)%Q).
  { destruct (Qltb komi 0) eqn:E.
    - apply Qltb_true in E. symmetry. apply Qabs_neg. apply Qlt_le_weak, E.
    - apply Qltb_false in E. symmetry. apply Qabs_pos, E. }
  rewrite (float_to_int_komi _ k half Hk) by (rewrite Habs; exact Hkomi).
  cbn [bind].
  assert (Hstore : forall negative h,
             exists hash,
               GameOps.store_komi Zobrist_kKomi Zobrist_kNegativeKomi
                 Zobrist_kHalfKomi s negative h k
               = Some (mkGameState (board_ s) k h negative hash
                         (ko_hash_history_ s) (game_history_ s) (winner_ s))).
  { intros negative h. unfold GameOps.store_komi.
    replace (k <? 0) with false by (symmetry; apply Z.ltb_ge; lia).
    destruct (nth_error Zobrist_kKomi (Z.to_nat k)) as [key|] eqn:En.
    - cbn [bind]. eexists. reflexivity.
    - apply nth_error_None in En. lia. }
  assert (Hvalue : forall hash,
             (Game.GetKomi
                (mkGameState (board_ s) k half (Qltb komi 0) hash
                   (ko_hash_history_ s) (game_history_ s) (winner_ s)) == komi)%Q).
  { intros hash. unfold Game.GetKomi.
    cbn [komi_integer_ komi_half_ komi_negative_].
    rewrite <- Habs in Hkomi.
    destruct (Qltb komi 0); destruct half; lra. }
  destruct half.
  - rewrite Hhalf by (rewrite Habs, Hkomi; ring).
    rewrite Hsame by (rewrite Habs, Hkomi; ring).
    destruct (Hstore (Qltb komi 0) true) as (hash & ->).
    exists hash. split; [reflexivity | apply Hvalue].
  - rewrite Hsame by (rewrite Habs, Hkomi; ring).
    destruct (Hstore (Qltb komi 0) false) as (hash & ->).
    exists hash. split; [reflexivity | apply Hvalue].
Qed.

(** X19. [SetKomi] followed by [GetKomi] gives the komi back: for a komi
    that is a whole number of points or a half more, of either sign, within
    the komi table, the parts are stored as given, the board, the histories
    and the winner stay, and [GetKomi] returns the komi.  [IsSameKomi] has
    to tell the fractions 0 and 1/2 apart. *)
Theorem SetKomi_GetKomi (s : GameState Board) (komi : Q) (k : Z) (half : bool) :
  (forall x y, (x == y)%Q -> IsSameKomi x y = true) ->
  (forall x, (x == 1 # 2)%Q -> IsSameKomi x 0 = false) ->
  0 <= k <= INT_MAX ->
  (Z.to_nat k < length Zobrist_kKomi)%nat ->
  (Qabs komi == inject_Z k + (if half then 1 # 2 else 0))%Q ->
  exists s',
    SetKomi_ s komi = Some s'
    /\ (Game.GetKomi s' == komi)%Q
    /\ komi_integer_ s' = k
    /\ komi_half_ s' = half
    /\ board_ s' = board_ s
    /\ ko_hash_history_ s' = ko_hash_history_ s
    /\ game_history_ s' = game_history_ s
    /\ winner_ s' = winner_ s.
Proof.
  intros Hsame Hhalf Hk Hlen Hkomi.
  destruct (SetKomi_accepts s komi k half Hsame Hhalf Hk Hlen Hkomi)
    as (hash & Hrun & Hvalue).
  eexists. split; [exact Hrun|]. split; [exact Hvalue|].
  repeat split.
Qed.

(** X20. [Reset] starts a game whose histories are in step with the board
    (one entry, the position on the board), that has no winner and no
    repeated position, and whose komi is the one given.  The rules board has
    to start at move number 0. *)
Theorem Reset_spec (s : GameState Board) (boardsize : Z) (komi : Q) (k : Z)
    (half : bool) :
  (forall x y, (x == y)%Q -> IsSameKomi x y = true) ->
  (forall x, (x == 1 # 2)%Q -> IsSameKomi x 0 = false) ->
  0 <= k <= INT_MAX ->
  (Z.to_nat k < length Zobrist_kKomi)%nat ->
  (Qabs komi == inject_Z k + (if half then 1 # 2 else 0))%Q ->
  Board_GetMoveNumber (Board_Reset (board_ s) boardsize) = 0 ->
  exists s',
    Reset_ s boardsize komi = Some s'
    /\ board_ s' = Board_Reset (board_ s) boardsize
    /\ history_ok s'
    /\ GameOps.GetWinner s' = kUndecide
    /\ Game.IsSuperko s' = false
    /\ (Game.GetKomi s' == komi)%Q.
Proof.
  intros Hsame Hhalf Hk Hlen Hkomi Hnum. unfold GameOps.Reset.
  destruct (SetKomi_accepts (GameOps.set_board s (Board_Reset (board_ s) boardsize))
              komi k half Hsame Hhalf Hk Hlen Hkomi) as (hash & Hrun & Hvalue).
  rewrite Hrun. cbn [bind]. eexists. split; [reflexivity|].
  cbn [board_ komi_integer_ komi_half_ komi_negative_ komi_hash_ GameOps.set_board].
  split; [reflexivity|]. split.
  - unfold history_ok, Game.GetMoveNumber, Game.GetKoHash.
    cbn [board_ ko_hash_history_ game_history_ length last]. rewrite Hnum.
    split; [lia|]. split; [reflexivity|]. split; [reflexivity|].
    split; [reflexivity|]. split; [reflexivity|].
    constructor; [discriminate | constructor].
  - split; [reflexivity|]. split; [reflexivity|]. exact Hvalue.
Qed.

End KomiFacts.

(** ** The Gumbel schedule *)

Section GumbelFacts.

Lemma for_loop_seq_invariant {St : Type} (P : nat -> St -> Prop)
    (body : nat -> St -> St) (len : nat) : forall (start : nat) (s : St),
  P start s ->
  (forall i s', (start <= i < start + len)%nat -> P i s' -> P (S i) (body i s')) ->
  P (start + len)%nat (for_loop (seq start len) body s).
Proof.
  unfold for_loop. induction len as [|len IH]; intros start s Hs Hstep.
  - rewrite Nat.add_0_r. exact Hs.
  - cbn [seq fold_left]. replace (start + S len)%nat with (S start + len)%nat by lia.
    apply IH.
    + apply Hstep; [lia | exact Hs].
    + intros i s' Hi. apply Hstep. lia.
Qed.

Lemma for_each_seq_invariant {St : Type} (P : nat -> St -> Prop)
    (body : nat -> St -> option St) (len : nat) : forall (start : nat) (s : St),
  P start s ->
  (forall i s', (start <= i < start + len)%nat -> P i s' ->
     exists s'', body i s' = Some s'' /\ P (S i) s'') ->
  exists s', for_each (seq start len) body s = Some s' /\ P (start + len)%nat s'.
Proof.
  induction len as [|len IH]; intros start s Hs Hstep.
  - exists s. rewrite Nat.add_0_r. split; [reflexivity | exact Hs].
  - cbn [seq for_each].
    destruct (Hstep start s ltac:(lia) Hs) as (s1 & Hbody & Hs1).
    rewrite Hbody. cbn [bind].
    replace (start + S len)%nat with (S start + len)%nat by lia.
    apply IH; [exact Hs1|]. intros i s' Hi. apply Hstep. lia.
Qed.

Lemma Zsum_array_set (l : list Z) : forall (i : nat) (x : Z),
  (i < length l)%nat ->
  Zsum (array_set l i x) = Zsum l - nth i l 0 + x.
Proof.
  induction l as [|h t IH]; intros [|i] x Hi; cbn [length] in Hi; try lia.
  - cbn. lia.
  - cbn [array_set Zsum fold_right nth]. fold (Zsum (array_set t i x)).
    fold (Zsum t). rewrite IH by lia. lia.
Qed.

Lemma nth_le_Zsum (l : list Z) : forall i : nat,
  Forall (fun v => 0 <= v) l -> 0 <= nth i l 0 <= Zsum l.
Proof.
  induction l as [|h t IH]; intros [|i] Hall; cbn [nth Zsum fold_right];
    try (cbn; lia); inversion Hall as [|? ? Hh Ht]; subst; fold (Zsum t).
  - pose proof (IH 0%nat Ht). lia.
  - pose proof (IH i Ht). lia.
Qed.

Lemma Forall_array_set {A : Type} (P : A -> Prop) (l : list A) : forall i x,
  Forall P l -> P x -> Forall P (array_set l i x).
Proof.
  induction l as [|h t IH]; intros [|i] x Hall Hx; cbn [array_set];
    try constructor; inversion Hall; subst; auto.
Qed.

Lemma bump_step (adj : Z) (j : nat) (count : Z) (table : list Z) :
  table_state adj count table ->
  Z.of_nat j < adj <= INT_MAX ->
  count < INT_MAX ->
  exists table',
    Gumbel.bump adj j table = Some table' /\ table_state adj (count + 1) table'.
Proof.
  intros (Hlen & Hpos & Hsum) Hj Hc. unfold Gumbel.bump, int_sub.
  unfold INT_MAX in *.
  rewrite (wrap_int_small (adj - Z.of_nat j)) by (unfold INT_MIN, INT_MAX; lia).
  rewrite (wrap_int_small (adj - Z.of_nat j - 1)) by (unfold INT_MIN, INT_MAX; lia).
  replace ((0 <=? adj - Z.of_nat j - 1)
           && (adj - Z.of_nat j - 1 <? Z.of_nat (length table))) with true
    by (symmetry; apply andb_true_iff; split; [apply Z.leb_le | apply Z.ltb_lt]; lia).
  eexists. split; [reflexivity|].
  pose proof (nth_le_Zsum table (Z.to_nat (adj - Z.of_nat j - 1)) Hpos) as Hn.
  unfold int_add. rewrite wrap_int_small by (unfold INT_MIN, INT_MAX; lia).
  split; [rewrite length_array_set; exact Hlen|]. split.
  - apply Forall_array_set; [exact Hpos | lia].
  - rewrite Zsum_array_set by lia. lia.
Qed.

Lemma fill_table_spec (n : Z) :
  1 <= n <= 27 ->
  exists table,
    Gumbel.fill_table n (2 ^ (n - 1)) = Some table
    /\ table_state (2 ^ (n - 1)) (n * 2 ^ (n - 1)) table.
Proof.
  intros Hn. unfold Gumbel.fill_table.
  set (adj := 2 ^ (n - 1)).
  assert (Hadj : 1 <= adj <= 2 ^ 26).
  { unfold adj. split.
    - apply (Z.pow_le_mono_r 2 0); lia.
    - apply Z.pow_le_mono_r; lia. }
  assert (Htotal : n * adj <= 27 * 2 ^ 26) by nia.
  change (2 ^ 26) with 67108864 in *.
  pose (P := fun (i : nat) (st : Z * Z * list Z) =>
               let '(r, w, table) := st in
               r = 2 ^ Z.of_nat i
               /\ w = 2 ^ (n - 1 - Z.of_nat i)
               /\ table_state adj (Z.of_nat i * adj) table).
  destruct (for_each_seq_invariant P
              (fun _ '(r, w, table) =>
                 table <- for_each (seq 0 (Z.to_nat w))
                            (fun j table =>
                               for_each (seq 0 (Z.to_nat r))
                                 (fun _ table => Gumbel.bump adj j table) table)
                            table ;;
                 Some (int_mul r 2, Z.quot w 2, table))
              (Z.to_nat n) 0%nat (1, adj, repeat 0 (Z.to_nat adj)))
    as (((r & w) & table) & Hrun & Hr & Hw & Hstate).
  - unfold P. cbn [Z.of_nat]. rewrite Z.sub_0_r. fold adj.
    split; [reflexivity|]. split; [reflexivity|].
    split; [rewrite repeat_length; lia|]. split.
    + apply Forall_forall. intros v Hv. apply repeat_spec in Hv. lia.
    + cbn [Z.mul]. clear. induction (Z.to_nat adj) as [|k IH]; cbn; [reflexivity|].
      fold (Zsum (repeat 0 k)). rewrite IH. reflexivity.
  - intros i ((r & w) & table) Hi (Hr & Hw & Hstate). cbn [Nat.add] in Hi.
    assert (Hpow : 2 ^ Z.of_nat i * 2 ^ (n - 1 - Z.of_nat i) = adj).
    { unfold adj. rewrite <- Z.pow_add_r by lia. f_equal. lia. }
    assert (Hrpos : 1 <= r) by (rewrite Hr; apply (Z.pow_le_mono_r 2 0); lia).
    assert (Hwpos : 1 <= w) by (rewrite Hw; apply (Z.pow_le_mono_r 2 0); lia).
    assert (Hrw : r * w = adj) by (rewrite Hr, Hw; exact Hpow).
    destruct (for_each_seq_invariant
                (fun (j : nat) table =>
                   table_state adj (Z.of_nat i * adj + Z.of_nat j * r) table)
                (fun j table =>
                   for_each (seq 0 (Z.to_nat r))
                     (fun _ table => Gumbel.bump adj j table) table)
                (Z.to_nat w) 0%nat table) as (table1 & Hmid & Hstate1).
    + cbn [Z.of_nat]. rewrite Z.mul_0_l, Z.add_0_r. exact Hstate.
    + intros j tbl Hj Hst. cbn [Nat.add] in Hj.
      destruct (for_each_seq_invariant
                  (fun (k : nat) table =>
                     table_state adj
                       (Z.of_nat i * adj + Z.of_nat j * r + Z.of_nat k) table)
                  (fun _ table => Gumbel.bump adj j table)
                  (Z.to_nat r) 0%nat tbl) as (tbl1 & Hin & Hst1).
      * cbn [Z.of_nat]. rewrite Z.add_0_r. exact Hst.
      * intros k tbl' Hk Hst'. cbn [Nat.add] in Hk.
        destruct (bump_step adj j _ tbl' Hst') as (tbl'' & Hb & Hst'').
        -- unfold INT_MAX. nia.
        -- unfold INT_MAX. nia.
        -- exists tbl''. split; [exact Hb|].
           replace (Z.of_nat (S k)) with (Z.of_nat k + 1) by lia.
           rewrite Z.add_assoc. exact Hst''.
      * exists tbl1. split; [exact Hin|]. cbn [Nat.add] in Hst1.
        replace (Z.of_nat (S j) * r) with (Z.of_nat j * r + Z.of_nat (Z.to_nat r))
          by lia.
        rewrite Z.add_assoc. exact Hst1.
    + rewrite Hmid. cbn [bind]. eexists. split; [reflexivity|].
      unfold P. cbn [Nat.add] in Hstate1.
      split; [|split].
      * unfold int_mul. rewrite wrap_int_small by (unfold INT_MIN, INT_MAX; nia).
        rewrite Hr. replace (Z.of_nat (S i)) with (Z.of_nat i + 1) by lia.
        rewrite Z.pow_add_r by lia. reflexivity.
      * rewrite Hw. destruct (Z.eq_dec (n - 1 - Z.of_nat i) 0) as [E | E].
        -- rewrite E. replace (n - 1 - Z.of_nat (S i)) with (-1) by lia. reflexivity.
        -- replace (n - 1 - Z.of_nat i) with (n - 1 - Z.of_nat (S i) + 1) by lia.
           rewrite Z.pow_add_r by lia. change (2 ^ 1) with 2.
           apply Z.quot_mul. lia.
      * replace (Z.of_nat (S i) * adj)
          with (Z.of_nat i * adj + Z.of_nat (Z.to_nat w) * r) by lia.
        exact Hstate1.
  - rewrite Hrun. cbn [bind snd]. exists table. split; [reflexivity|].
    cbn [Nat.add] in Hstate. replace (Z.of_nat (Z.to_nat n)) with n in Hstate by lia.
    exact Hstate.
Qed.

Lemma rounds_of (considered_moves : Z) :
  considered_moves < 2 ^ 27 ->
  let n := int_add (Z.log2 (Z.max 1 considered_moves)) 1 in
  1 <= n <= 27 /\ int_sub n 1 = n - 1.
Proof.
  intros Hc n.
  assert (Hlog : 0 <= Z.log2 (Z.max 1 considered_moves) < 27).
  { split; [apply Z.log2_nonneg|]. apply Z.log2_lt_pow2; lia. }
  assert (Hn : n = Z.log2 (Z.max 1 considered_moves) + 1).
  { unfold n, int_add. apply wrap_int_small. unfold INT_MIN, INT_MAX. lia. }
  split; [lia|]. unfold int_sub. apply wrap_int_small.
  unfold INT_MIN, INT_MAX. lia.
Qed.

(** X21. The table of one epoch of the sequential halving: for fewer than
    2^27 considered moves, with n = log2(moves) + 1 rounds over 2^(n-1)
    slots, the three nested loops never leave the table and distribute
    exactly n * 2^(n-1) visits, the visits of one epoch, with no negative
    entry. *)
Theorem fill_table_distributes (considered_moves : Z) :
  considered_moves < 2 ^ 27 ->
  let n := int_add (Z.log2 (Z.max 1 considered_moves)) 1 in
  let adj_considered_moves := 2 ^ (int_sub n 1) in
  exists table,
    Gumbel.fill_table n adj_considered_moves = Some table
    /\ Z.of_nat (length table) = adj_considered_moves
    /\ Forall (fun v => 0 <= v) table
    /\ Zsum table = int_mul n adj_considered_moves
    /\ Zsum table = n * adj_considered_moves.
Proof.
  intros Hc n adj_considered_moves.
  destruct (rounds_of considered_moves Hc) as (Hn & Hsub). fold n in Hn, Hsub.
  unfold adj_considered_moves. rewrite Hsub.
  destruct (fill_table_spec n Hn) as (table & Hrun & Hlen & Hpos & Hsum).
  exists table. split; [exact Hrun|]. split; [exact Hlen|]. split; [exact Hpos|].
  split; [|exact Hsum]. rewrite Hsum. unfold int_mul. symmetry.
  apply wrap_int_small.
  assert (1 <= 2 ^ (n - 1) <= 2 ^ 26).
  { split; [apply (Z.pow_le_mono_r 2 0); lia | apply Z.pow_le_mono_r; lia]. }
  change (2 ^ 26) with 67108864 in *. unfold INT_MIN, INT_MAX. nia.
Qed.

Lemma halve_spec (n m : Z) :
  1 <= n <= 27 ->
  0 <= m <= n - 1 ->
  Gumbel.halve m (2 ^ (n - 1))
  = (2 ^ m - 1, 2 ^ (n - 1 - m), 2 ^ (n - 1) - 2 ^ (n - 1 - m)).
Proof.
  intros Hn Hm. unfold Gumbel.halve.
  pose (P := fun (i : nat) (st : Z * Z * Z * Z) =>
               st = (2 ^ Z.of_nat i - 1, 2 ^ (n - 1 - Z.of_nat i),
                     2 ^ (n - 1) - 2 ^ (n - 1 - Z.of_nat i), 2 ^ Z.of_nat i)).
  assert (Hloop : P (Z.to_nat m)
                     (for_loop (seq 0 (Z.to_nat m))
                        (fun _ '(height, width, offset, t) =>
                           (int_add height t, Z.quot width 2,
                            int_add offset (Z.quot width 2), int_mul t 2))
                        (0, 2 ^ (n - 1), 0, 1))).
  2: { unfold P in Hloop. cbv zeta. rewrite Hloop. cbn [fst].
       rewrite Z2Nat.id by lia. reflexivity. }
  apply (for_loop_seq_invariant P _ (Z.to_nat m) 0%nat).
  - unfold P. cbn [Z.of_nat]. rewrite Z.sub_0_r.
    replace (2 ^ (n - 1) - 2 ^ (n - 1)) with 0 by lia. reflexivity.
  - intros i st Hi HP. unfold P in HP. subst st. unfold P.
    assert (Hi' : 0 <= Z.of_nat i <= 25) by lia.
    assert (Hpi : 1 <= 2 ^ Z.of_nat i <= 2 ^ 25).
    { split; [apply (Z.pow_le_mono_r 2 0); lia | apply Z.pow_le_mono_r; lia]. }
    assert (Hpw : 2 ^ (n - 1 - Z.of_nat i) = 2 * 2 ^ (n - 1 - Z.of_nat (S i))).
    { replace (n - 1 - Z.of_nat i) with (1 + (n - 1 - Z.of_nat (S i))) by lia.
      rewrite Z.pow_add_r by lia. reflexivity. }
    assert (Hpn : 1 <= 2 ^ (n - 1 - Z.of_nat (S i)) <= 2 ^ 26).
    { split; [apply (Z.pow_le_mono_r 2 0); lia | apply Z.pow_le_mono_r; lia]. }
    assert (Hadj : 2 ^ (n - 1) <= 2 ^ 26) by (apply Z.pow_le_mono_r; lia).
    change (2 ^ 25) with 33554432 in *. change (2 ^ 26) with 67108864 in *.
    assert (Hq : Z.quot (2 ^ (n - 1 - Z.of_nat i)) 2 = 2 ^ (n - 1 - Z.of_nat (S i))).
    { rewrite Hpw, Z.mul_comm. apply Z.quot_mul. lia. }
    rewrite Hq. unfold int_add, int_mul.
    rewrite !wrap_int_small by (unfold INT_MIN, INT_MAX; lia).
    replace (Z.of_nat (S i)) with (Z.of_nat i + 1) by lia.
    rewrite (Z.pow_add_r 2 (Z.of_nat i) 1) by lia. change (2 ^ 1) with 2.
    replace (Z.of_nat i + 1) with (Z.of_nat (S i)) by lia.
    apply f_equal2; [apply f_equal2; [apply f_equal2|]|]; lia.
Qed.

Lemma considered_visits_runs (root_visits max_visists considered_moves : Z)
    (only_max_visit : bool) :
  0 <= root_visits <= INT_MAX ->
  considered_moves < 2 ^ 27 ->
  exists visits,
    Gumbel.considered_visits root_visits max_visists considered_moves only_max_visit
    = Some visits
    /\ (only_max_visit = true -> visits = max_visists)
    /\ (only_max_visit = false ->
        root_visits < 2 ^ Z.log2 (Z.max 1 considered_moves) ->
        visits = 0).
Proof.
  intros Hrv Hc. unfold Gumbel.considered_visits.
  destruct (rounds_of considered_moves Hc) as (Hn & Hsub).
  set (n := int_add (Z.log2 (Z.max 1 considered_moves)) 1) in *.
  rewrite Hsub.
  assert (Hlog : Z.log2 (Z.max 1 considered_moves) = n - 1).
  { unfold n, int_add. rewrite wrap_int_small; [lia|].
    pose proof (Z.log2_nonneg (Z.max 1 considered_moves)).
    assert (Z.log2 (Z.max 1 considered_moves) < 27) by (apply Z.log2_lt_pow2; lia).
    unfold INT_MIN, INT_MAX. lia. }
  rewrite Hlog.
  destruct (fill_table_spec n Hn) as (table & Hrun & Hlen & Hpos & Hsum).
  rewrite Hrun. cbn [bind].
  set (adj := 2 ^ (n - 1)) in *.
  assert (Hadj : 1 <= adj <= 2 ^ 26).
  { unfold adj. split; [apply (Z.pow_le_mono_r 2 0); lia | apply Z.pow_le_mono_r; lia]. }
  change (2 ^ 26) with 67108864 in Hadj. unfold INT_MAX in Hrv.
  assert (Hvpr : int_mul n adj = n * adj).
  { unfold int_mul. apply wrap_int_small. unfold INT_MIN, INT_MAX. nia. }
  rewrite Hvpr.
  assert (Hvpos : 0 < n * adj) by nia.
  replace (n * adj =? 0) with false by (symmetry; apply Z.eqb_neq; lia).
  rewrite (Z.quot_div_nonneg root_visits (n * adj)) by lia.
  set (rounds := root_visits / (n * adj)).
  assert (Hrounds : 0 <= rounds * (n * adj) <= root_visits
                    /\ root_visits - rounds * (n * adj) < n * adj /\ 0 <= rounds).
  { unfold rounds. pose proof (Z.mul_div_le root_visits (n * adj) Hvpos).
    pose proof (Z.mod_pos_bound root_visits (n * adj) Hvpos).
    pose proof (Z.div_mod root_visits (n * adj) ltac:(lia)).
    pose proof (Z.div_pos root_visits (n * adj) ltac:(lia) Hvpos).
    split; [nia|]. split; [nia | lia]. }
  destruct Hrounds as (Hr1 & Hr2 & Hr3).
  assert (Hmul : int_mul rounds (n * adj) = rounds * (n * adj)).
  { unfold int_mul. apply wrap_int_small. unfold INT_MIN, INT_MAX. lia. }
  rewrite Hmul.
  assert (Hvtr : int_sub root_visits (rounds * (n * adj))
                 = root_visits - rounds * (n * adj)).
  { unfold int_sub. apply wrap_int_small. unfold INT_MIN, INT_MAX. lia. }
  rewrite Hvtr.
  set (vtr := root_visits - rounds * (n * adj)) in *.
  rewrite (Z.quot_div_nonneg vtr adj) by lia.
  set (m := vtr / adj).
  assert (Hm : 0 <= m <= n - 1).
  { unfold m. split; [apply Z.div_pos; lia|].
    assert (vtr / adj < n) by (apply Z.div_lt_upper_bound; nia). lia. }
  unfold adj at 1. rewrite (halve_spec n m Hn Hm). fold adj.
  set (width := 2 ^ (n - 1 - m)).
  assert (Hwidth : 1 <= width <= adj).
  { unfold width, adj. split;
      [apply (Z.pow_le_mono_r 2 0); lia | apply Z.pow_le_mono_r; lia]. }
  replace (width =? 0) with false by (symmetry; apply Z.eqb_neq; lia).
  rewrite (Z.rem_mod_nonneg root_visits width) by lia.
  pose proof (Z.mod_pos_bound root_visits width ltac:(lia)) as Hmod.
  assert (Hidx : int_add (adj - width) (root_visits mod width)
                 = adj - width + root_visits mod width).
  { unfold int_add. apply wrap_int_small. unfold INT_MIN, INT_MAX. lia. }
  rewrite Hidx.
  destruct only_max_visit.
  - eexists. split; [reflexivity|]. split; [reflexivity | discriminate].
  - replace ((0 <=? adj - width + root_visits mod width)
             && (adj - width + root_visits mod width <? Z.of_nat (length table)))
      with true
      by (symmetry; apply andb_true_iff; split;
          [apply Z.leb_le | apply Z.ltb_lt]; lia).
    eexists. split; [reflexivity|]. split; [discriminate|].
    intros _ Hfirst.
    assert (Hr0 : rounds = 0).
    { unfold rounds. apply Z.div_small. nia. }
    assert (Hm0 : m = 0).
    { unfold m, vtr. rewrite Hr0. apply Z.div_small. lia. }
    unfold vtr. rewrite Hm0, Hr0. unfold int_mul, int_sub, int_add.
    assert (Hw : width = adj).
    { unfold width, adj. rewrite Hm0. f_equal. lia. }
    rewrite !Z.mul_0_r, !Z.mul_0_l. change (wrap_int 0) with 0.
    rewrite !Z.sub_0_r, (wrap_int_small root_visits)
      by (unfold INT_MIN, INT_MAX; lia).
    change (2 ^ 0 - 1) with 0. change (wrap_int (0 + 0)) with 0.
    rewrite Z.add_0_l.
    rewrite Hw, Z.quot_small by nia. reflexivity.
Qed.

(** X22. The schedule never divides by zero and never reads outside its
    table: for a non-negative number of root visits and fewer than 2^27
    considered moves the number of considered visits has a value, and it is
    0 during the first round of the first epoch (fewer root visits than
    slots), where every considered move is still unvisited. *)
Theorem considered_visits_defined (root_visits max_visists considered_moves : Z)
    (only_max_visit : bool) :
  0 <= root_visits <= INT_MAX ->
  considered_moves < 2 ^ 27 ->
  exists visits,
    Gumbel.considered_visits root_visits max_visists considered_moves only_max_visit
    = Some visits
    /\ (only_max_visit = true -> visits = max_visists)
    /\ (only_max_visit = false ->
        root_visits < 2 ^ Z.log2 (Z.max 1 considered_moves) ->
        visits = 0).
Proof.
  exact (considered_visits_runs root_visits max_visists considered_moves
           only_max_visit).
Qed.

Section Logits.

Variable ftanh : Q -> Q.
Variables param_score_utility_div param_completed_q_utility_factor : Q.

Local Abbreviation Process :=
  (Gumbel.ProcessGumbelLogits ftanh param_score_utility_div
     param_completed_q_utility_factor).

Lemma GetGumbelQValue_defined (node : Node) (color : Color) (parent_score : Q) :
  0 < visits_ node <= INT_MAX ->
  ~ (param_score_utility_div == 0)%Q ->
  exists q,
    Gumbel.GetGumbelQValue ftanh param_score_utility_div
      param_completed_q_utility_factor node color parent_score = Some q.
Proof.
  intros Hv Hdiv. unfold Gumbel.GetGumbelQValue, GetWL, Best.GetScoreUtility,
    GetFinalScore, GetVisits.
  unfold int_add. rewrite Z.add_0_r, wrap_int_small
    by (unfold INT_MIN, INT_MAX in *; lia).
  rewrite !fdiv_nonzero by (apply inject_Z_nonzero; lia). cbn [bind].
  destruct (Color_eqb color kBlack); cbn [bind];
    rewrite fdiv_nonzero by exact Hdiv; cbn [bind]; eexists; reflexivity.
Qed.

Lemma process_children_runs (color : Color) (max_visists : Z) (mval : Q)
    (considered : Z) (parent_score : Q) (children : list Edge) :
  ~ (param_score_utility_div == 0)%Q ->
  forall gumbel_logits,
    logits_cover (length gumbel_logits) children ->
    exists logits',
      Gumbel.process_children ftanh param_score_utility_div
        param_completed_q_utility_factor color max_visists mval considered
        (Some parent_score) children gumbel_logits = Some logits'
      /\ length logits' = length gumbel_logits.
Proof.
  intros Hdiv. induction children as [|child rest IH]; intros logits Hcover.
  - exists logits. split; reflexivity.
  - inversion Hcover as [|? ? (node & Hnode & Hvis & Hvert) Hrest]; subst.
    cbn [Gumbel.process_children]. unfold Gumbel.process_child at 1.
    rewrite Hnode. unfold GetVisits, GetVertex.
    assert (Hin : (0 <=? vertex_ node) && (vertex_ node <? Z.of_nat (length logits))
                  = true).
    { apply andb_true_iff. split; [apply Z.leb_le | apply Z.ltb_lt]; lia. }
    assert (Hnext : forall logits1,
               length logits1 = length logits ->
               exists logits',
                 Gumbel.process_children ftanh param_score_utility_div
                   param_completed_q_utility_factor color max_visists mval considered
                   (Some parent_score) rest logits1 = Some logits'
                 /\ length logits' = length logits).
    { intros logits1 Hlen. destruct (IH logits1) as (logits' & Hrun & Hlen').
      - rewrite Hlen. exact Hrest.
      - exists logits'. split; [exact Hrun | congruence]. }
    destruct (negb (IsActive node)); cbn [bind]; [apply Hnext; reflexivity|].
    destruct (visits_ node =? considered).
    + destruct (0 <? visits_ node) eqn:Epos; cbn [bind];
        [|apply Hnext; reflexivity].
      apply Z.ltb_lt in Epos.
      destruct (GetGumbelQValue_defined node color parent_score ltac:(lia) Hdiv)
        as (q & Hq).
      rewrite Hq. cbn [bind]. rewrite Hin. cbn [bind].
      apply Hnext, length_array_set.
    + rewrite Hin. cbn [bind]. apply Hnext, length_array_set.
Qed.

(** X23. [ProcessGumbelLogits] runs to its end on a root with visits whose
    children are all pointers with vertices inside the logits: it returns
    logits of the same size, for any non-negative number of root visits and
    fewer than 2^27 considered moves.  The divisor of the score utility has
    to be non-zero. *)
Theorem ProcessGumbelLogits_defined (n : Node) (gumbel_logits : list Q)
    (color : Color) (root_visits max_visists considered_moves : Z) (mval : Q)
    (only_max_visit : bool) :
  0 <= root_visits <= INT_MAX ->
  considered_moves < 2 ^ 27 ->
  visits_ n <> 0 ->
  ~ (param_score_utility_div == 0)%Q ->
  logits_cover (length gumbel_logits) (children_ n) ->
  exists logits',
    Process n gumbel_logits color root_visits max_visists considered_moves mval
      only_max_visit = Some logits'
    /\ length logits' = length gumbel_logits.
Proof.
  intros Hrv Hc Hvis Hdiv Hcover. unfold Gumbel.ProcessGumbelLogits.
  destruct (considered_visits_runs root_visits max_visists considered_moves
              only_max_visit Hrv Hc) as (visits & Hcv & _).
  rewrite Hcv. cbn [bind].
  assert (Hscore : exists score, GetFinalScore n color = Some score).
  { unfold GetFinalScore, GetVisits.
    rewrite fdiv_nonzero by (apply inject_Z_nonzero; exact Hvis). cbn [bind].
    destruct (Color_eqb color kBlack); eexists; reflexivity. }
  destruct Hscore as (score & ->).
  apply process_children_runs; assumption.
Qed.

End Logits.

End GumbelFacts.

(** ** The confidence bound and the best move *)

Section LcbMore.

Variables fsqrt flog fexp : Q -> Q.

(** The square root of the C++ library is never negative. *)
Hypothesis fsqrt_nonneg : forall x, (0 <= fsqrt x)%Q.

Local Open Scope Q_scope.




End LcbMore.

Section BestMoveFacts.

Variables fsqrt ftanh : Q -> Q.
Variable z_lookup_table_ : list Q.
Variables param_lcb_utility_factor param_lcb_reduction param_score_utility_div : Q.
Variable kNumIntersections : nat.
Variable kNullVertex : Z.

Local Abbreviation LcbList :=
  (Best.GetLcbUtilityList fsqrt ftanh z_lookup_table_ param_lcb_utility_factor
     param_lcb_reduction param_score_utility_div).
Local Abbreviation BestMove :=
  (Best.GetBestMove fsqrt ftanh z_lookup_table_ param_lcb_utility_factor
     param_lcb_reduction param_score_utility_div kNumIntersections kNullVertex).
Local Abbreviation add_entries :=
  (Best.add_lcb_entries fsqrt ftanh z_lookup_table_ param_score_utility_div).
Local Abbreviation add_entry :=
  (Best.add_lcb_entry fsqrt ftanh z_lookup_table_ param_score_utility_div).

(** One step of the loop: the list stays, or gains one entry with the
    vertex of the child, and it gains one when the child is active with
    visits. *)
Lemma add_lcb_entry_cases (color : Color) (factor reduction : Q) (parentvisits : Z)
    (score : option Q) (lcblist lcblist' : list (Q * Z)) (child : Edge) :
  add_entry color factor reduction parentvisits score lcblist child = Some lcblist' ->
  (lcblist' = lcblist
   /\ ~ (exists node, edge_node child = Some node /\ IsActive node = true
                      /\ 0 < visits_ node))
  \/ exists ulcb node,
       lcblist' = lcblist ++ [(ulcb, vertex_ node)]
       /\ edge_node child = Some node
       /\ IsActive node = true
       /\ 0 < visits_ node.
Proof.
  unfold Best.add_lcb_entry.
  destruct (edge_node child) as [node|] eqn:En.
  2: { intros E. injection E as <-. left. split; [reflexivity|].
       intros (node & Hn & _). discriminate. }
  destruct (IsActive node) eqn:Ea; cbn [negb].
  2: { intros E. injection E as <-. left. split; [reflexivity|].
       intros (node' & Hn & Ha & _). injection Hn as <-. congruence. }
  unfold GetVisits, GetVertex.
  destruct (0 <? visits_ node) eqn:Ev.
  2: { intros E. injection E as <-. left. split; [reflexivity|].
       intros (node' & Hn & _ & Hv). injection Hn as <-.
       apply Z.ltb_ge in Ev. lia. }
  apply Z.ltb_lt in Ev.
  destruct (Lcb.GetLcb fsqrt z_lookup_table_ node color); [|discriminate].
  cbn [bind]. destruct score as [score|]; [|discriminate]. cbn [bind].
  destruct (Best.GetScoreUtility ftanh node color param_score_utility_div score);
    [|discriminate].
  cbn [bind].
  destruct (fdiv (inject_Z (visits_ node)) (inject_Z parentvisits)); [|discriminate].
  cbn [bind]. intros E. injection E as <-. right.
  eexists. exists node. repeat split; assumption.
Qed.

Lemma add_lcb_entries_spec (color : Color) (factor reduction : Q) (parentvisits : Z)
    (score : option Q) (children : list Edge) :
  forall lcblist lcblist',
    add_entries color factor reduction parentvisits score children lcblist
    = Some lcblist' ->
    (forall entry, In entry lcblist' ->
       In entry lcblist \/ visited_child children (snd entry))
    /\ (length lcblist <= length lcblist' <= length lcblist + length children)%nat
    /\ ((exists vtx, visited_child children vtx) -> lcblist' <> []).
Proof.
  induction children as [|child rest IH]; intros lcblist lcblist';
    cbn [Best.add_lcb_entries].
  - intros E. injection E as <-. split; [intros entry Hin; left; exact Hin|].
    split; [cbn [length]; lia|].
    intros (vtx & c & node & [] & _).
  - destruct (add_entry color factor reduction parentvisits score lcblist child)
      as [lcblist1|] eqn:Estep; [|discriminate].
    cbn [bind]. intros Hrest.
    destruct (IH lcblist1 lcblist' Hrest) as (Hin & Hlen & Hne).
    assert (Hlift : forall vtx, visited_child rest vtx -> visited_child (child :: rest) vtx).
    { intros vtx (c & node & Hc & Hrest'). exists c, node.
      split; [right; exact Hc | exact Hrest']. }
    destruct (add_lcb_entry_cases _ _ _ _ _ _ _ _ Estep)
      as [(-> & Hnot) | (ulcb & node & -> & Hn & Ha & Hv)].
    + split; [|split].
      * intros entry He. destruct (Hin entry He) as [H1 | H1];
          [left; exact H1 | right; apply Hlift, H1].
      * cbn [length]. lia.
      * intros (vtx & c & node & [<- | Hc] & Hn & Ha & Hv & Hvtx).
        -- exfalso. apply Hnot. exists node. repeat split; assumption.
        -- apply Hne. exists vtx, c, node. repeat split; assumption.
    + split; [|split].
      * intros entry He. destruct (Hin entry He) as [H1 | H1].
        -- apply in_app_or in H1. destruct H1 as [H1 | [<- | []]];
             [left; exact H1|].
           right. exists child, node. cbn [snd].
           repeat split; try assumption. left. reflexivity.
        -- right. apply Hlift, H1.
      * rewrite length_app in Hlen. cbn [length] in *. lia.
      * intros _ E. rewrite E in Hlen. rewrite length_app in Hlen.
        cbn [length] in Hlen. lia.
Qed.

Lemma GetLcbUtilityList_facts (n : Node) (color : Color) (lcblist : list (Q * Z)) :
  LcbList n color = Some lcblist ->
  expand_state_ n = ExpandState.kExpanded
  /\ Forall (fun entry => visited_child (children_ n) (snd entry)) lcblist
  /\ adjacent (fun a b => (fst b <= fst a)%Q) lcblist
  /\ (length lcblist <= length (children_ n))%nat
  /\ ((exists vtx, visited_child (children_ n) vtx) -> lcblist <> []).
Proof.
  unfold Best.GetLcbUtilityList, Best.WaitExpanded.
  destruct (expand_state_ n); cbn [ExpandState.eqb bind]; try discriminate.
  match goal with
  | |- bind ?m _ = _ -> _ => destruct m as [raw|] eqn:Eraw; [|discriminate]
  end.
  cbn [bind]. intros E. injection E as <-.
  destruct (add_lcb_entries_spec _ _ _ _ _ _ _ _ Eraw) as (Hin & Hlen & Hne).
  pose proof (stable_sort_reversed_perm raw) as Hperm.
  split; [reflexivity|]. split; [|split; [|split]].
  - apply Forall_forall. intros entry He.
    apply (Permutation_in _ Hperm) in He.
    destruct (Hin entry He) as [[] | H1]. exact H1.
  - apply stable_sort_reversed_descending.
  - rewrite (Permutation_length Hperm). cbn [length] in Hlen. lia.
  - intros Hex E. apply Hne in Hex. apply Hex.
    rewrite E in Hperm. apply Permutation_nil in Hperm. exact Hperm.
Qed.

(** X26. The list of [GetLcbUtilityList] holds only vertices of active
    children that have visits, at most one entry per child, in descending
    order of the bound, and it is not empty when such a child exists; an
    uninflated, pruned, invalid or unvisited child never enters it. *)
Theorem GetLcbUtilityList_entries (n : Node) (color : Color)
    (lcblist : list (Q * Z)) :
  LcbList n color = Some lcblist ->
  Forall (fun entry => visited_child (children_ n) (snd entry)) lcblist
  /\ adjacent (fun a b => (fst b <= fst a)%Q) lcblist
  /\ (length lcblist <= length (children_ n))%nat
  /\ ((exists vtx, visited_child (children_ n) vtx) -> lcblist <> []).
Proof.
  intros Hrun. apply GetLcbUtilityList_facts in Hrun. apply Hrun.
Qed.

Lemma best_of_list (lcblist : list (Q * Z)) : forall best_value best_move,
  let r :=
    fold_left
      (fun '(best_value, best_move) entry =>
         let lcb := fst entry in
         let vtx := snd entry in
         if Qltb best_value lcb then (lcb, vtx) else (best_value, best_move))
      lcblist (best_value, best_move) in
  snd r = best_move \/ In (snd r) (map snd lcblist).
Proof.
  induction lcblist as [|entry rest IH]; intros best_value best_move; cbv zeta.
  - left. reflexivity.
  - cbn [fold_left map In].
    destruct (Qltb best_value (fst entry)).
    + destruct (IH (fst entry) (snd entry)) as [E | Hin];
        [right; left; symmetry; exact E | right; right; exact Hin].
    + destruct (IH best_value best_move) as [E | Hin];
        [left; exact E | right; right; exact Hin].
Qed.

(** X27. As soon as an active child has visits, [GetBestMove] leaves the
    tree as it is and returns the vertex of an active child with visits, or
    the null vertex when no bound exceeds the lowest float; it never returns
    the move of an uninflated, pruned, invalid or unvisited child. *)
Theorem GetBestMove_visited (n n' : Node) (vtx : Z) :
  BestMove n = Some (vtx, n') ->
  (exists v, visited_child (children_ n) v) ->
  n' = n /\ (vtx = kNullVertex \/ visited_child (children_ n) vtx).
Proof.
  unfold Best.GetBestMove, Best.WaitExpanded.
  destruct (expand_state_ n) eqn:Hs; cbn [ExpandState.eqb bind]; try discriminate.
  destruct (LcbList n (color_ n)) as [lcblist|] eqn:Elist; [|discriminate].
  cbn [bind]. intros Hrun Hex.
  destruct (GetLcbUtilityList_facts n (color_ n) lcblist Elist)
    as (_ & Hall & _ & _ & Hne).
  specialize (Hne Hex).
  pose proof (best_of_list lcblist Best.FLT_LOWEST kNullVertex) as Hbest.
  cbv zeta in Hbest.
  destruct (fold_left _ lcblist (Best.FLT_LOWEST, kNullVertex))
    as [best_value best_move].
  cbn [snd] in Hbest.
  replace ((length lcblist =? 0)%nat) with false in Hrun
    by (symmetry; apply Nat.eqb_neq; destruct lcblist; [congruence | discriminate]).
  cbn [andb] in Hrun. injection Hrun as <- <-.
  split; [reflexivity|].
  destruct Hbest as [E | Hin]; [left; exact E | right].
  apply in_map_iff in Hin. destruct Hin as (entry & <- & Hin).
  rewrite Forall_forall in Hall. apply Hall, Hin.
Qed.

End BestMoveFacts.

(** ** Selection by PUCT *)

Section SelectionLoop.

Variable value : Edge -> option (option Q).

(** The selection loop returns the first of the children with the largest
    value, provided one exceeds the start value. *)
Lemma select_best_spec (children : list Edge) : forall idx best r,
  select_best value children idx best = Some r ->
  (snd best <= snd r)%Q
  /\ Forall (fun child => forall v, value child = Some (Some v) -> (v <= snd r)%Q)
       children
  /\ (r = best
      \/ exists k child,
           fst r = Some (idx + k)%nat
           /\ nth_error children k = Some child
           /\ value child = Some (Some (snd r))
           /\ (snd best < snd r)%Q
           /\ forall j c v, (j < k)%nat -> nth_error children j = Some c ->
                value c = Some (Some v) -> (v < snd r)%Q).
Proof.
  induction children as [|child rest IH]; intros idx best r; cbn [select_best].
  - intros E. injection E as <-. split; [apply Qle_refl|]. split; [constructor|].
    left. reflexivity.
  - destruct (value child) as [[v|]|] eqn:Ev; cbn [bind]; [| |discriminate].
    + destruct (Qltb (snd best) v) eqn:Elt.
      * apply Qltb_true in Elt. intros Hrun.
        destruct (IH (S idx) (Some idx, v) r Hrun) as (Hle & Hall & Hcase).
        cbn [snd] in Hle, Hcase.
        split; [apply Qlt_le_weak; eapply Qlt_le_trans; eassumption|].
        split; [constructor; [intros w Hw; rewrite Ev in Hw; injection Hw as <-; exact Hle
                            | exact Hall]|].
        right. destruct Hcase as [E | (k & c & Hi & Hn & Hv & Hlt & Hbefore)].
        -- exists 0%nat, child. rewrite E. cbn [fst snd nth_error].
           rewrite Nat.add_0_r. repeat split; try assumption; try reflexivity.
           intros j c w Hj. lia.
        -- exists (S k), c. cbn [nth_error].
           replace (idx + S k)%nat with (S idx + k)%nat by lia.
           repeat split; try assumption.
           ++ eapply Qlt_trans; eassumption.
           ++ intros [|j] c' w Hj Hn' Hw; cbn [nth_error] in Hn'.
              ** injection Hn' as <-. rewrite Ev in Hw. injection Hw as <-. exact Hlt.
              ** apply (Hbefore j c' w); [lia | assumption | assumption].
      * apply Qltb_false in Elt. intros Hrun.
        destruct (IH (S idx) best r Hrun) as (Hle & Hall & Hcase).
        split; [exact Hle|].
        split; [constructor;
                [intros w Hw; rewrite Ev in Hw; injection Hw as <-;
                 eapply Qle_trans; eassumption
                | exact Hall]|].
        destruct Hcase as [E | (k & c & Hi & Hn & Hv & Hlt & Hbefore)];
          [left; exact E|].
        right. exists (S k), c. cbn [nth_error].
        replace (idx + S k)%nat with (S idx + k)%nat by lia.
        repeat split; try assumption.
        intros [|j] c' w Hj Hn' Hw; cbn [nth_error] in Hn'.
        -- injection Hn' as <-. rewrite Ev in Hw. injection Hw as <-.
           eapply Qle_lt_trans; eassumption.
        -- apply (Hbefore j c' w); [lia | assumption | assumption].
    + intros Hrun.
      destruct (IH (S idx) best r Hrun) as (Hle & Hall & Hcase).
      split; [exact Hle|].
      split; [constructor; [intros w Hw; congruence | exact Hall]|].
      destruct Hcase as [E | (k & c & Hi & Hn & Hv & Hlt & Hbefore)];
        [left; exact E|].
      right. exists (S k), c. cbn [nth_error].
      replace (idx + S k)%nat with (S idx + k)%nat by lia.
      repeat split; try assumption.
      intros [|j] c' w Hj Hn' Hw; cbn [nth_error] in Hn'.
      * injection Hn' as <-. congruence.
      * apply (Hbefore j c' w); [lia | assumption | assumption].
Qed.


End SelectionLoop.

Section PuctFacts.

Variables fsqrt flog ftanh : Q -> Q.
Variable kNumIntersections : nat.
Variables param_cpuct_init param_cpuct_base_factor param_cpuct_base : Q.
Variables param_draw_factor param_score_utility_factor param_score_utility_div : Q.
Variables param_fpu_root_reduction param_fpu_reduction param_dirichlet_epsilon : Q.
Variables param_dirichlet_noise param_gumbel : bool.
Variable param_gumbel_playouts : Z.
Variable param_dirichlet_buffer : list Q.
Variable default_use_virtual_loss : bool.
Variable GumbelSelectChild : Node -> Color -> bool -> option (Node * Node).

Local Abbreviation Select :=
  (Puct.PuctSelectChild fsqrt flog ftanh kNumIntersections param_cpuct_init
     param_cpuct_base_factor param_cpuct_base param_draw_factor
     param_score_utility_factor param_score_utility_div param_fpu_root_reduction
     param_fpu_reduction param_dirichlet_epsilon param_dirichlet_noise param_gumbel
     param_gumbel_playouts param_dirichlet_buffer default_use_virtual_loss
     GumbelSelectChild).
Local Abbreviation value_of :=
  (Puct.child_value fsqrt flog ftanh param_cpuct_init param_cpuct_base_factor
     param_cpuct_base param_draw_factor param_score_utility_factor
     param_score_utility_div param_fpu_root_reduction param_fpu_reduction
     param_dirichlet_epsilon param_dirichlet_noise param_dirichlet_buffer
     default_use_virtual_loss).
Local Abbreviation context_of :=
  (Puct.search_context fsqrt flog param_cpuct_init param_cpuct_base_factor
     param_cpuct_base param_fpu_root_reduction param_fpu_reduction
     param_dirichlet_noise).
Local Abbreviation value_in :=
  (Puct.puct_value ftanh param_draw_factor param_score_utility_factor
     param_score_utility_div param_dirichlet_epsilon param_dirichlet_buffer
     default_use_virtual_loss).
Local Abbreviation gumbel_turn :=
  (Puct.ShouldApplyGumbel param_gumbel param_gumbel_playouts).

Lemma puct_value_selectable (color : Color) (ctx : Puct.Context) (child : Edge)
    (v : Q) :
  value_in color ctx child = Some (Some v) -> selectable child = true.
Proof.
  unfold Puct.puct_value, selectable.
  destruct (edge_node child) as [node|]; [|reflexivity].
  destruct (IsActive node); [reflexivity|]. cbn [negb]. discriminate.
Qed.

(** X28. Outside the Gumbel turns at the root, a node that [PuctSelectChild]
    returns belongs to a child that is no pointer yet or is active, never to
    a pruned or invalid one; no child has a larger PUCT value, the children
    before it have a smaller one, and only the edge of the selected child is
    inflated. *)
Theorem PuctSelectChild_spec (n : Node) (color : Color) (is_root : bool)
    (node n' : Node) :
  Select n color is_root = Some (node, n') ->
  is_root && gumbel_turn n = false ->
  exists idx child v,
    nth_error (children_ n) idx = Some child
    /\ selectable child = true
    /\ value_of n color is_root child = Some (Some v)
    /\ Forall (fun c => forall w, value_of n color is_root c = Some (Some w) ->
                 (w <= v)%Q) (children_ n)
    /\ (forall j c w, (j < idx)%nat -> nth_error (children_ n) j = Some c ->
          value_of n color is_root c = Some (Some w) -> (w < v)%Q)
    /\ node = match edge_node child with
              | Some node => node
              | None => new_Node kNumIntersections (edge_vertex child)
                          (edge_policy child)
              end
    /\ n' = set_children n
              (array_set (children_ n) idx (Inflate kNumIntersections child)).
Proof.
  unfold Puct.PuctSelectChild, Best.WaitExpanded. intros Hrun Hturn.
  destruct (expand_state_ n); cbn [ExpandState.eqb bind] in Hrun; try discriminate.
  rewrite Hturn in Hrun.
  destruct (context_of n color is_root) as [ctx|] eqn:Ectx; [|discriminate].
  cbn [bind] in Hrun.
  destruct (select_best (value_in color ctx) (children_ n) 0 (None, Best.FLT_LOWEST))
    as [r|] eqn:Eloop; [|discriminate].
  cbn [bind] in Hrun.
  destruct (select_best_spec _ _ _ _ _ Eloop) as (_ & Hall & Hcase).
  destruct Hcase as [-> | (k & child & Hi & Hn & Hv & _ & Hbefore)];
    [discriminate|].
  cbn [Nat.add] in Hi. rewrite Hi in Hrun. cbn [bind] in Hrun.
  rewrite Hn in Hrun. cbn [bind] in Hrun.
  assert (Hval : forall c, value_of n color is_root c = value_in color ctx c).
  { intros c. unfold Puct.child_value. rewrite Ectx. reflexivity. }
  exists k, child, (snd r).
  split; [exact Hn|].
  split; [eapply puct_value_selectable; exact Hv|].
  split; [rewrite Hval; exact Hv|].
  split; [eapply Forall_impl; [|exact Hall]; cbn beta; intros c Hc w Hw;
          rewrite Hval in Hw; apply Hc, Hw|].
  split; [intros j c w Hj Hc Hw; rewrite Hval in Hw; eapply Hbefore; eassumption|].
  unfold Inflate in Hrun. destruct (edge_node child) as [node0|] eqn:En.
  - rewrite En in Hrun. cbn [bind] in Hrun. injection Hrun as <- <-.
    split; [reflexivity|]. unfold Inflate. rewrite En. reflexivity.
  - cbn [edge_node bind] in Hrun. injection Hrun as <- <-.
    split; [reflexivity|]. unfold Inflate. rewrite En. reflexivity.
Qed.



End PuctFacts.

(** ** Vertices as text *)

Section TextFacts.

Import String.

Context {Board : Type} `{Collaborators Board}.
Variable kNullVertex : Z.
Variables Board_GetX Board_GetY : Board -> Z -> Z.

Local Abbreviation ToVertex := (Text.TextToVertex kNullVertex).
Local Abbreviation ToText := (Text.VertexToText Board_GetX Board_GetY).

Lemma string_append_assoc (a b c : String.string) :
  String.append (String.append a b) c = String.append a (String.append b c).
Proof.
  induction a as [|ch a IH]; cbn [String.append]; [reflexivity|].
  rewrite IH. reflexivity.
Qed.

(** The scan keeps a string of decimal digits whole. *)
Lemma scan_digits_decimal (d : Decimal.uint) : forall y_str,
  Text.scan_digits (DecimalString.NilEmpty.string_of_uint d) y_str false
  = (String.append y_str (DecimalString.NilEmpty.string_of_uint d), false).
Proof.
  induction d; intros y_str; cbn [DecimalString.NilEmpty.string_of_uint];
    try (cbn [Text.scan_digits];
         match goal with
         | |- context [(?a <=? ?b) && (?c <=? ?e)] =>
             change ((a <=? b) && (c <=? e)) with true
         end;
         cbv iota; rewrite IHd, string_append_assoc; reflexivity).
  cbn [Text.scan_digits]. clear. induction y_str as [|ch y IH]; cbn; [reflexivity|].
  injection IH as IH. rewrite <- IH. reflexivity.
Qed.

Lemma column_of_char (x : Z) :
  0 <= x <= 24 -> Text.column (Text.column_char x) = x.
Proof.
  intros Hx.
  assert (Hcases : x = 0 \/ x = 1 \/ x = 2 \/ x = 3 \/ x = 4 \/ x = 5 \/ x = 6
                   \/ x = 7 \/ x = 8 \/ x = 9 \/ x = 10 \/ x = 11 \/ x = 12
                   \/ x = 13 \/ x = 14 \/ x = 15 \/ x = 16 \/ x = 17 \/ x = 18
                   \/ x = 19 \/ x = 20 \/ x = 21 \/ x = 22 \/ x = 23 \/ x = 24)
    by lia.
  repeat (destruct Hcases as [-> | Hcases]; [vm_compute; reflexivity|]).
  subst x. vm_compute. reflexivity.
Qed.

Lemma decimal_text (c : Ascii.ascii) (p : positive) :
  let digits := DecimalString.NilEmpty.string_of_uint (Pos.to_uint p) in
  Text.print_int (Z.pos p) = digits
  /\ (Z.of_nat (String.length (String.String c digits)) <? 2) = false
  /\ String.eqb (String.String c digits) "PASS" = false
  /\ String.eqb (String.String c digits) "pass" = false
  /\ String.eqb (String.String c digits) "RESIGN" = false
  /\ String.eqb (String.String c digits) "resign" = false
  /\ (String.length digits =? 0)%nat = false
  /\ (Z.pos p <= INT_MAX -> Text.stoi digits = Some (Z.pos p)).
Proof.
  intros digits.
  pose proof (DecimalPos.Unsigned.to_uint_nonnil p) as Hnil.
  pose proof (DecimalString.NilZero.usu _ Hnil) as Husu.
  pose proof (DecimalPos.Unsigned.of_to p) as Hof.
  assert (Hz : DecimalString.NilZero.string_of_uint (Pos.to_uint p) = digits).
  { unfold digits. destruct (Pos.to_uint p); try reflexivity. congruence. }
  split; [exact Hz|].
  assert (Hstoi : Z.pos p <= INT_MAX -> Text.stoi digits = Some (Z.pos p)).
  { intros Hle. unfold Text.stoi. rewrite <- Hz, Husu. cbn [bind].
    unfold Z.of_uint. rewrite Hof. cbn [Z.of_N].
    replace (Z.pos p <=? INT_MAX) with true by (symmetry; apply Z.leb_le; exact Hle).
    reflexivity. }
  unfold digits in *. clear Hz Husu Hof.
  destruct (Pos.to_uint p) as [|d|d|d|d|d|d|d|d|d|d]; [congruence|..];
    cbn [DecimalString.NilEmpty.string_of_uint String.length] in *;
    (split; [apply Z.ltb_ge; lia|]);
    do 4 (split; [cbn [String.eqb]; destruct (Ascii.eqb c _); reflexivity|]);
    (split; [reflexivity | exact Hstoi]).
Qed.

(** X30. Reading back the text that [VertexToText] writes gives the vertex
    again: "pass" and "resign" for the two special moves, and for a vertex
    of the board a column letter (without I) and the row number, for up to
    25 columns.  The rules board has to map the coordinates of the vertex
    back to it. *)
Theorem TextToVertex_VertexToText (s : GameState Board) (vtx : Z) :
  vtx = kPass \/ vtx = kResign
  \/ (0 <= Board_GetX (board_ s) vtx <= 24
      /\ 0 <= Board_GetY (board_ s) vtx < INT_MAX
      /\ Board_GetVertex (board_ s) (Board_GetX (board_ s) vtx)
           (Board_GetY (board_ s) vtx) = vtx) ->
  ToVertex s (ToText s vtx) = Some vtx.
Proof.
  intros Hcase. unfold Text.VertexToText.
  destruct (vtx =? kPass) eqn:Ep.
  { apply Z.eqb_eq in Ep. subst vtx. reflexivity. }
  destruct (vtx =? kResign) eqn:Er.
  { apply Z.eqb_eq in Er. subst vtx. reflexivity. }
  apply Z.eqb_neq in Ep. apply Z.eqb_neq in Er.
  destruct Hcase as [-> | [-> | (Hx & Hy & Hv)]]; try congruence.
  unfold INT_MAX in Hy.
  assert (Hadd : int_add (Board_GetY (board_ s) vtx) 1 = Board_GetY (board_ s) vtx + 1).
  { apply wrap_int_small. unfold INT_MIN, INT_MAX. lia. }
  rewrite Hadd.
  destruct (Board_GetY (board_ s) vtx + 1) as [|p|p] eqn:Ey; try lia.
  destruct (decimal_text (Text.column_char (Board_GetX (board_ s) vtx)) p)
    as (Hprint & Hlen & H1 & H2 & H3 & H4 & Hne & Hstoi).
  rewrite Hprint. unfold Text.TextToVertex.
  rewrite Hlen, H1, H2, H3, H4. cbn [orb].
  rewrite scan_digits_decimal. cbn [String.append]. rewrite Hne.
  rewrite Hstoi by (unfold INT_MAX; lia). cbn [bind].
  rewrite (column_of_char _ Hx).
  assert (Hsub : int_sub (Z.pos p) 1 = Board_GetY (board_ s) vtx).
  { unfold int_sub. rewrite wrap_int_small by (unfold INT_MIN, INT_MAX; lia). lia. }
  rewrite Hsub.
  replace ((Board_GetX (board_ s) vtx =? -1) || (Board_GetY (board_ s) vtx =? -1))
    with false
    by (symmetry; apply orb_false_iff; split; apply Z.eqb_neq; lia).
  rewrite Hv. reflexivity.
Qed.

End TextFacts.

(** * Examples of the further properties *)

(** X1 on two backups, a win and a loss: the accumulator is 1 and the
    squared deviations from the mean 1/2 sum to 1/2. *)
Lemma Update_welford_consistency_witness :
  exists n',
    UpdateAll 2 Sample.two_backups (new_Node 2 5 (1 # 4)) = Some n'
    /\ (accumulated_black_wl_ n' == 1)%Q
    /\ (squared_eval_diff_ n' == 1 # 2)%Q.
Proof.
  destruct (Update_welford_consistency 2 Sample.two_backups 5 (1 # 4))
    as (n' & Hrun & Hacc & Hsq).
  - discriminate.
  - vm_compute. discriminate.
  - exists n'. split; [exact Hrun|]. split.
    + rewrite Hacc. vm_compute. reflexivity.
    + rewrite Hsq. vm_compute. reflexivity.
Defined.

(** X2 on the same backups: the ownership mean of the first intersection
    is 1/2. *)
Lemma Update_ownership_mean_witness :
  exists n',
    UpdateAll 2 Sample.two_backups (new_Node 2 5 (1 # 4)) = Some n'
    /\ (nth 0 (avg_black_ownership_ n') 0 == 1 # 2)%Q.
Proof.
  destruct (Update_ownership_mean 2 Sample.two_backups (new_Node 2 5 (1 # 4)) 0)
    as (n' & Hrun & Hmean).
  - reflexivity.
  - reflexivity.
  - lia.
  - discriminate.
  - vm_compute. discriminate.
  - exists n'. split; [exact Hrun|]. rewrite Hmean. vm_compute. reflexivity.
Defined.

(** X3 on a node with four visits, three wins and one thread inside. *)
Lemma GetWL_virtual_loss_pessimistic_witness :
  exists black_vl black white_vl white,
    GetWL Sample.busy_node kBlack true = Some black_vl
    /\ GetWL Sample.busy_node kBlack false = Some black
    /\ GetWL Sample.busy_node kWhite true = Some white_vl
    /\ GetWL Sample.busy_node kWhite false = Some white
    /\ (black_vl <= black)%Q
    /\ (white_vl <= white)%Q.
Proof.
  apply (GetWL_virtual_loss_pessimistic Sample.busy_node).
  - vm_compute. reflexivity.
  - vm_compute. discriminate.
  - vm_compute. discriminate.
  - split; vm_compute; discriminate.
Defined.

(** X6 on the empty 2x2 board. *)
Lemma ExpandChildren_sorted_witness :
  exists n' evals',
    Fixture.expand false = Some (true, n', evals')
    /\ policy_descending (children_ n')
    /\ Forall (fun child => edge_node child = None) (children_ n').
Proof.
  apply (@ExpandChildren_sorted _ Fixture.toy 4 (Fixture.params false) Fixture.network
           Fixture.config_IsLegal Fixture.rollout Fixture.empty_state
           Fixture.evals0 true (new_Node 4 (-1) 1)).
  - reflexivity.
  - reflexivity.
  - reflexivity.
  - vm_compute. reflexivity.
Defined.

(** X7 on the empty 2x2 board, Black to move: the stored win rate is the
    network's 1/2. *)
Lemma ExpandChildren_black_perspective_witness :
  exists n' evals',
    Fixture.expand false = Some (true, n', evals')
    /\ (black_wl evals' == 1 # 2)%Q
    /\ black_wl_ n' = black_wl evals'.
Proof.
  destruct (@ExpandChildren_black_perspective _ Fixture.toy 4 (Fixture.params false)
              Fixture.network Fixture.config_IsLegal Fixture.rollout
              Fixture.empty_state Fixture.evals0 true (new_Node 4 (-1) 1))
    as (n' & evals' & Hrun & Hwl & _ & _ & Hnode & _).
  - reflexivity.
  - reflexivity.
  - vm_compute. reflexivity.
  - reflexivity.
  - left. reflexivity.
  - exists n', evals'. split; [exact Hrun|]. split; [|exact Hnode].
    rewrite Hwl. vm_compute. reflexivity.
Defined.

(** X8 on the empty 2x2 board. *)
Lemma ExpandChildren_keeps_statistics_witness :
  exists n' evals',
    Fixture.expand false = Some (true, n', evals')
    /\ visits_ n' = 0
    /\ expand_state_ n' = ExpandState.kExpanded
    /\ avg_black_ownership_ n' = repeat 0%Q 4.
Proof.
  destruct (@ExpandChildren_keeps_statistics _ Fixture.toy 4 (Fixture.params false)
              Fixture.network Fixture.config_IsLegal Fixture.rollout
              Fixture.empty_state Fixture.evals0 true (new_Node 4 (-1) 1))
    as (n' & evals' & Hrun & Hv & _ & _ & _ & _ & _ & _ & _ & _ & _ & _ & Hs & Ho).
  - reflexivity.
  - reflexivity.
  - vm_compute. reflexivity.
  - reflexivity.
  - exists n', evals'. split; [exact Hrun|]. split; [exact Hv|].
    split; [exact Hs | exact Ho].
Defined.

(** X9 on the empty 2x2 board under a configuration that forbids every
    move: the pass is the only child. *)
Lemma ExpandChildren_pass_only_witness :
  exists n' evals' prior,
    @ExpandChildren _ Fixture.toy 4 (Fixture.params false) Fixture.network
      Sample.never_legal Fixture.rollout Fixture.empty_state Fixture.evals0 true
      (new_Node 4 (-1) 1) = Some (true, n', evals')
    /\ children_ n' = [mkEdge 26 prior None]
    /\ (prior == 1)%Q.
Proof.
  apply (@ExpandChildren_pass_only _ Fixture.toy 4 (Fixture.params false)
           Fixture.network Sample.never_legal Fixture.rollout Fixture.empty_state
           Fixture.evals0 true (new_Node 4 (-1) 1)).
  - reflexivity.
  - reflexivity.
  - reflexivity.
  - vm_compute. reflexivity.
  - split; vm_compute; [discriminate | reflexivity].
  - intros idx _. reflexivity.
Defined.

(** X11 on the ko position. *)
Lemma KillRootSuperkos_idempotent_witness :
  exists n',
    @KillRootSuperkos _ Fixture.toy Fixture.ko_state Fixture.ko_root = Some n'
    /\ @KillRootSuperkos _ Fixture.toy Fixture.ko_state n' = Some n'.
Proof.
  destruct (@KillRootSuperkos_idempotent _ Fixture.toy Fixture.ko_state Fixture.ko_root)
    as (n' & Hrun & Hagain & _).
  - unfold children_ready. forall_list ltac:(eexists; split; reflexivity).
  - exists n'. split; assumption.
Defined.

(** X12 on a root with two active children. *)
Lemma ProbSelectChild_spec_witness :
  exists idx child,
    nth_error (children_ Fixture.visited_root) idx = Some child
    /\ selectable child = true
    /\ Best.ProbSelectChild 4 Fixture.visited_root
       = Some (match edge_node child with
               | Some node => node
               | None => new_Node 4 (edge_vertex child) (edge_policy child)
               end,
               set_children Fixture.visited_root
                 (array_set (children_ Fixture.visited_root) idx (Inflate 4 child))).
Proof.
  destruct (ProbSelectChild_spec 4 Fixture.visited_root)
    as (idx & child & Hn & Hs & _ & _ & Hr).
  - reflexivity.
  - apply Exists_cons_hd. split; [reflexivity | vm_compute; reflexivity].
  - exists idx, child. split; [exact Hn|]. split; [exact Hs | exact Hr].
Defined.

(** X13 on the expanded root of the empty 2x2 board. *)
Lemma ProbSelectChild_after_expansion_witness :
  Best.ProbSelectChild 4 Sample.expanded
  = Some (new_Node 4 (edge_vertex Sample.first_child) (edge_policy Sample.first_child),
          set_children Sample.expanded
            (Inflate 4 Sample.first_child :: Sample.other_children)).
Proof.
  apply (ProbSelectChild_after_expansion 4 Sample.expanded Sample.first_child
           Sample.other_children).
  - reflexivity.
  - vm_compute. reflexivity.
  - vm_compute. forall_list ltac:(reflexivity).
  - vm_compute. intuition discriminate.
  - vm_compute. reflexivity.
Defined.

(** X14 on the ko root with draws that are all 1: the search policies of
    the three children sum to 1 as the priors do. *)
Lemma ApplyDirichletNoise_spec_witness :
  exists d' ps,
    ApplyDirichletNoise Sample.unit_gamma (1 # 2) Fixture.ko_root Sample.noise_array
    = Some d'
    /\ search_policies (1 # 4) d' (children_ Fixture.ko_root) = Some ps
    /\ (Qsum ps == 1)%Q.
Proof.
  destruct (ApplyDirichletNoise_spec Sample.unit_gamma (1 # 4) (1 # 2) Fixture.ko_root
              Sample.noise_array) as (d' & Hrun & _ & _ & Hsum).
  - vm_compute. repeat constructor; cbn; intuition discriminate.
  - vm_compute. forall_list ltac:(split; [discriminate | reflexivity]).
  - destruct Hsum as (_ & ps & Hps & Hq); [vm_compute; discriminate|].
    exists d', ps. split; [exact Hrun|]. split; [exact Hps|].
    rewrite Hq. vm_compute. reflexivity.
Defined.

Lemma toy_array_covers :
  @array_covers_vertices _ Fixture.toy Fixture.empty_state
    (length Sample.noise_array).
Proof.
  split; [vm_compute; reflexivity|].
  intros [|[|[|[|idx]]]] Hidx; try (vm_compute; reflexivity).
  exfalso. cbn in Hidx. lia.
Qed.

(** X15 on the empty 2x2 board with the noise and the first-pass bonus on. *)
Lemma PrepareRootNode_spec_witness :
  exists n' evals' dirichlet',
    Sample.prepare = Some (true, n', evals', dirichlet')
    /\ score_bouns_ n' = 0%Q
    /\ expand_state_ n' = ExpandState.kExpanded
    /\ length dirichlet' = 30%nat.
Proof.
  destruct (@PrepareRootNode_spec _ Fixture.toy 4 (Fixture.params false)
              Fixture.network Fixture.config_IsLegal Fixture.rollout
              Sample.unit_gamma true 1 (3 # 100) true Fixture.empty_state
              Fixture.evals0 (new_Node 4 (-1) 1) Sample.noise_array)
    as (expanded & evals' & n' & dirichlet' & _ & Hrun & _ & _ & _ & Hb & Hs & Hl).
  - reflexivity.
  - reflexivity.
  - reflexivity.
  - vm_compute. reflexivity.
  - intros _. exact toy_array_covers.
  - exists n', evals', dirichlet'. split; [exact Hrun|]. split; [exact Hb|].
    split; [exact Hs | exact Hl].
Defined.

Lemma toy_history_ok : @history_ok _ Fixture.toy Fixture.empty_state.
Proof.
  unfold history_ok. cbn.
  split; [lia|]. split; [reflexivity|]. split; [reflexivity|].
  split; [reflexivity|]. split; [reflexivity|].
  constructor; [discriminate | constructor].
Qed.

(** X16 on the empty 2x2 board: a move at vertex 5 and its undo. *)
Lemma PlayMove_UndoMove_witness :
  @GameOps.UndoMove _ Fixture.toy
    (snd (@Game.PlayMoveColor _ Fixture.toy Fixture.empty_state 5 kBlack))
  = Some (true, Fixture.empty_state).
Proof.
  apply (@PlayMove_UndoMove _ Fixture.toy Fixture.empty_state 5 kBlack).
  - exact toy_history_ok.
  - vm_compute. discriminate.
  - reflexivity.
  - reflexivity.
Defined.


(** X18 on the empty 2x2 board: Black resigns. *)
Lemma PlayMove_resign_witness :
  let r := @Game.PlayMoveColor _ Fixture.toy Fixture.empty_state 27 kBlack in
  GameOps.GetWinner (snd r) = kWhiteWon
  /\ @GameOps.IsGameOver _ Fixture.toy (snd r) = true.
Proof.
  destruct (@PlayMove_resign _ Fixture.toy Fixture.empty_state kBlack toy_history_ok)
    as (_ & _ & _ & _ & Hw & Hover & _).
  split; [exact Hw | exact Hover].
Defined.

Lemma Qeq_bool_same (x y : Q) : (x == y)%Q -> Qeq_bool x y = true.
Proof. apply Qeq_bool_iff. Qed.

Lemma Qeq_bool_half (x : Q) : (x == 1 # 2)%Q -> Qeq_bool x 0 = false.
Proof.
  intros Hx. destruct (Qeq_bool x 0) eqn:E; [|reflexivity].
  apply Qeq_bool_iff in E. rewrite E in Hx. discriminate Hx.
Qed.

(** X19 on a komi of six and a half points. *)
Lemma SetKomi_GetKomi_witness :
  exists s',
    Sample.set_komi Fixture.empty_state (13 # 2) = Some s'
    /\ (Game.GetKomi s' == 13 # 2)%Q
    /\ komi_integer_ s' = 6
    /\ komi_half_ s' = true.
Proof.
  destruct (@SetKomi_GetKomi Fixture.ToyBoard Qeq_bool Sample.komi_table 1000 2000
              Fixture.empty_state (13 # 2) 6 true)
    as (s' & Hrun & Hk & Hi & Hh & _).
  - exact Qeq_bool_same.
  - exact Qeq_bool_half.
  - split; vm_compute; discriminate.
  - vm_compute. lia.
  - vm_compute. reflexivity.
  - exists s'. split; [exact Hrun|]. split; [exact Hk|]. split; [exact Hi | exact Hh].
Defined.

(** X20: a reset to a 2x2 board with a komi of seven points. *)
Lemma Reset_spec_witness :
  exists s',
    Sample.reset Fixture.ko_state 2 7 = Some s'
    /\ @history_ok _ Fixture.toy s'
    /\ @Game.IsSuperko _ Fixture.toy s' = false
    /\ (Game.GetKomi s' == 7)%Q.
Proof.
  destruct (@Reset_spec _ Fixture.toy Sample.toy_reset Qeq_bool Sample.komi_table
              1000 2000 Fixture.ko_state 2 7 7 false)
    as (s' & Hrun & _ & Hok & _ & Hko & Hk).
  - exact Qeq_bool_same.
  - exact Qeq_bool_half.
  - split; vm_compute; discriminate.
  - vm_compute. lia.
  - vm_compute. reflexivity.
  - reflexivity.
  - exists s'. split; [exact Hrun|]. split; [exact Hok|]. split; [exact Hko | exact Hk].
Defined.

(** X21 for four considered moves: three rounds over four slots, twelve
    visits. *)
Lemma fill_table_distributes_witness :
  exists table, Gumbel.fill_table 3 4 = Some table /\ Zsum table = 12.
Proof.
  destruct (fill_table_distributes 4) as (table & Hrun & _ & _ & _ & Hsum).
  - vm_compute. reflexivity.
  - exists table. split; [exact Hrun | exact Hsum].
Defined.

(** X22 for five root visits and four considered moves. *)
Lemma considered_visits_defined_witness :
  exists visits, Gumbel.considered_visits 5 3 4 false = Some visits.
Proof.
  destruct (considered_visits_defined 5 3 4 false) as (visits & Hrun & _).
  - split; vm_compute; discriminate.
  - vm_compute. reflexivity.
  - exists visits. exact Hrun.
Defined.

(** X23 on a root with two visited children. *)
Lemma ProcessGumbelLogits_defined_witness :
  exists logits',
    Sample.process_logits = Some logits' /\ length logits' = 30%nat.
Proof.
  apply (ProcessGumbelLogits_defined (fun q => q) 20 (1 # 4) Fixture.visited_root
           Sample.logits kBlack 5 3 4 (- (1000000))%Q false).
  - split; vm_compute; discriminate.
  - vm_compute. reflexivity.
  - vm_compute. discriminate.
  - intros E. vm_compute in E. discriminate E.
  - unfold logits_cover.
    forall_list ltac:(eexists; split; [reflexivity|];
                      split; split; vm_compute; (discriminate || reflexivity)).
Defined.



Lemma visited_root_has_visits :
  visited_child (children_ Fixture.visited_root) 5.
Proof.
  eexists. eexists. split; [left; reflexivity|].
  split; [reflexivity|]. split; [reflexivity|]. split; reflexivity.
Qed.

(** X26 on a root with two visited children. *)
Lemma GetLcbUtilityList_entries_witness :
  exists lcblist,
    Sample.lcb_list Fixture.visited_root kBlack = Some lcblist
    /\ Forall (fun entry => visited_child (children_ Fixture.visited_root) (snd entry))
         lcblist
    /\ lcblist <> [].
Proof.
  assert (Hrun : exists lcblist,
             Sample.lcb_list Fixture.visited_root kBlack = Some lcblist)
    by (eexists; vm_compute; reflexivity).
  destruct Hrun as (lcblist & Hrun). exists lcblist. split; [exact Hrun|].
  destruct (GetLcbUtilityList_entries Qabs (fun q => q) [5; 4; 3]%Q (1 # 10) (1 # 50)
              20 Fixture.visited_root kBlack lcblist Hrun) as (Hall & _ & _ & Hne).
  split; [exact Hall|]. apply Hne. exists 5. exact visited_root_has_visits.
Defined.

(** X27 on the same root. *)
Lemma GetBestMove_visited_witness :
  exists vtx n',
    Fixture.best_move Fixture.visited_root = Some (vtx, n')
    /\ n' = Fixture.visited_root
    /\ (vtx = 0 \/ visited_child (children_ Fixture.visited_root) vtx).
Proof.
  assert (Hrun : exists vtx n',
             Fixture.best_move Fixture.visited_root = Some (vtx, n'))
    by (eexists; eexists; vm_compute; reflexivity).
  destruct Hrun as (vtx & n' & Hrun). exists vtx, n'. split; [exact Hrun|].
  apply (GetBestMove_visited Qabs (fun q => q) [5; 4; 3]%Q (1 # 10) (1 # 50) 20 4 0
           Fixture.visited_root n' vtx Hrun).
  exists 5. exact visited_root_has_visits.
Defined.

(** X28 on the same root, away from the root of the search. *)
Lemma PuctSelectChild_spec_witness :
  exists node n' idx child,
    Sample.puct Fixture.visited_root kBlack false = Some (node, n')
    /\ nth_error (children_ Fixture.visited_root) idx = Some child
    /\ selectable child = true
    /\ n' = set_children Fixture.visited_root
              (array_set (children_ Fixture.visited_root) idx (Inflate 4 child)).
Proof.
  assert (Hrun : exists node n',
             Sample.puct Fixture.visited_root kBlack false = Some (node, n'))
    by (eexists; eexists; vm_compute; reflexivity).
  destruct Hrun as (node & n' & Hrun).
  destruct (PuctSelectChild_spec Qabs (fun q => q) (fun q => q) 4 (1 # 2) (1 # 4) 19652
              (1 # 10) (1 # 4) 20 (1 # 4) (1 # 4) (1 # 4) false false 0
              Sample.noise_array true (fun _ _ _ => None) Fixture.visited_root kBlack
              false node n' Hrun eq_refl)
    as (idx & child & v & Hn & Hs & _ & _ & _ & _ & Hn').
  exists node, n', idx, child. split; [exact Hrun|]. split; [exact Hn|].
  split; [exact Hs | exact Hn'].
Defined.


(** X30 on the small board: the vertex 5 is written as A1 and read back. *)
Lemma TextToVertex_VertexToText_witness :
  @Text.TextToVertex _ Fixture.toy 0 Fixture.empty_state
    (@Text.VertexToText _ Fixture.toy Sample.toy_x Sample.toy_y Fixture.empty_state 5)
  = Some 5.
Proof.
  apply (@TextToVertex_VertexToText _ Fixture.toy 0 Sample.toy_x Sample.toy_y
           Fixture.empty_state 5).
  right. right. vm_compute. intuition (discriminate || reflexivity).
Defined.
